(** * schema-driven-html: schema extraction and rendering of the HTML DSL

    A shallow embedding of the TypeScript sources

      - [dsl-utils.ts]        (paths, alias scopes, iteration expressions,
                               canonical sorting),
      - [schema-extractor.ts] (the static traversal building a JSON Schema),
      - [filters.ts]          (the filter pipeline),
      - [renderer.ts]         (the dynamic traversal producing markup),

    followed by the properties the specification states about them.

    Modelling conventions.
      - A JavaScript string is a [string]; the model covers the ASCII range
        (white space is the ASCII white space, case mapping is left to the
        runtime).
      - A JavaScript value is a [value]: what JSON data and the schema under
        construction are made of.  An ordinary object is the list of its own
        properties in the order [Object.entries] enumerates them, and a
        lookup finds own properties only, whereas [o[k]] in the sources
        follows the prototype chain.  The two agree unless a key that is no
        own property names a member of [Object.prototype] or of
        [Array.prototype] ([constructor], [toString], [__proto__], ...), in
        a realm whose prototypes hold their built-in members only.  Where a
        statement would differ for such a key it carries the condition that
        excludes it ([ownLookup], [plainTree], [stringifiable]).
      - A finite number is an exact rational; rounding to binary64 is not
        modelled, so the model is exact on the safe integers (below [2^53]
        in absolute value) and on what the sources compute from them.
      - A [throw] is the [Throw] constructor of [result].
      - Built-ins whose results depend on locale or number formatting are
        fields of the class [JsRuntime]. *)

From Stdlib Require Import String Ascii List ZArith NArith QArith Qround Bool Lia.
From Stdlib Require Import Sorted Permutation.
Import ListNotations.

Set Warnings "-register-all".

Open Scope list_scope.
Open Scope string_scope.

(* ================================================================== *)
(** * Part I. The embedding                                            *)
(* ================================================================== *)

(** ** Exceptions *)

Inductive exn : Type :=
| JsError (msg : string)      (* throw new Error(msg) *)
| RangeError                   (* raised by a built-in *)
| TypeError                    (* raised by a built-in *)
| Unmodelled.                  (* named properties on an array: outside [value] *)

Inductive result (A : Type) : Type :=
| Ok (a : A)
| Throw (e : exn).

Arguments Ok {A} a.
Arguments Throw {A} e.

Definition bind {A B} (r : result A) (k : A -> result B) : result B :=
  match r with
  | Ok a => k a
  | Throw e => Throw e
  end.

Notation "'let*' x ':=' r 'in' k" := (bind r (fun x => k))
  (at level 10, x pattern, r at level 100, k at level 200).

(** [xs.map(f)] for an [f] that may throw: the first exception wins. *)
Fixpoint mapM {A B} (f : A -> result B) (l : list A) : result (list B) :=
  match l with
  | [] => Ok []
  | x :: xs =>
      let* y := f x in
      let* ys := mapM f xs in
      Ok (y :: ys)
  end.

(** ** Strings *)

(** WhiteSpace and LineTerminator code points of the ASCII range, as matched
    by [\s] and stripped by [trim]. *)
Definition isWhite (c : ascii) : bool :=
  let n := nat_of_ascii c in
  ((9 <=? n) && (n <=? 13))%nat || (n =? 32)%nat.

Fixpoint trimStart (s : string) : string :=
  match s with
  | String c rest => if isWhite c then trimStart rest else s
  | EmptyString => EmptyString
  end.

Fixpoint trimEnd (s : string) : string :=
  match s with
  | EmptyString => EmptyString
  | String c rest =>
      match trimEnd rest with
      | EmptyString => if isWhite c then EmptyString else String c EmptyString
      | t => String c t
      end
  end.

Definition trim (s : string) : string := trimEnd (trimStart s).

Definition startsWith (s p : string) : bool := prefix p s.

Fixpoint skipn_string (n : nat) (s : string) : string :=
  match n, s with
  | O, _ => s
  | S n', String _ rest => skipn_string n' rest
  | S _, EmptyString => EmptyString
  end.

Definition endsWith (s suffix : string) : bool :=
  (String.length suffix <=? String.length s)%nat
  && (skipn_string (String.length s - String.length suffix) s =? suffix).

(** [s.slice(0, -n)] *)
Definition dropEnd (n : nat) (s : string) : string :=
  substring 0 (String.length s - n) s.

(** [s.slice(n)] *)
Definition sliceFrom (n : nat) (s : string) : string := skipn_string n s.

(** [s.split(sep)] for a one-character separator. *)
Fixpoint splitChar (sep : ascii) (s : string) : list string :=
  match s with
  | EmptyString => [EmptyString]
  | String c rest =>
      if Ascii.eqb c sep then EmptyString :: splitChar sep rest
      else match splitChar sep rest with
           | w :: ws => String c w :: ws
           | [] => [String c EmptyString]
           end
  end.

(** [s.split(sep)] for an arbitrary separator.  [skip] counts the characters
    of a separator occurrence that are still to be dropped, [cur] is the piece
    under construction, reversed. *)
Fixpoint splitAux (sep : string) (skip : nat) (cur : list ascii) (s : string)
  : list string :=
  match s with
  | EmptyString => [string_of_list_ascii (rev cur)]
  | String c rest =>
      match skip with
      | S k => splitAux sep k cur rest
      | O =>
          if prefix sep s
          then string_of_list_ascii (rev cur)
               :: splitAux sep (String.length sep - 1) [] rest
          else splitAux sep O (c :: cur) rest
      end
  end.

Definition split (sep s : string) : list string :=
  match sep with
  | EmptyString => map (fun c => String c EmptyString) (list_ascii_of_string s)
  | _ => splitAux sep 0 [] s
  end.

Definition nonEmpty (s : string) : bool := negb (s =? EmptyString).

(** [path.split(".").filter(Boolean)] *)
Definition normalizePath (path : string) : list string :=
  filter nonEmpty (splitChar "." path).

Definition join (sep : string) (l : list string) : string := String.concat sep l.

(** ** Numbers *)

(** A Number value: a finite rational (binary64 rounding is not modelled),
    negative zero, NaN, or an infinity. *)
Inductive jsnum : Type :=
| NFin (q : Q)
| NNegZero
| NNaN
| NInf (negative : bool).

Definition numZ (z : Z) : jsnum := NFin (inject_Z z).
Definition numNat (n : nat) : jsnum := numZ (Z.of_nat n).

Definition isNaN (a : jsnum) : bool :=
  match a with NNaN => true | _ => false end.

(** [Number.isFinite] *)
Definition isFinite (a : jsnum) : bool :=
  match a with NFin _ | NNegZero => true | _ => false end.

(** The order used by [Math.min] and [Math.max] on operands that are not NaN:
    the numeric order, with [-0] below [+0]. *)
Definition numLe (a b : jsnum) : bool :=
  match a, b with
  | NInf true, _ => true
  | _, NInf false => true
  | NInf false, _ => false
  | _, NInf true => false
  | NFin p, NFin q => Qle_bool p q
  | NNegZero, NFin q => Qle_bool 0 q
  | NFin p, NNegZero => negb (Qle_bool 0 p)
  | NNegZero, NNegZero => true
  | _, _ => false
  end.

Definition mathMin (a b : jsnum) : jsnum :=
  if isNaN a || isNaN b then NNaN else if numLe a b then a else b.

Definition mathMax (a b : jsnum) : jsnum :=
  if isNaN a || isNaN b then NNaN else if numLe a b then b else a.

(** [a < b] on numbers. *)
Definition numLtb (a b : jsnum) : bool :=
  match a, b with
  | NNaN, _ | _, NNaN => false
  | NInf true, NInf true => false
  | NInf true, _ => true
  | _, NInf true => false
  | NInf false, _ => false
  | _, NInf false => true
  | NFin p, NFin q => negb (Qle_bool q p)
  | NFin p, NNegZero => negb (Qle_bool 0 p)
  | NNegZero, NFin q => negb (Qle_bool q 0)
  | NNegZero, NNegZero => false
  end.

(** ToIntegerOrInfinity, [None] standing for an infinity. *)
Definition toIntegerOrInfinity (a : jsnum) : option Z :=
  match a with
  | NFin q => Some (Z.quot (Qnum q) (Zpos (Qden q)))
  | NNegZero | NNaN => Some 0%Z
  | NInf _ => None
  end.

Definition digitVal (c : ascii) : option Z :=
  let n := nat_of_ascii c in
  if ((48 <=? n) && (n <=? 57))%nat then Some (Z.of_nat (n - 48)) else None.

Definition isDigit (c : ascii) : bool :=
  match digitVal c with Some _ => true | None => false end.

(** The value of the longest prefix of decimal digits, if it is not empty. *)
Fixpoint digitsPrefix (s : string) (acc : option Z) : option Z :=
  match s with
  | EmptyString => acc
  | String c rest =>
      match digitVal c with
      | Some d =>
          digitsPrefix rest
            (Some (match acc with Some a => 10 * a + d | None => d end)%Z)
      | None => acc
      end
  end.

(** [parseInt(s, 10)], exact on digit strings that denote a safe integer;
    beyond, the source rounds to binary64, and to [Infinity] in the end. *)
Definition parseInt (s : string) : jsnum :=
  let t := trimStart s in
  let '(neg, body) :=
    match t with
    | String "-" r => (true, r)
    | String "+" r => (false, r)
    | _ => (false, t)
    end in
  match digitsPrefix body None with
  | None => NNaN
  | Some z =>
      if neg then (if (z =? 0)%Z then NNegZero else numZ (- z)) else numZ z
  end.

(** The number of iterations of [for (let i = 0; i < n; i++)].  The loop
    does not terminate for [n = +Infinity]; the renderer does not reach that
    case with numbers that [parseInt] reads exactly (lemma
    [totalRows_not_infinite]). *)
Definition loopCount (n : jsnum) : nat :=
  match n with
  | NFin q => Z.to_nat (Qceiling q)
  | _ => O
  end.

(** Decimal digits of a natural number, for array index keys. *)
Fixpoint natDigits (fuel n : nat) (acc : string) : string :=
  match fuel with
  | O => acc
  | S fuel' =>
      let acc' := String (ascii_of_nat (48 + n mod 10)) acc in
      if (n / 10 =? 0)%nat then acc' else natDigits fuel' (n / 10) acc'
  end.

Definition natToString (n : nat) : string := natDigits (S n) n EmptyString.

(** An array index in the sense of ECMAScript: the canonical decimal form of
    an integer in the range 0 to 2^32 - 2. *)
Definition isArrayIndex (k : string) : option N :=
  match k with
  | EmptyString => None
  | String c rest =>
      if forallb isDigit (list_ascii_of_string k)
         && ((c =? "0")%char && (rest =? EmptyString) || negb (c =? "0")%char)
         && (String.length k <=? 10)%nat
      then match digitsPrefix k None with
           | Some z => if (z <? 4294967295)%Z then Some (Z.to_N z) else None
           | None => None
           end
      else None
  end.

(** ** Values *)

Unset Elimination Schemes.

Inductive value : Type :=
| VUndefined
| VNull
| VBool (b : bool)
| VNum (n : jsnum)
| VStr (s : string)
| VArr (items : list value)
| VObj (props : list (string * value)).

Set Elimination Schemes.

(** ToBoolean *)
Definition truthy (v : value) : bool :=
  match v with
  | VUndefined | VNull => false
  | VBool b => b
  | VNum (NFin q) => negb (Qnum q =? 0)%Z
  | VNum NNegZero | VNum NNaN => false
  | VNum (NInf _) => true
  | VStr s => nonEmpty s
  | VArr _ | VObj _ => true
  end.

(** [v == null] *)
Definition isNullish (v : value) : bool :=
  match v with VUndefined | VNull => true | _ => false end.

(** [a ?? b] *)
Definition nullish (a b : value) : value := if isNullish a then b else a.

Definition isArray (v : value) : bool :=
  match v with VArr _ => true | _ => false end.

(** [isPlainObject] of dsl-utils.ts *)
Definition isPlainObject (v : value) : bool :=
  match v with VObj _ => true | _ => false end.

(** ** Objects

    The own properties of an ordinary object, in enumeration order: array
    index keys in ascending numeric order first, then the other keys in the
    order of their creation. *)

Fixpoint getProp {A} (o : list (string * A)) (k : string) : option A :=
  match o with
  | [] => None
  | (k', v) :: rest => if k' =? k then Some v else getProp rest k
  end.

Definition hasOwn {A} (o : list (string * A)) (k : string) : bool :=
  match getProp o k with Some _ => true | None => false end.

Fixpoint replaceProp {A} (o : list (string * A)) (k : string) (v : A)
  : list (string * A) :=
  match o with
  | [] => []
  | (k', v') :: rest =>
      if k' =? k then (k', v) :: rest else (k', v') :: replaceProp rest k v
  end.

Fixpoint insertIndex {A} (n : N) (k : string) (v : A) (o : list (string * A))
  : list (string * A) :=
  match o with
  | [] => [(k, v)]
  | (k', v') :: rest =>
      match isArrayIndex k' with
      | Some m =>
          if (m <? n)%N then (k', v') :: insertIndex n k v rest
          else (k, v) :: o
      | None => (k, v) :: o
      end
  end.

(** [o[k] = v] *)
Definition setProp {A} (o : list (string * A)) (k : string) (v : A)
  : list (string * A) :=
  if hasOwn o k then replaceProp o k v
  else match isArrayIndex k with
       | Some n => insertIndex n k v o
       | None => o ++ [(k, v)]
       end.

(** [Object.fromEntries(l)], and [{...a, ...b}] as [fromEntries (a ++ b)]. *)
Definition fromEntries {A} (l : list (string * A)) : list (string * A) :=
  fold_left (fun o kv => setProp o (fst kv) (snd kv)) l [].

(** [v[k]] for a value that is an object or an array; [undefined] for a
    missing property.  The own properties only: where [k] is no own
    property and names a member that [v] inherits, the source finds that
    member. *)
Definition getMember (v : value) (k : string) : value :=
  match v with
  | VObj o => match getProp o k with Some x => x | None => VUndefined end
  | VArr l =>
      match isArrayIndex k with
      | Some n => nth (N.to_nat n) l VUndefined
      | None => if k =? "length" then VNum (numNat (List.length l))
                else VUndefined
      end
  | VStr s =>
      match isArrayIndex k with
      | Some n =>
          match String.get (N.to_nat n) s with
          | Some c => VStr (String c EmptyString)
          | None => VUndefined
          end
      | None => if k =? "length" then VNum (numNat (String.length s))
                else VUndefined
      end
  | _ => VUndefined
  end.

(** The own enumerable properties a spread [{...v}] copies. *)
Definition ownEntries (v : value) : list (string * value) :=
  match v with
  | VObj o => o
  | VArr l => combine (map natToString (seq 0 (List.length l))) l
  | VStr s =>
      combine (map natToString (seq 0 (String.length s)))
              (map (fun c => VStr (String c EmptyString)) (list_ascii_of_string s))
  | _ => []
  end.

(** ** types.ts: the abstract syntax tree *)

Module Types.

Inductive DataType : Type :=
| TString | TInteger | TNumber | TBoolean | TDate | TTime | TDatetime.

Inductive Constraint : Type :=
| CEnum (values : list value)
| CMin (v : jsnum)
| CMax (v : jsnum)
| CExMin (v : jsnum)
| CExMax (v : jsnum)
| CStep (v : jsnum)
| CPattern (v : string)
| CFixed (v : value)
| CMinLength (v : jsnum)
| CMaxLength (v : jsnum).

Record Filter : Type := mkFilter {
  name : string;
  args : list string
}.

Record InterpolationSegment : Type := mkInterpolation {
  path : string;
  dataType : DataType;
  nullable : bool;
  constraints : list Constraint;
  filters : list Filter
}.

Inductive TextSegment : Type :=
| Literal (text : string)
| Interpolation (segment : InterpolationSegment).

Unset Elimination Schemes.

(** [DslNode = ElementNode | TextNode]; [attributes] is the attribute record
    in enumeration order. *)
Inductive DslNode : Type :=
| TextNode (segments : list TextSegment)
| ElementNode (tagName : string) (attributes : list (string * string))
              (children : list DslNode).

Set Elimination Schemes.

End Types.

Import Types.

(** [node.attributes[k]] used as a condition: a missing attribute and the
    empty string are both falsy. *)
Definition attr (attributes : list (string * string)) (k : string)
  : option string :=
  match getProp attributes k with
  | Some v => if nonEmpty v then Some v else None
  | None => None
  end.

(** ** The runtime

    Built-ins of the JavaScript runtime that the sources call and whose
    results depend on locale data, number formatting or code points outside
    the ASCII range. *)

Record DateParts : Type := mkDateParts {
  YYYY : string; MM : string; DD : string;
  HH : string; mm : string; ss : string
}.

Class JsRuntime : Type := {
  (** the sign of [a.localeCompare(b)] *)
  localeCompare : string -> string -> comparison;
  (** [String(n)] for a number *)
  numberToString : jsnum -> string;
  (** [Number(s)] for a string *)
  stringToNumber : string -> jsnum;
  toUpperCase : string -> string;
  toLowerCase : string -> string;
  (** [s.replaceAll(from, to)] *)
  replaceAll : string -> string -> string -> string;
  (** [s.padStart(width, fill)], for a width below the engine's limit on the
      length of a string *)
  padStart : string -> jsnum -> string -> string;
  (** [s.slice(start, end)] *)
  slice : string -> jsnum -> jsnum -> string;
  (** the character maps [toZenkaku] and [toHankaku] of filters.ts *)
  toZenkaku : string -> string;
  toHankaku : string -> string;
  (** [new Intl.NumberFormat("en-US", {maximumFractionDigits: 20}).format(n)] *)
  formatNumber : jsnum -> string;
  (** [n.toFixed(digits)] for [0 <= digits <= 100] *)
  toFixedDigits : jsnum -> Z -> string;
  (** [new Date(s)] followed by [Intl.DateTimeFormat(..., {timeZone}).formatToParts]:
      [Ok None] for an invalid date, [Throw RangeError] for an unknown
      time zone *)
  zonedParts : string -> string -> result (option DateParts)
}.

(** [Array.prototype.sort]: the stable sort; [le x y] holds when the
    comparator does not put [y] strictly before [x]. *)
Section StableSort.
Context {A : Type} (le : A -> A -> bool).

Fixpoint insertSorted (x : A) (l : list A) : list A :=
  match l with
  | [] => [x]
  | y :: rest => if le x y then x :: l else y :: insertSorted x rest
  end.

Definition stableSort (l : list A) : list A := fold_right insertSorted [] l.

End StableSort.

Section Conversions.
Context {rt : JsRuntime}.

(** [String(v)], for a value none of whose objects has an own property
    [toString]; for the others the conversion throws a TypeError in the
    source. *)
Fixpoint jsToString (v : value) : string :=
  match v with
  | VUndefined => "undefined"
  | VNull => "null"
  | VBool true => "true"
  | VBool false => "false"
  | VNum n => numberToString n
  | VStr s => s
  | VArr l =>
      join "," (map (fun x => if isNullish x then EmptyString else jsToString x) l)
  | VObj _ => "[object Object]"
  end.

(** [Number(v)], for the values that [String(v)] converts. *)
Definition toNumber (v : value) : jsnum :=
  match v with
  | VUndefined => NNaN
  | VNull => numZ 0
  | VBool true => numZ 1
  | VBool false => numZ 0
  | VNum n => n
  | VStr s => stringToNumber s
  | VArr _ => stringToNumber (jsToString v)
  | VObj _ => NNaN
  end.

End Conversions.

(** ** dsl-utils.ts *)

Module DslUtils.

Record GlobalConfig : Type := mkGlobalConfig {
  timezone : string;
  examplesDelimiter : string
}.

Definition isLetter (c : ascii) : bool :=
  let n := nat_of_ascii c in
  ((65 <=? n) && (n <=? 90) || (97 <=? n) && (n <=? 122))%nat.

(** [[A-Za-z_$]] *)
Definition isIdentStart (c : ascii) : bool :=
  isLetter c || (c =? "_")%char || (c =? "$")%char.

(** [[A-Za-z0-9_$]] *)
Definition isIdentChar (c : ascii) : bool := isIdentStart c || isDigit c.

(** [[A-Za-z0-9_$.]] *)
Definition isPathChar (c : ascii) : bool := isIdentChar c || (c =? ".")%char.

(** The longest prefix whose characters satisfy [p], and the rest. *)
Fixpoint span (p : ascii -> bool) (s : string) : string * string :=
  match s with
  | EmptyString => (EmptyString, EmptyString)
  | String c rest =>
      if p c then let '(a, b) := span p rest in (String c a, b)
      else (EmptyString, s)
  end.

(** The match of the regular expression of [parseIterationExpression],
    anchored at both ends: an identifier start and any number of path
    characters (group 1), white space, [as], white space, an identifier
    (group 2).  Each repetition is followed by a character outside its class,
    so the greedy match is the only candidate. *)
Definition matchIteration (s : string) : option (string * string) :=
  match s with
  | String c _ =>
      if isIdentStart c then
        let '(p, r1) := span isPathChar s in
        let '(w1, r2) := span isWhite r1 in
        if nonEmpty w1 && startsWith r2 "as" then
          let '(w2, r3) := span isWhite (sliceFrom 2 r2) in
          match r3 with
          | String d _ =>
              if nonEmpty w2 && isIdentStart d
                 && forallb isIdentChar (list_ascii_of_string r3)
              then Some (p, r3) else None
          | EmptyString => None
          end
        else None
      else None
  | EmptyString => None
  end.

Definition parseIterationExpression (expr : string) : result (string * string) :=
  match matchIteration (trim expr) with
  | None => Throw (JsError ("Invalid iteration expression: " ++ expr))
  | Some pa => Ok pa
  end.

(** The loop of [getByPath]. *)
Fixpoint getByParts (cursor : value) (parts : list string) : value :=
  match parts with
  | [] => cursor
  | key :: rest =>
      if negb (isPlainObject cursor) && negb (isArray cursor) then VUndefined
      else getByParts (getMember cursor key) rest
  end.

Definition getByPath (data aliases : list (string * value)) (p : string) : value :=
  match normalizePath p with
  | [] => VUndefined
  | p0 :: rest =>
      match getProp aliases p0 with
      | Some bound => getByParts bound rest
      | None => getByParts (VObj data) (p0 :: rest)
      end
  end.

(** [s.replaceAll(c, by)] for a one-character pattern and a replacement
    without [$]. *)
Fixpoint replaceChar (c : ascii) (by_ : string) (s : string) : string :=
  match s with
  | EmptyString => EmptyString
  | String d rest =>
      if (d =? c)%char then by_ ++ replaceChar c by_ rest
      else String d (replaceChar c by_ rest)
  end.

Definition dquote : ascii := ascii_of_nat 34.

Definition escapeHtml (s : string) : string :=
  replaceChar dquote "&quot;"
    (replaceChar ">" "&gt;" (replaceChar "<" "&lt;" (replaceChar "&" "&amp;" s))).

(** [walkElements], with the visitor's effect on the state it closes over. *)
Fixpoint walkElements {S : Type}
  (visitor : string -> list (string * string) -> S -> S)
  (root : DslNode) (st : S) : S :=
  match root with
  | TextNode _ => st
  | ElementNode tag attrs children =>
      fold_left (fun acc child => walkElements visitor child acc) children
                (visitor tag attrs st)
  end.

Definition collectGlobalConfig (root : DslNode) : GlobalConfig :=
  walkElements
    (fun tag attrs config =>
       if negb (tag =? "meta") then config
       else
         let name := option_map trim (getProp attrs "name") in
         let content :=
           match getProp attrs "content" with
           | Some c => trim c
           | None => EmptyString
           end in
         let config1 :=
           if match name with Some n => n =? "timezone" | None => false end
              && nonEmpty content
           then mkGlobalConfig content (examplesDelimiter config)
           else config in
         if match name with
            | Some n => n =? "semantic:examples-delimiter"
            | None => false
            end && nonEmpty content
         then mkGlobalConfig (timezone config1) content
         else config1)
    root (mkGlobalConfig "UTC" ";").

(** [{ ...map }] *)
Definition cloneAliasMap (map : list (string * value)) : list (string * value) :=
  fromEntries map.

Definition clonePathAliasMap (map : list (string * string))
  : list (string * string) :=
  fromEntries map.

(** [resolvePathWithAliases]; [aliases[parts[0]]] is read among the own
    properties of [aliases]. *)
Definition resolvePathWithAliases (p : string) (aliases : list (string * string))
  : string :=
  match normalizePath p with
  | [] => p
  | p0 :: rest =>
      match attr aliases p0 with
      | None => p
      | Some aliasPath =>
          match rest with
          | [] => aliasPath
          | _ => aliasPath ++ "." ++ join "." rest
          end
      end
  end.

Definition isVoidTag (tagName : string) : bool :=
  (tagName =? "br") || (tagName =? "hr") || (tagName =? "img")
  || (tagName =? "meta").

Section WithRuntime.
Context {rt : JsRuntime}.

(** The comparator of [entries.sort(([a], [b]) => a.localeCompare(b))]. *)
Definition entryLe (a b : string * value) : bool :=
  match localeCompare (fst a) (fst b) with
  | Gt => false
  | _ => true
  end.

(** The default comparator of [sort()]: [undefined] last, the other elements
    by the code units of their string conversions. *)
Definition defaultLe (x y : value) : bool :=
  match x, y with
  | _, VUndefined => true
  | VUndefined, _ => false
  | _, _ => String.leb (jsToString x) (jsToString y)
  end.

(** [stableSortObject].  The source sorts the entries and then maps over
    them; the map only touches the values, so the model maps first (lemma
    [stableSort_map_values]), which keeps the recursion structural. *)
Fixpoint stableSortObject (v : value) : value :=
  match v with
  | VArr l => VArr (map stableSortObject l)
  | VObj o =>
      VObj (fromEntries (stableSort entryLe
        (map (fun kv =>
                (fst kv,
                 match snd kv with
                 | VArr nested =>
                     if fst kv =? "required"
                     then VArr (stableSort defaultLe nested)
                     else stableSortObject (snd kv)
                 | _ => stableSortObject (snd kv)
                 end)) o)))
  | _ => v
  end.

End WithRuntime.


End DslUtils.

Import DslUtils.

(** ** schema-extractor.ts *)

Module SchemaExtractor.

Record InlineSemantic : Type := mkSemantic {
  description : option string;
  instruction : option string;
  examples : option (list string)
}.

Record TraverseContext : Type := mkContext {
  aliases : list (string * string);
  inlineSemantic : option InlineSemantic
}.

Definition MetaSemanticMap : Type := list (string * InlineSemantic).

Definition emptyObjectSchema : value :=
  VObj [("type", VStr "object"); ("properties", VObj []); ("required", VArr [])].

Definition emptyArraySchema : value :=
  VObj [("type", VStr "array"); ("items", emptyObjectSchema)].

Definition splitExamples (raw delimiter : string) : list string :=
  filter nonEmpty (map trim (split delimiter raw)).

Definition isElement (n : DslNode) : bool :=
  match n with ElementNode _ _ _ => true | TextNode _ => false end.

Fixpoint nodeCount (n : DslNode) : nat :=
  match n with
  | TextNode _ => 1
  | ElementNode _ _ children => S (fold_right (fun c acc => (nodeCount c + acc)%nat) O children)
  end.

(** One [meta] element of [collectMetaSemantics]. *)
Definition recordMeta (attrs : list (string * string)) (delimiter : string)
  (map : MetaSemanticMap) : MetaSemanticMap :=
  let name := match getProp attrs "name" with Some n => n | None => EmptyString end in
  let content := match getProp attrs "content" with Some c => c | None => EmptyString end in
  let old p :=
    match getProp map p with
    | Some sem => sem
    | None => mkSemantic None None None
    end in
  if startsWith name "semantic-description:" then
    let p := sliceFrom 21 name in
    setProp map p (mkSemantic (Some content) (instruction (old p)) (examples (old p)))
  else if startsWith name "semantic-instruction:" then
    let p := sliceFrom 21 name in
    setProp map p (mkSemantic (description (old p)) (Some content) (examples (old p)))
  else if startsWith name "semantic-examples:" then
    let p := sliceFrom 18 name in
    setProp map p (mkSemantic (description (old p)) (instruction (old p))
                              (Some (splitExamples content delimiter)))
  else map.

(** The queue loop of [collectMetaSemantics]; every iteration removes one
    node of the tree from the queue, so [nodeCount root] iterations empty it
    (lemma [collectMetaLoop_fuel]). *)
Fixpoint collectMetaLoop (fuel : nat) (delimiter : string)
  (queue : list DslNode) (map : MetaSemanticMap) : MetaSemanticMap :=
  match fuel, queue with
  | S fuel', ElementNode tag attrs children :: rest =>
      collectMetaLoop fuel' delimiter (rest ++ filter isElement children)
        (if tag =? "meta" then recordMeta attrs delimiter map else map)
  | S fuel', TextNode _ :: rest => collectMetaLoop fuel' delimiter rest map
  | _, _ => map
  end.

Definition collectMetaSemantics (root : DslNode) (delimiter : string)
  : MetaSemanticMap :=
  collectMetaLoop (nodeCount root) delimiter [root] [].

Definition falsyAttr (a : option string) : bool :=
  match a with
  | Some v => negb (nonEmpty v)
  | None => true
  end.

Definition buildInlineSemantic (attributes : list (string * string))
  (inherited : option InlineSemantic) (delimiter : string)
  : option InlineSemantic :=
  let description_ := getProp attributes "data-semantic-description" in
  let instruction_ := getProp attributes "data-semantic-instruction" in
  let examplesRaw := getProp attributes "data-semantic-examples" in
  if falsyAttr description_ && falsyAttr instruction_ && falsyAttr examplesRaw
  then inherited
  else
    let inh {B} (f : InlineSemantic -> option B) : option B :=
      match inherited with Some i => f i | None => None end in
    Some (mkSemantic
            (match description_ with Some d => Some d | None => inh description end)
            (match instruction_ with Some i => Some i | None => inh instruction end)
            (match attr attributes "data-semantic-examples" with
             | Some raw => Some (splitExamples raw delimiter)
             | None => inh examples
             end)).

Definition dataTypeName (t : DataType) : string :=
  match t with
  | TString => "string" | TInteger => "integer" | TNumber => "number"
  | TBoolean => "boolean" | TDate => "date" | TTime => "time"
  | TDatetime => "datetime"
  end.

Definition mapTypeToSchema (dataType : DataType) (nullable : bool)
  : list (string * value) :=
  let baseType :=
    match dataType with
    | TDate | TTime | TDatetime => "string"
    | _ => dataTypeName dataType
    end in
  let node :=
    [("type", if nullable then VArr [VStr baseType; VStr "null"] else VStr baseType)] in
  match dataType with
  | TDate => setProp node "format" (VStr "date")
  | TTime => setProp node "format" (VStr "time")
  | TDatetime => setProp node "format" (VStr "date-time")
  | _ => node
  end.

Definition applyConstraint (node : list (string * value)) (c : Constraint)
  : list (string * value) :=
  match c with
  | CEnum values => setProp node "enum" (VArr values)
  | CMin v => setProp node "minimum" (VNum v)
  | CMax v => setProp node "maximum" (VNum v)
  | CExMin v => setProp node "exclusiveMinimum" (VNum v)
  | CExMax v => setProp node "exclusiveMaximum" (VNum v)
  | CStep v => setProp node "multipleOf" (VNum v)
  | CPattern v => setProp node "pattern" (VStr v)
  | CFixed v => setProp node "const" v
  | CMinLength v => setProp node "minLength" (VNum v)
  | CMaxLength v => setProp node "maxLength" (VNum v)
  end.

Definition buildFieldSchema (dataType : DataType) (nullable : bool)
  (constraints : list Constraint) : list (string * value) :=
  fold_left applyConstraint constraints (mapTypeToSchema dataType nullable).

Definition ensureObjectProperties (node : list (string * value))
  : list (string * value) :=
  match getProp node "properties" with
  | Some (VObj _) | Some (VArr _) => node
  | _ => setProp node "properties" (VObj [])
  end.

Definition includesKey (required : list value) (key : string) : bool :=
  existsb (fun x => match x with VStr s => s =? key | _ => false end) required.

Definition pushRequired (node : list (string * value)) (key : string)
  : list (string * value) :=
  match getProp node "required" with
  | Some (VArr required) =>
      if includesKey required key then node
      else setProp node "required" (VArr (required ++ [VStr key]))
  | _ => setProp (setProp node "required" (VArr [])) "required" (VArr [VStr key])
  end.

(** The key of a path part, and whether the part is an array step. *)
Definition partIsArray (part : string) : bool := endsWith part "[]".

Definition partKey (part : string) : string :=
  if partIsArray part then dropEnd 2 part else part.

(** [ensurePathNode].  The source walks down the schema with a cursor and
    mutates the nodes in place; the model rebuilds the nodes on the way back.
    A node that is not an object makes the next property assignment throw.
    Every key is read and written as an own property of [properties]; for
    the key [__proto__] the source reads and writes the prototype
    instead. *)
Fixpoint ensurePathNode (current : value) (path : list string)
  (leafSchema : list (string * value)) (required : bool) : result value :=
  match path with
  | [] => Ok current
  | part :: rest =>
      let key := partKey part in
      match current with
      | VObj node =>
          let node1 := ensureObjectProperties node in
          match getProp node1 "properties" with
          | Some (VObj properties) =>
              let store child :=
                setProp node1 "properties" (VObj (setProp properties key child)) in
              match rest with
              | [] =>
                  let existing :=
                    nullish (getMember (VObj properties) key) (VObj []) in
                  let node2 :=
                    store (VObj (fromEntries (ownEntries existing ++ leafSchema))) in
                  Ok (VObj (if required then pushRequired node2 key else node2))
              | _ :: _ =>
                  if partIsArray part then
                    match nullish (getMember (VObj properties) key) emptyArraySchema with
                    | VObj arrNode =>
                        let arrNode1 :=
                          if truthy (getMember (VObj arrNode) "items") then arrNode
                          else setProp arrNode "items" emptyObjectSchema in
                        let* items :=
                          ensurePathNode (getMember (VObj arrNode1) "items")
                                         rest leafSchema required in
                        Ok (VObj (pushRequired
                                    (store (VObj (setProp arrNode1 "items" items)))
                                    key))
                    | VArr _ => Throw Unmodelled
                    | _ => Throw TypeError
                    end
                  else
                    let* objNode :=
                      ensurePathNode
                        (nullish (getMember (VObj properties) key) emptyObjectSchema)
                        rest leafSchema required in
                    Ok (VObj (pushRequired (store objNode) key))
              end
          | _ => Throw Unmodelled
          end
      | VArr _ => Throw Unmodelled
      | _ => Throw TypeError
      end
  end.

Definition ensureArrayPath (schema : value) (p : string) (required : bool)
  : result value :=
  ensurePathNode schema (normalizePath p)
    [("type", VStr "array"); ("items", emptyObjectSchema)] required.

Definition applyInterpolationSchema (schema : value) (p : string)
  (interpolation : InterpolationSegment) : result value :=
  ensurePathNode schema (normalizePath p)
    (buildFieldSchema (dataType interpolation) (nullable interpolation)
                      (constraints interpolation))
    (negb (nullable interpolation)).

(** [getFieldSchema] on the parts of the path; [None] is [null]. *)
Fixpoint getFieldSchemaParts (current : value) (parts : list string)
  : option value :=
  match parts with
  | [] => None
  | part :: rest =>
      let properties := getMember current "properties" in
      let next := getMember properties (partKey part) in
      if negb (truthy properties) || negb (truthy next) then None
      else match rest with
           | [] => Some next
           | _ :: _ =>
               if partIsArray part
               then getFieldSchemaParts (nullish (getMember next "items") (VObj [])) rest
               else getFieldSchemaParts next rest
           end
  end.

Definition getFieldSchema (rootSchema : value) (p : string) : option value :=
  getFieldSchemaParts rootSchema (normalizePath p).

(** The node [getFieldSchema] returns is mutated in place by [applySemantic];
    [putFieldSchema] writes the mutated node back at the position
    [getFieldSchemaParts] found it. *)
Fixpoint putFieldSchema (current : value) (parts : list string)
  (field : value) : value :=
  match parts, current with
  | part :: rest, VObj node =>
      match getProp node "properties" with
      | Some (VObj properties) =>
          let key := partKey part in
          let store child :=
            VObj (setProp node "properties" (VObj (setProp properties key child))) in
          match rest, getProp properties key with
          | [], Some _ => store field
          | _ :: _, Some (VObj next) =>
              if partIsArray part then
                match getProp next "items" with
                | Some items =>
                    store (VObj (setProp next "items" (putFieldSchema items rest field)))
                | None => current
                end
              else store (putFieldSchema (VObj next) rest field)
          | _, _ => current
          end
      | _ => current
      end
  | _, _ => current
  end.

Definition assign (target : value) (k : string) (v : value) : result value :=
  match target with
  | VObj o => Ok (VObj (setProp o k v))
  | VArr _ => Throw Unmodelled
  | _ => Throw TypeError
  end.

Definition applySemantic (target : value) (semantic : option InlineSemantic)
  : result value :=
  match semantic with
  | None => Ok target
  | Some sem =>
      let* t1 :=
        match description sem with
        | Some d => if nonEmpty d then assign target "description" (VStr d) else Ok target
        | None => Ok target
        end in
      let* t2 :=
        match instruction sem with
        | Some i => if nonEmpty i then assign t1 "x-instruction" (VStr i) else Ok t1
        | None => Ok t1
        end in
      match examples sem with
      | Some (e :: es) => assign t2 "examples" (VArr (map VStr (e :: es)))
      | _ => Ok t2
      end
  end.

(** The body of the loop over the segments of a text node. *)
Definition walkSegment (schema : value) (context : TraverseContext)
  (metaSemantics : MetaSemanticMap) (segment : TextSegment) : result value :=
  match segment with
  | Literal _ => Ok schema
  | Interpolation seg =>
      let resolvedPath := resolvePathWithAliases (path seg) (aliases context) in
      let* schema1 := applyInterpolationSchema schema resolvedPath seg in
      match getFieldSchema schema1 resolvedPath with
      | None => Ok schema1
      | Some fieldSchema =>
          let* f1 := applySemantic fieldSchema (getProp metaSemantics resolvedPath) in
          let* f2 := applySemantic f1 (inlineSemantic context) in
          Ok (putFieldSchema schema1 (normalizePath resolvedPath) f2)
      end
  end.

(** A [data-page] or [data-repeat] attribute in [walkNode]. *)
Definition walkIteration (expr : option string)
  (st : value * list (string * string))
  : result (value * list (string * string)) :=
  match expr with
  | None => Ok st
  | Some e =>
      let* parsed := parseIterationExpression e in
      let p := resolvePathWithAliases (fst parsed) (snd st) in
      let* schema1 := ensureArrayPath (fst st) p true in
      Ok (schema1, setProp (snd st) (snd parsed) (p ++ "[]"))
  end.

Fixpoint walkNode (node : DslNode) (schema : value) (context : TraverseContext)
  (metaSemantics : MetaSemanticMap) (examplesDelimiter : string)
  : result value :=
  match node with
  | TextNode segments =>
      fold_left
        (fun acc segment =>
           let* s := acc in walkSegment s context metaSemantics segment)
        segments (Ok schema)
  | ElementNode tagName attributes children =>
      if tagName =? "meta" then Ok schema
      else
        let inline :=
          buildInlineSemantic attributes (inlineSemantic context) examplesDelimiter in
        let* st1 :=
          walkIteration (attr attributes "data-page")
                        (schema, clonePathAliasMap (aliases context)) in
        let* st2 := walkIteration (attr attributes "data-repeat") st1 in
        let* schema3 :=
          match attr attributes "data-if" with
          | Some condition =>
              let conditionPath := resolvePathWithAliases condition (snd st2) in
              applyInterpolationSchema (fst st2) conditionPath
                (mkInterpolation conditionPath TBoolean false [] [])
          | None => Ok (fst st2)
          end in
        let nextContext := mkContext (snd st2) inline in
        (fix walkChildren (cs : list DslNode) (s : value) : result value :=
           match cs with
           | [] => Ok s
           | child :: cs' =>
               let* s' := walkNode child s nextContext metaSemantics examplesDelimiter in
               walkChildren cs' s'
           end) children schema3
  end.

Definition initialSchema : value :=
  VObj [("$schema", VStr "https://json-schema.org/draft/2020-12/schema");
        ("type", VStr "object");
        ("properties", VObj []);
        ("required", VArr [])].

(** The schema [walkNode] leaves behind, before the final sort. *)
Definition rawSchema (root : DslNode) (examplesDelimiterOption : option string)
  : result value :=
  let globalConfig := collectGlobalConfig root in
  let examplesDelimiter :=
    match examplesDelimiterOption with
    | Some d => d
    | None => examplesDelimiter globalConfig
    end in
  let metaSemantics := collectMetaSemantics root examplesDelimiter in
  walkNode root initialSchema (mkContext [] None) metaSemantics examplesDelimiter.

Section WithRuntime.
Context {rt : JsRuntime}.

(** [extractSchemaFromAst(root, options)]; the second argument is
    [options.examplesDelimiter]. *)
Definition extractSchemaFromAst (root : DslNode)
  (examplesDelimiterOption : option string) : result value :=
  let* schema := rawSchema root examplesDelimiterOption in
  Ok (stableSortObject schema).

End WithRuntime.

End SchemaExtractor.

(** ** expression-parser.ts: the filter table

    The parser accepts a filter only if [FILTER_SPECS] lists its name for the
    declared type and the number of arguments lies within the listed
    bounds. *)

Module ExpressionParser.

Definition stringFilters : list (string * (nat * nat)) :=
  [("upper", (0, 0)); ("lower", (0, 0)); ("replace", (2, 2));
   ("pad-left", (1, 2)); ("slice", (2, 2)); ("default", (1, 1));
   ("zenkaku", (0, 0)); ("hankaku", (0, 0))]%nat.

Definition numericFilters : list (string * (nat * nat)) :=
  [("comma", (0, 0)); ("fixed", (1, 1)); ("pad-left", (1, 2));
   ("either", (2, 2)); ("default", (1, 1))]%nat.

Definition booleanFilters : list (string * (nat * nat)) :=
  [("either", (2, 2)); ("default", (1, 1))]%nat.

Definition dateFilters : list (string * (nat * nat)) :=
  [("date-format", (1, 1)); ("default", (1, 1))]%nat.

Definition FILTER_SPECS (t : DataType) : list (string * (nat * nat)) :=
  match t with
  | TString => stringFilters
  | TInteger | TNumber => numericFilters
  | TBoolean => booleanFilters
  | TDate | TTime | TDatetime => dateFilters
  end.

(** The two checks of [parseFilter]. *)
Definition filterAccepted (t : DataType) (f : Filter) : bool :=
  match getProp (FILTER_SPECS t) (name f) with
  | Some (lo, hi) =>
      ((lo <=? List.length (args f)) && (List.length (args f) <=? hi))%nat
  | None => false
  end.

(** A segment as [parseInterpolation] produces it, as far as its filters are
    concerned. *)
Definition parsedSegment (seg : InterpolationSegment) : bool :=
  forallb (filterAccepted (dataType seg)) (filters seg).

End ExpressionParser.

(** ** filters.ts *)

Module Filters.

Record FilterContext : Type := mkFilterContext {
  dataType : option DataType;
  timezone : option string
}.

(** [args[i] ?? d] *)
Definition argOr (args : list string) (i : nat) (d : string) : string :=
  nth i args d.

(** The first [n] characters if they are all digits, with the rest. *)
Fixpoint takeDigits (n : nat) (s : string) : option (string * string) :=
  match n with
  | O => Some (EmptyString, s)
  | S n' =>
      match s with
      | String c rest =>
          if isDigit c then
            match takeDigits n' rest with
            | Some (d, r) => Some (String c d, r)
            | None => None
            end
          else None
      | EmptyString => None
      end
  end.

Definition expect (c : ascii) (s : string) : option string :=
  match s with
  | String d rest => if (d =? c)%char then Some rest else None
  | EmptyString => None
  end.

(** The match of the date pattern: four digits, a dash, two digits, a dash,
    two digits, at the start of the string. *)
Definition matchDate (source : string) : option (string * string * string) :=
  match takeDigits 4 source with
  | Some (y, r1) =>
      match expect "-" r1 with
      | Some r2 =>
          match takeDigits 2 r2 with
          | Some (m, r3) =>
              match expect "-" r3 with
              | Some r4 =>
                  match takeDigits 2 r4 with
                  | Some (d, _) => Some (y, m, d)
                  | None => None
                  end
              | None => None
              end
          | None => None
          end
      | None => None
      end
  | None => None
  end.

(** The match of the time pattern: two digits, a colon, two digits, and
    optionally a colon and two more digits. *)
Definition matchTime (source : string)
  : option (string * string * option string) :=
  match takeDigits 2 source with
  | Some (h, r1) =>
      match expect ":" r1 with
      | Some r2 =>
          match takeDigits 2 r2 with
          | Some (m, r3) =>
              match expect ":" r3 with
              | Some r4 =>
                  match takeDigits 2 r4 with
                  | Some (sec, _) => Some (h, m, Some sec)
                  | None => Some (h, m, None)
                  end
              | None => Some (h, m, None)
              end
          | None => None
          end
      | None => None
      end
  | None => None
  end.

(** [format.replace(TOKEN_RE, ...)]: the alternatives are tried in the order
    of the pattern at every position, [skip] drops the rest of a match. *)
Fixpoint applyDateTokensAux (tokens : DateParts) (skip : nat) (format : string)
  : string :=
  match format with
  | EmptyString => EmptyString
  | String c rest =>
      match skip with
      | S k => applyDateTokensAux tokens k rest
      | O =>
          if prefix "YYYY" format then YYYY tokens ++ applyDateTokensAux tokens 3 rest
          else if prefix "MM" format then MM tokens ++ applyDateTokensAux tokens 1 rest
          else if prefix "DD" format then DD tokens ++ applyDateTokensAux tokens 1 rest
          else if prefix "HH" format then HH tokens ++ applyDateTokensAux tokens 1 rest
          else if prefix "mm" format then mm tokens ++ applyDateTokensAux tokens 1 rest
          else if prefix "ss" format then ss tokens ++ applyDateTokensAux tokens 1 rest
          else String c (applyDateTokensAux tokens O rest)
      end
  end.

Definition applyDateTokens (format : string) (tokens : DateParts) : string :=
  applyDateTokensAux tokens 0 format.

(** The test of [hasOffset] on the reversed string: it ends in [Z] (either
    case) or in a sign, two digits, an optional colon and two digits. *)
Definition offsetTail (reversed : list ascii) : bool :=
  match reversed with
  | d :: c :: x :: rest =>
      isDigit d && isDigit c
      && match (if (x =? ":")%char then rest else x :: rest) with
         | b :: a :: sign :: _ =>
             isDigit b && isDigit a && ((sign =? "+") || (sign =? "-"))%char
         | _ => false
         end
  | _ => false
  end.

Definition hasOffset (v : string) : bool :=
  match rev (list_ascii_of_string v) with
  | c :: rest =>
      ((c =? "Z") || (c =? "z"))%char || offsetTail (c :: rest)
  | [] => false
  end.

Section WithRuntime.
Context {rt : JsRuntime}.

(** [String(value ?? "")] *)
Definition stringOf (v : value) : string :=
  jsToString (nullish v (VStr EmptyString)).

(** [Number(value ?? 0)] *)
Definition numberOf (v : value) : jsnum := toNumber (nullish v (VNum (numZ 0))).

(** [numeric.toFixed(digits)]: a RangeError unless the digits, converted to
    an integer, lie between 0 and 100. *)
Definition toFixed (numeric digits : jsnum) : result string :=
  match toIntegerOrInfinity digits with
  | Some f =>
      if ((f <? 0) || (100 <? f))%Z then Throw RangeError
      else Ok (toFixedDigits numeric f)
  | None => Throw RangeError
  end.

Definition formatDateValue (v : value) (dataType : option DataType)
  (format timezone : string) : result string :=
  if isNullish v then Ok EmptyString
  else
    let source := jsToString v in
    match dataType with
    | Some TDate =>
        match matchDate source with
        | None => Ok source
        | Some (y, m, d) =>
            Ok (applyDateTokens format (mkDateParts y m d "00" "00" "00"))
        end
    | Some TTime =>
        match matchTime source with
        | None => Ok source
        | Some (h, m, sec) =>
            Ok (applyDateTokens format
                  (mkDateParts "0000" "00" "00" h m
                     (match sec with Some x => x | None => "00" end)))
        end
    | _ =>
        let normalized := if hasOffset source then source else source ++ "Z" in
        let* parts := zonedParts normalized timezone in
        match parts with
        | None => Ok source
        | Some tokens => Ok (applyDateTokens format tokens)
        end
    end.

Definition applySingleFilter (v : value) (filter : Filter)
  (context : FilterContext) : result value :=
  let a := args filter in
  let n := name filter in
  if n =? "default" then
    Ok (if isNullish v then VStr (argOr a 0 EmptyString) else v)
  else if n =? "upper" then Ok (VStr (toUpperCase (stringOf v)))
  else if n =? "lower" then Ok (VStr (toLowerCase (stringOf v)))
  else if n =? "replace" then
    Ok (VStr (replaceAll (stringOf v) (argOr a 0 EmptyString) (argOr a 1 EmptyString)))
  else if n =? "pad-left" then
    Ok (VStr (padStart (stringOf v) (stringToNumber (argOr a 0 "0")) (argOr a 1 "0")))
  else if n =? "slice" then
    Ok (VStr (slice (stringOf v) (stringToNumber (argOr a 0 "0"))
                    (stringToNumber (argOr a 1 "0"))))
  else if n =? "zenkaku" then Ok (VStr (toZenkaku (stringOf v)))
  else if n =? "hankaku" then Ok (VStr (toHankaku (stringOf v)))
  else if n =? "comma" then
    let numeric := numberOf v in
    Ok (VStr (if isFinite numeric then formatNumber numeric else stringOf v))
  else if n =? "fixed" then
    let digits := stringToNumber (argOr a 0 "0") in
    let numeric := numberOf v in
    if isFinite numeric then
      let* r := toFixed numeric digits in Ok (VStr r)
    else Ok (VStr (stringOf v))
  else if n =? "either" then
    Ok (VStr (if truthy v then argOr a 0 EmptyString else argOr a 1 EmptyString))
  else if n =? "date-format" then
    let* r := formatDateValue v (dataType context) (argOr a 0 "YYYY-MM-DD")
                (match timezone context with Some tz => tz | None => "UTC" end) in
    Ok (VStr r)
  else Throw (JsError ("Unknown filter: " ++ n)).

(** [filters.reduce(...)] *)
Definition applyFilters (v : value) (filters : list Filter)
  (context : FilterContext) : result value :=
  fold_left
    (fun current filter =>
       let* c := current in applySingleFilter c filter context)
    filters (Ok v).

End WithRuntime.

End Filters.

(** ** renderer.ts *)

Module Renderer.

Definition CONTROL_ATTRIBUTES : list string :=
  ["data-page"; "data-repeat"; "data-if"; "data-break-before";
   "data-break-after"; "data-fixed-rows"; "data-max-rows"; "data-format";
   "data-semantic-description"; "data-semantic-instruction";
   "data-semantic-examples"].

Record RenderContext : Type := mkRenderContext {
  data : list (string * value);
  aliases : list (string * value);
  timezone : string
}.

(** [{ ...context, aliases }] *)
Definition withAliases (context : RenderContext)
  (aliases' : list (string * value)) : RenderContext :=
  mkRenderContext (data context) aliases' (timezone context).

Definition buildRenderedAttributes (attributes : list (string * string))
  : string :=
  let part (prefix_ : string) (a : option string) : list string :=
    match a with Some v => [prefix_ ++ v] | None => [] end in
  let styleParts :=
    (part EmptyString (attr attributes "style")
     ++ part "page-break-before:" (attr attributes "data-break-before")
     ++ part "page-break-after:" (attr attributes "data-break-after"))%list in
  let q := String dquote EmptyString in
  let plain : list string :=
    map (fun kv => fst kv ++ "=" ++ q ++ escapeHtml (snd kv) ++ q)
        (filter (fun kv => negb (existsb (String.eqb (fst kv)) CONTROL_ATTRIBUTES
                                 || (fst kv =? "style")))
                attributes) in
  let styled : list string :=
    match styleParts with
    | [] => []
    | _ => ["style=" ++ q ++ escapeHtml (join "; " styleParts) ++ q]
    end in
  let entries := (plain ++ styled)%list in
  match entries with
  | [] => EmptyString
  | _ => " " ++ join " " entries
  end.

(** The maximum and the fixed number of rows of [renderIteratedElement]. *)
Definition maxCount (attributes : list (string * string)) : jsnum :=
  match attr attributes "data-max-rows" with
  | Some maxRowsAttr => parseInt maxRowsAttr
  | None => NInf false
  end.

Definition fixedCount (attributes : list (string * string)) : jsnum :=
  match attr attributes "data-fixed-rows" with
  | Some fixedRowsAttr => parseInt fixedRowsAttr
  | None => numZ 0
  end.

Definition effectiveLength (attributes : list (string * string))
  (items : list value) : jsnum :=
  mathMin (numNat (List.length items)) (maxCount attributes).

Definition totalRows (attributes : list (string * string))
  (items : list value) : jsnum :=
  mathMax (effectiveLength attributes items) (fixedCount attributes).

(** The alias map built by one iteration of the loop of
    [renderIteratedElement]. *)
Definition iterationAliases (aliases : list (string * value)) (alias : string)
  (items : list value) (effectiveLength totalRows : jsnum) (index : nat)
  : list (string * value) :=
  let a0 := cloneAliasMap aliases in
  let a1 :=
    setProp a0 alias
      (if numLtb (numNat index) effectiveLength
       then nth index items VUndefined
       else VObj []) in
  let a2 := setProp a1 "$index" (VNum (numNat index)) in
  setProp a2 "$page"
    (VObj [("index", VNum (numNat index));
           ("number", VNum (numNat (index + 1)));
           ("count", VNum totalRows)]).

(** The contexts [renderIteratedElement] passes to [renderElementOnce], one
    for each iteration of its loop, in order. *)
Definition iterationContexts (attributes : list (string * string))
  (alias : string) (items : list value) (context : RenderContext)
  : list RenderContext :=
  map (fun index =>
         withAliases context
           (iterationAliases (aliases context) alias items
              (effectiveLength attributes items) (totalRows attributes items) index))
      (seq 0 (loopCount (totalRows attributes items))).

Section WithRuntime.
Context {rt : JsRuntime}.

(** The callback of [node.segments.map] in [renderNode]. *)
Definition renderSegment (context : RenderContext) (segment : TextSegment)
  : result string :=
  match segment with
  | Literal text => Ok (escapeHtml text)
  | Interpolation seg =>
      let resolved := getByPath (data context) (aliases context) (path seg) in
      let* filtered :=
        Filters.applyFilters resolved (filters seg)
          (Filters.mkFilterContext (Some (Types.dataType seg))
                                   (Some (timezone context))) in
      Ok (if isNullish filtered then EmptyString
          else escapeHtml (jsToString filtered))
  end.

(** [renderElementOnce]; [renderChildren context] stands for
    [node.children.map((child) => renderNode(child, context)).join("")]. *)
Definition renderElementOnce (tagName : string)
  (attributes : list (string * string))
  (renderChildren : RenderContext -> result string)
  (context : RenderContext) : result string :=
  let skip :=
    match attr attributes "data-if" with
    | Some conditionPath =>
        negb (truthy (getByPath (data context) (aliases context) conditionPath))
    | None => false
    end in
  if skip then Ok EmptyString
  else if tagName =? "meta" then Ok EmptyString
  else
    let open := "<" ++ tagName ++ buildRenderedAttributes attributes ++ ">" in
    if isVoidTag tagName then Ok open
    else
      let* body := renderChildren context in
      Ok (open ++ body ++ "</" ++ tagName ++ ">").

Definition renderIteratedElement (tagName : string)
  (attributes : list (string * string))
  (renderChildren : RenderContext -> result string)
  (expression : string) (context : RenderContext) : result string :=
  let* parsed := parseIterationExpression expression in
  match getByPath (data context) (aliases context) (fst parsed) with
  | VArr items =>
      let* rendered :=
        mapM (renderElementOnce tagName attributes renderChildren)
             (iterationContexts attributes (snd parsed) items context) in
      Ok (join EmptyString rendered)
  | _ => Ok EmptyString
  end.

Definition renderElement (tagName : string)
  (attributes : list (string * string))
  (renderChildren : RenderContext -> result string)
  (context : RenderContext) : result string :=
  match attr attributes "data-page" with
  | Some pageExpr =>
      renderIteratedElement tagName attributes renderChildren pageExpr context
  | None =>
      match attr attributes "data-repeat" with
      | Some repeatExpr =>
          renderIteratedElement tagName attributes renderChildren repeatExpr context
      | None => renderElementOnce tagName attributes renderChildren context
      end
  end.

Fixpoint renderNode (node : DslNode) (context : RenderContext) : result string :=
  match node with
  | TextNode segments =>
      let* parts := mapM (renderSegment context) segments in
      Ok (join EmptyString parts)
  | ElementNode tagName attributes children =>
      renderElement tagName attributes
        (fun context' =>
           let* parts := mapM (fun child => renderNode child context') children in
           Ok (join EmptyString parts))
        context
  end.

(** [renderAst(root, data, options)]; the third argument is
    [options.timezone]. *)
Definition renderAst (root : DslNode) (data : list (string * value))
  (timezoneOption : option string) : result string :=
  let globalConfig := collectGlobalConfig root in
  renderNode root
    (mkRenderContext data []
       (match timezoneOption with
        | Some tz => tz
        | None => DslUtils.timezone globalConfig
        end)).

End WithRuntime.

End Renderer.

(** ** A runtime for closed examples

    It agrees with JavaScript on what the examples below use: ASCII strings,
    integers, and the code unit order in place of the locale's collation.
    It has no fullwidth forms and no calendar. *)

Module ExampleRuntime.

Definition intToString (z : Z) : string :=
  match z with
  | Zneg p => "-" ++ natToString (Pos.to_nat p)
  | _ => natToString (Z.to_nat z)
  end.

Definition showNumber (n : jsnum) : string :=
  match n with
  | NFin q =>
      match Qden q with
      | xH => intToString (Qnum q)
      | d => intToString (Qnum q) ++ "/" ++ natToString (Pos.to_nat d)
      end
  | NNegZero => "0"
  | NNaN => "NaN"
  | NInf true => "-Infinity"
  | NInf false => "Infinity"
  end.

Definition readNumber (s : string) : jsnum :=
  let t := trim s in
  let '(neg, body) :=
    match t with
    | String "-" r => (true, r)
    | String "+" r => (false, r)
    | _ => (false, t)
    end in
  match t with
  | EmptyString => numZ 0
  | _ =>
      if forallb isDigit (list_ascii_of_string body) then
        match digitsPrefix body None with
        | Some z => if neg then (if (z =? 0)%Z then NNegZero else numZ (- z)) else numZ z
        | None => NNaN
        end
      else NNaN
  end.

Definition mapAscii (f : ascii -> ascii) (s : string) : string :=
  string_of_list_ascii (map f (list_ascii_of_string s)).

Definition upperChar (c : ascii) : ascii :=
  let n := nat_of_ascii c in
  if ((97 <=? n) && (n <=? 122))%nat then ascii_of_nat (n - 32) else c.

Definition lowerChar (c : ascii) : ascii :=
  let n := nat_of_ascii c in
  if ((65 <=? n) && (n <=? 90))%nat then ascii_of_nat (n + 32) else c.

Fixpoint repeatTo (fuel : nat) (fill : string) (acc : string) (n : nat) : string :=
  match fuel with
  | O => substring 0 n acc
  | S fuel' =>
      if (n <=? String.length acc)%nat then substring 0 n acc
      else repeatTo fuel' fill (acc ++ fill) n
  end.

Definition padStartAscii (s : string) (width : jsnum) (fill : string) : string :=
  match toIntegerOrInfinity width with
  | Some w =>
      let missing := (Z.to_nat w - String.length s)%nat in
      match fill with
      | EmptyString => s
      | _ => repeatTo missing fill EmptyString missing ++ s
      end
  | None => s
  end.

Definition sliceIndex (len : nat) (i : jsnum) : nat :=
  match toIntegerOrInfinity i with
  | Some z =>
      if (z <? 0)%Z then Z.to_nat (Z.max 0 (Z.of_nat len + z))
      else Nat.min (Z.to_nat z) len
  | None => match i with NInf true => O | _ => len end
  end.

Definition sliceAscii (s : string) (from to : jsnum) : string :=
  let a := sliceIndex (String.length s) from in
  let b := sliceIndex (String.length s) to in
  substring a (b - a) s.

Fixpoint groupDigits (rev_digits : list ascii) (n : nat) : list ascii :=
  match rev_digits with
  | [] => []
  | c :: rest =>
      match n, rest with
      | 2%nat, _ :: _ => c :: ","%char :: groupDigits rest 0
      | _, _ => c :: groupDigits rest (S n)
      end
  end.

Definition formatGrouped (n : jsnum) : string :=
  match n with
  | NFin q =>
      let digits := natToString (Z.to_nat (Z.abs (Qnum q))) in
      (if (Qnum q <? 0)%Z then "-" else EmptyString)
      ++ string_of_list_ascii (rev (groupDigits (rev (list_ascii_of_string digits)) 0))
  | _ => "0"
  end.

Definition fixedDigits (n : jsnum) (digits : Z) : string :=
  let whole := match n with NFin q => intToString (Qnum q) | _ => "0" end in
  match Z.to_nat digits with
  | O => whole
  | d => whole ++ "." ++ string_of_list_ascii (repeat "0"%char d)
  end.

Definition exampleRuntime : JsRuntime := {|
  localeCompare := String.compare;
  numberToString := showNumber;
  stringToNumber := readNumber;
  toUpperCase := mapAscii upperChar;
  toLowerCase := mapAscii lowerChar;
  replaceAll := fun s from to => join to (split from s);
  padStart := padStartAscii;
  slice := sliceAscii;
  toZenkaku := fun s => s;
  toHankaku := fun s => s;
  formatNumber := formatGrouped;
  toFixedDigits := fixedDigits;
  zonedParts := fun _ _ => Ok None
|}.

End ExampleRuntime.

(** ** Vocabulary of the properties *)

Import SchemaExtractor.

Definition keys {A} (o : list (string * A)) : list string := map fst o.

(** [delete o[k]] *)
Definition removeProp {A} (o : list (string * A)) (k : string)
  : list (string * A) :=
  filter (fun kv => negb (fst kv =? k)) o.

(** The parts of a schema node. *)
Definition propertiesOf (s : value) : value := getMember s "properties".

Definition itemsOf (s : value) : value := getMember s "items".

Definition typeOf (s : value) : value := getMember s "type".

(** [s.properties[k]] *)
Definition propertyOf (s : value) (k : string) : value :=
  getMember (propertiesOf s) k.

(** [k] is listed in [s.required]. *)
Definition requires (s : value) (k : string) : bool :=
  match getMember s "required" with
  | VArr required => SchemaExtractor.includesKey required k
  | _ => false
  end.

(** A property schema that has been walked through on the way to a deeper
    path: it has properties of its own, or an item schema. *)
Definition isIntermediate (c : value) : bool :=
  match c with
  | VObj o => hasOwn o "properties" || hasOwn o "items"
  | _ => false
  end.

(** The shape of the schema under construction: nodes are objects with
    pairwise distinct keys, [properties] maps names to nodes, [items] is a
    node, and a property that is an intermediate node is listed in
    [required]. *)
Inductive SchemaNode : value -> Prop :=
| SchemaNode_intro (o : list (string * value)) :
    NoDup (keys o) ->
    (forall p, getProp o "properties" = Some p ->
       exists po, p = VObj po /\ NoDup (keys po) /\
         forall k c, getProp po k = Some c ->
           SchemaNode c /\ (isIntermediate c = true -> requires (VObj o) k = true)) ->
    (forall it, getProp o "items" = Some it -> SchemaNode it) ->
    SchemaNode (VObj o).

(** [SchemaAt s n]: the node [n] is [s] or lies below [s], through
    [properties] and [items]. *)
Inductive SchemaAt (s : value) : value -> Prop :=
| SchemaAt_root : SchemaAt s s
| SchemaAt_property n k c :
    SchemaAt s n -> propertyOf n k = c -> c <> VUndefined -> SchemaAt s c
| SchemaAt_items n it :
    SchemaAt s n -> itemsOf n = it -> it <> VUndefined -> SchemaAt s it.

(** A comparator is consistent when it orders the strings totally, up to
    ties; [localeCompare] is required to be. *)
Class ConsistentCompare (rt : JsRuntime) : Prop := {
  localeCompare_antisym :
    forall a b, localeCompare b a = CompOpp (localeCompare a b);
  localeCompare_trans :
    forall a b c, localeCompare a b <> Gt -> localeCompare b c <> Gt ->
                  localeCompare a c <> Gt
}.

Section Canonical.
Context {rt : JsRuntime}.

(** What [stableSortObject] does to the value of the entry [k]. *)
Definition sortValue (k : string) (x : value) : value :=
  match x with
  | VArr nested =>
      if k =? "required" then VArr (stableSort defaultLe nested)
      else stableSortObject x
  | _ => stableSortObject x
  end.

(** [a] is not after [b] in the locale's collation. *)
Definition localeLe (a b : string) : Prop := localeCompare a b <> Gt.


(** The order of the keys of a sorted object: array index keys first, by
    their numeric value, then the other keys as [localeCompare] orders
    them. *)
Definition keyOrder (a b : string) : Prop :=
  match isArrayIndex a, isArrayIndex b with
  | Some m, Some n => (m <= n)%N
  | Some _, None => True
  | None, Some _ => False
  | None, None => localeCompare a b <> Gt
  end.

(** The order of a sorted [required] list. *)
Definition requiredOrder (x y : value) : Prop := defaultLe x y = true.

(** The canonical deep-sorted form: the keys of every object are in
    [keyOrder], every array under a key [required] is in [requiredOrder], and
    so on below. *)
Fixpoint canonical (v : value) : Prop :=
  match v with
  | VArr l =>
      (fix all (l : list value) : Prop :=
         match l with
         | [] => True
         | x :: rest => canonical x /\ all rest
         end) l
  | VObj o =>
      Sorted keyOrder (keys o)
      /\ (fix all (o : list (string * value)) : Prop :=
            match o with
            | [] => True
            | (k, x) :: rest =>
                match x with
                | VArr nested =>
                    if k =? "required" then Sorted requiredOrder nested
                    else canonical x
                | _ => canonical x
                end /\ all rest
            end) o
  | _ => True
  end.

End Canonical.

(** A leaf schema that [ensurePathNode] may merge into a node: it brings no
    [properties] and no [required], and it brings [items] only for a
    required path. *)
Definition LeafOK (leaf : list (string * value)) (required : bool) : Prop :=
  (forall v, ~ In ("properties", v) leaf)
  /\ (forall v, ~ In ("required", v) leaf)
  /\ (forall v, In ("items", v) leaf -> SchemaNode v /\ required = true).

(** The keys of a leaf schema. *)
Definition leafKey (k : string) : Prop :=
  k <> "properties" /\ k <> "required" /\ k <> "items".

(** Every step of the traversal keeps the shape of the schema, and the only
    exception it can raise is the one of [parseIterationExpression]. *)
Definition KeepsSchema (r : result value) : Prop :=
  match r with
  | Ok s' => SchemaNode s'
  | Throw e => exists msg, e = JsError msg
  end.




(** ** Templates of the examples *)

Definition field (p : string) (t : DataType) (isNullable : bool) : TextSegment :=
  Interpolation (mkInterpolation p t isNullable [] []).

(** The template of the nested iteration scenario: a [section] with
    [data-page="contracts as contract"] around a [tr] with
    [data-repeat="contract.items as item"] around the text
    [{{ item.name:string }}]. *)
Definition nestedTemplate : DslNode :=
  ElementNode "html" []
    [ElementNode "body" []
       [ElementNode "section" [("data-page", "contracts as contract")]
          [ElementNode "tr" [("data-repeat", "contract.items as item")]
             [ElementNode "td" [] [TextNode [field "item.name" TString false]]]]]].

(** Two paragraphs, [{{ a:string }}] and then [{{ a:string? }}]. *)
Definition mixedNullability : DslNode :=
  ElementNode "html" []
    [ElementNode "p" [] [TextNode [field "a" TString false]];
     ElementNode "p" [] [TextNode [field "a" TString true]]].

(** A [section] with [data-page="contracts as contract"] around a paragraph
    with the text [{{ contract.customer:string }}], and two contracts. *)
Definition pagesTemplate : DslNode :=
  ElementNode "section" [("data-page", "contracts as contract")]
    [ElementNode "p" [] [TextNode [field "contract.customer" TString false]]].

Definition pagesData : list (string * value) :=
  [("contracts", VArr [VObj [("customer", VStr "One")];
                       VObj [("customer", VStr "Two")]])].

(** The segment of [{{ x:number | fixed:101 }}], and a paragraph holding
    it. *)
Definition fixedDigitsSegment : InterpolationSegment :=
  mkInterpolation "x" TNumber false [] [mkFilter "fixed" ["101"]].

Definition fixedDigitsTemplate : DslNode :=
  ElementNode "p" [] [TextNode [Interpolation fixedDigitsSegment]].

(** A row of a table with [data-repeat="items as item"], five fixed rows and
    at most three rows, and four items. *)
Definition rowAttributes : list (string * string) :=
  [("data-repeat", "items as item"); ("data-fixed-rows", "5");
   ("data-max-rows", "3")].

Definition rowItems : list value :=
  [VObj [("name", VStr "A")]; VObj [("name", VStr "B")];
   VObj [("name", VStr "C")]; VObj [("name", VStr "D")]].

Definition rowContext : Renderer.RenderContext :=
  Renderer.mkRenderContext [("items", VArr rowItems)] [] "UTC".

(** ** Vocabulary of the renderer's properties *)

(** The attribute [name] holds the safe integer [n], or is absent
    ([None]). *)
Definition rowLimit (attributes : list (string * string)) (name : string)
  (n : option Z) : Prop :=
  match n with
  | Some z =>
      exists a, attr attributes name = Some a /\ parseInt a = numZ z
                /\ (Z.abs z < 2 ^ 53)%Z
  | None => attr attributes name = None
  end.

(** The falsy values: [false], [0], [-0], [NaN], the empty string, [null]
    and [undefined]. *)
Definition Falsy (v : value) : Prop :=
  v = VBool false
  \/ (exists q, v = VNum (NFin q) /\ (q == 0)%Q)
  \/ v = VNum NNegZero
  \/ v = VNum NNaN
  \/ v = VStr EmptyString
  \/ v = VNull
  \/ v = VUndefined.

(** A parsed integer, or what [Math.min] and [Math.max] make of parsed
    integers and lengths. *)
Definition integral (n : jsnum) : Prop :=
  n = NNaN \/ n = NNegZero \/ exists z, n = numZ z.

(** The schema of [nestedTemplate] under the example runtime. *)
Definition nestedSchema : value :=
  match @extractSchemaFromAst ExampleRuntime.exampleRuntime nestedTemplate None with
  | Ok s => s
  | Throw _ => VUndefined
  end.

(** The number of nodes in a queue of [collectMetaSemantics]. *)
Definition queueCount (queue : list DslNode) : nat :=
  fold_right (fun n acc => (nodeCount n + acc)%nat) O queue.

(** Two tables over the same source: [data-repeat="xs as x"] around
    [{{ x.a:string }}], then [data-repeat="xs as y"] around nothing. *)
Definition repeatedSource : DslNode :=
  ElementNode "html" []
    [ElementNode "div" [("data-repeat", "xs as x")]
       [TextNode [field "x.a" TString false]];
     ElementNode "div" [("data-repeat", "xs as y")] []].

(** ** Vocabulary of the further properties *)

(** The characters of a string. *)
Definition chars (s : string) : list ascii := list_ascii_of_string s.

(** The characters that open or close markup or an attribute value. *)
Definition isMarkupChar (c : ascii) : bool :=
  ((c =? "<") || (c =? ">") || (c =? dquote))%char.

(** No character of [s] is a markup character. *)
Definition markupFree (s : string) : Prop :=
  forallb (fun c => negb (isMarkupChar c)) (chars s) = true.

(** An identifier: [[A-Za-z_$][A-Za-z0-9_$]*]. *)
Definition isIdentifier (s : string) : bool :=
  match s with
  | String c _ => isIdentStart c && forallb isIdentChar (chars s)
  | EmptyString => false
  end.



(** The [type] that [mapTypeToSchema] declares. *)
Definition declaredType (t : DataType) (isNullable : bool) : value :=
  let baseType :=
    match t with
    | TDate | TTime | TDatetime => "string"
    | _ => dataTypeName t
    end in
  if isNullable then VArr [VStr baseType; VStr "null"] else VStr baseType.







(** ** validator.ts *)

(** [new RegExp(pattern).test(s)]: the regular expressions of the runtime,
    with the exception it raises for a pattern that is not one. *)
Class JsRegExp : Type := {
  regExpTest : string -> string -> result bool
}.

Module Validator.

(** [typeof v] *)
Definition typeofValue (v : value) : string :=
  match v with
  | VUndefined => "undefined"
  | VNull | VArr _ | VObj _ => "object"
  | VBool _ => "boolean"
  | VNum _ => "number"
  | VStr _ => "string"
  end.

(** [Object.is(a, b)]; two objects are the same value only if they are the
    same object, which a schema and the data never share. *)
Definition objectIs (a b : value) : bool :=
  match a, b with
  | VUndefined, VUndefined | VNull, VNull => true
  | VBool x, VBool y => Bool.eqb x y
  | VStr x, VStr y => x =? y
  | VNum NNaN, VNum NNaN | VNum NNegZero, VNum NNegZero => true
  | VNum (NFin p), VNum (NFin q) => Qeq_bool p q
  | VNum (NInf x), VNum (NInf y) => Bool.eqb x y
  | _, _ => false
  end.

(** [Number.isInteger] *)
Definition isInteger (n : jsnum) : bool :=
  match n with
  | NFin q => (Z.rem (Qnum q) (Zpos (Qden q)) =? 0)%Z
  | NNegZero => true
  | NNaN | NInf _ => false
  end.

(** [a <= b] on numbers. *)
Definition numLeb (a b : jsnum) : bool :=
  negb (isNaN a || isNaN b) && negb (numLtb b a).

(** [a === 0] for a number. *)
Definition isZero (a : jsnum) : bool :=
  match a with
  | NFin q => Qeq_bool q 0
  | NNegZero => true
  | NNaN | NInf _ => false
  end.

(** [a % b]: the remainder of the truncating division, with the sign of
    [a]; exact on rationals, where the source computes in binary64. *)
Definition jsRem (a b : jsnum) : jsnum :=
  match a, b with
  | NNaN, _ | _, NNaN | NInf _, _ | _, NNegZero => NNaN
  | NFin p, NFin q =>
      if Qeq_bool q 0 then NNaN
      else
        let x := (p / q)%Q in
        let r := (p - q * inject_Z (Z.quot (Qnum x) (Zpos (Qden x))))%Q in
        if Qeq_bool r 0 then (if (Qnum p <? 0)%Z then NNegZero else NFin 0)
        else NFin r
  | NNegZero, NFin q => if Qeq_bool q 0 then NNaN else NNegZero
  | NFin p, NInf _ => NFin p
  | NNegZero, NInf _ => NNegZero
  end.

Definition failed (path reason : string) : exn :=
  JsError ("Validation failed at " ++ path ++ ": " ++ reason).

(** [schema.type === t || (Array.isArray(schema.type) && schema.type.includes(t))] *)
Definition hasType (type : value) (t : string) : bool :=
  match type with
  | VStr s => s =? t
  | VArr entries => SchemaExtractor.includesKey entries t
  | _ => false
  end.

Definition validateType (v : value) (type path : string) : result unit :=
  if type =? "object" then
    if isPlainObject v then Ok tt else Throw (failed path "expected object")
  else if type =? "array" then
    if isArray v then Ok tt else Throw (failed path "expected array")
  else if type =? "integer" then
    match v with
    | VNum n => if isInteger n then Ok tt else Throw (failed path "expected integer")
    | _ => Throw (failed path "expected integer")
    end
  else if type =? "number" then
    match v with
    | VNum n => if isNaN n then Throw (failed path "expected number") else Ok tt
    | _ => Throw (failed path "expected number")
    end
  else if type =? "null" then
    match v with
    | VNull => Ok tt
    | _ => Throw (failed path "expected null")
    end
  else if typeofValue v =? type then Ok tt
  else Throw (failed path ("expected " ++ type)).

(** The start of [validateValue]: [false] stands for its early return. *)
Definition validateDeclaredType (v type : value) (path : string) : result bool :=
  match type with
  | VArr entries =>
      let nullable := SchemaExtractor.includesKey entries "null" in
      let nonNullType :=
        find (fun entry => match entry with VStr s => negb (s =? "null") | _ => true end)
             entries in
      match v with
      | VNull =>
          if nullable then Ok false
          else match nonNullType with
               | Some (VStr t) => let* _ := validateType v t path in Ok true
               | _ => Ok true
               end
      | _ =>
          match nonNullType with
          | Some (VStr t) => let* _ := validateType v t path in Ok true
          | _ => Ok true
          end
      end
  | VStr t => let* _ := validateType v t path in Ok true
  | _ => Ok true
  end.

Definition validateEnum (v schema : value) (path : string) : result unit :=
  match getMember schema "enum" with
  | VArr entries =>
      if existsb (fun entry => objectIs entry v) entries then Ok tt
      else Throw (failed path "value is not in enum")
  | _ => Ok tt
  end.

Definition validateConst (v schema : value) (path : string) : result unit :=
  match schema with
  | VObj o =>
      match getProp o "const" with
      | Some c => if objectIs c v then Ok tt else Throw (failed path "value is not const")
      | None => Ok tt
      end
  | _ => Ok tt
  end.

(** The three patterns of [validateStringFormat]. *)
Definition optionalSeconds (s : string) : string :=
  match Filters.expect ":" s with
  | Some r => match Filters.takeDigits 2 r with Some (_, r') => r' | None => s end
  | None => s
  end.

Definition isDateFormat (s : string) : bool :=
  match Filters.matchDate s with
  | Some _ => (String.length s =? 10)%nat
  | None => false
  end.

Definition isTimeFormat (s : string) : bool :=
  match Filters.takeDigits 2 s with
  | Some (_, r1) =>
      match Filters.expect ":" r1 with
      | Some r2 =>
          match Filters.takeDigits 2 r2 with
          | Some (_, r3) => optionalSeconds r3 =? EmptyString
          | None => false
          end
      | None => false
      end
  | None => false
  end.

(** [(?:\.\d+)?] *)
Definition optionalFraction (s : string) : string :=
  match Filters.expect "." s with
  | Some r =>
      match span isDigit r with
      | (EmptyString, _) => s
      | (_, r') => r'
      end
  | None => s
  end.

(** [(?:Z|[+-]\d{2}:?\d{2})?$] *)
Definition isOptionalOffset (s : string) : bool :=
  match s with
  | EmptyString => true
  | String c r =>
      if (c =? "Z")%char then r =? EmptyString
      else if ((c =? "+") || (c =? "-"))%char then
        match Filters.takeDigits 2 r with
        | Some (_, r1) =>
            let r2 := match Filters.expect ":" r1 with Some r' => r' | None => r1 end in
            match Filters.takeDigits 2 r2 with
            | Some (_, r3) => r3 =? EmptyString
            | None => false
            end
        | None => false
        end
      else false
  end.

Definition isDateTimeFormat (s : string) : bool :=
  match Filters.matchDate s with
  | Some _ =>
      match Filters.expect "T" (sliceFrom 10 s) with
      | Some r0 =>
          match Filters.takeDigits 2 r0 with
          | Some (_, r1) =>
              match Filters.expect ":" r1 with
              | Some r2 =>
                  match Filters.takeDigits 2 r2 with
                  | Some (_, r3) =>
                      isOptionalOffset (optionalFraction (optionalSeconds r3))
                  | None => false
                  end
              | None => false
              end
          | None => false
          end
      | None => false
      end
  | None => false
  end.

Definition validateStringFormat (s format path : string) : result unit :=
  let ok :=
    if format =? "date" then isDateFormat s
    else if format =? "time" then isTimeFormat s
    else if format =? "date-time" then isDateTimeFormat s
    else true in
  if ok then Ok tt else Throw (failed path ("invalid format " ++ format)).

Definition validateNumberConstraints (v schema : value) (path : string)
  : result unit :=
  match v with
  | VNum n =>
      let check (k : string) (violated : jsnum -> bool) (reason : string)
        : result unit :=
        match getMember schema k with
        | VNum bound => if violated bound then Throw (failed path reason) else Ok tt
        | _ => Ok tt
        end in
      let* _ := check "minimum" (fun m => numLtb n m) "smaller than minimum" in
      let* _ := check "maximum" (fun m => numLtb m n) "larger than maximum" in
      let* _ := check "exclusiveMinimum" (fun m => numLeb n m)
                      "not greater than exclusiveMinimum" in
      let* _ := check "exclusiveMaximum" (fun m => numLeb m n)
                      "not less than exclusiveMaximum" in
      check "multipleOf" (fun m => negb (isZero (jsRem n m))) "not multipleOf"
  | _ => Ok tt
  end.

Section WithRuntime.
Context {rt : JsRuntime} {re : JsRegExp}.

Definition validateStringConstraints (v schema : value) (path : string)
  : result unit :=
  match v with
  | VStr s =>
      let len := numNat (String.length s) in
      let* _ :=
        match getMember schema "minLength" with
        | VNum m =>
            if numLtb len m then Throw (failed path "shorter than minLength") else Ok tt
        | _ => Ok tt
        end in
      let* _ :=
        match getMember schema "maxLength" with
        | VNum m =>
            if numLtb m len then Throw (failed path "longer than maxLength") else Ok tt
        | _ => Ok tt
        end in
      match getMember schema "pattern" with
      | VStr pattern =>
          let* matches := regExpTest pattern s in
          if matches then Ok tt else Throw (failed path "pattern mismatch")
      | _ => Ok tt
      end
  | _ => Ok tt
  end.

(** The loop of [validateObject] over [schema.required]. *)
Fixpoint validateRequired (props : list (string * value)) (required : list value)
  (path : string) : result unit :=
  match required with
  | [] => Ok tt
  | entry :: rest =>
      let key := jsToString entry in
      match getProp props key with
      | None | Some VUndefined =>
          Throw (failed (path ++ "." ++ key) "required property missing")
      | Some _ => validateRequired props rest path
      end
  end.

(** [validateObject]; [validateValue] is the function it is called from. *)
Definition validateObject
  (validateValue : value -> value -> string -> result unit)
  (v schema : value) (path : string) : result unit :=
  match v with
  | VObj props =>
      let required :=
        match getMember schema "required" with VArr r => r | _ => [] end in
      let properties :=
        match getMember schema "properties" with VObj p => p | _ => [] end in
      let* _ := validateRequired props required path in
      (fix each (ps : list (string * value)) : result unit :=
         match ps with
         | [] => Ok tt
         | (key, propSchema) :: ps' =>
             let* _ :=
               (fix lookup (o : list (string * value)) : result unit :=
                  match o with
                  | [] => Ok tt
                  | (k, x) :: o' =>
                      if k =? key
                      then validateValue x propSchema (path ++ "." ++ key)
                      else lookup o'
                  end) props in
             each ps'
         end) properties
  | _ => Ok tt
  end.

Definition validateArray
  (validateValue : value -> value -> string -> result unit)
  (v schema : value) (path : string) : result unit :=
  match v with
  | VArr items =>
      match getMember schema "items" with
      | VObj itemSchema =>
          (fix each (l : list value) (index : nat) : result unit :=
             match l with
             | [] => Ok tt
             | item :: l' =>
                 let* _ :=
                   validateValue item (VObj itemSchema)
                     (path ++ "[" ++ natToString index ++ "]") in
                 each l' (S index)
             end) items O
      | _ => Ok tt
      end
  | _ => Ok tt
  end.

Fixpoint validateValue (v schema : value) (path : string) {struct v}
  : result unit :=
  match schema with
  | VUndefined | VNull => Throw TypeError
  | _ =>
      let type := getMember schema "type" in
      let* proceed := validateDeclaredType v type path in
      if negb proceed then Ok tt
      else
        let* _ := validateEnum v schema path in
        let* _ := validateConst v schema path in
        let* _ :=
          if hasType type "string" then validateStringConstraints v schema path
          else Ok tt in
        let* _ :=
          if hasType type "number" || hasType type "integer"
          then validateNumberConstraints v schema path
          else Ok tt in
        let* _ :=
          match v with
          | VStr s =>
              if truthy (getMember schema "format")
              then validateStringFormat s (jsToString (getMember schema "format")) path
              else Ok tt
          | _ => Ok tt
          end in
        let* _ :=
          if hasType type "object" then validateObject validateValue v schema path
          else Ok tt in
        if hasType type "array" then validateArray validateValue v schema path
        else Ok tt
  end.

(** [validateData(data, schema)] *)
Definition validateData (data : list (string * value)) (schema : value)
  : result unit :=
  validateValue (VObj data) schema "$data".

End WithRuntime.

End Validator.

(** The property names a schema node mentions: the entries of [required]
    and the keys of [properties]. *)
Definition mentions {rt : JsRuntime} (schema : value) (key : string) : Prop :=
  (exists entry,
     match getMember schema "required" with
     | VArr required => In entry required
     | _ => False
     end /\ jsToString entry = key)
  \/ match getMember schema "properties" with
     | VObj properties => In key (keys properties)
     | _ => False
     end.

(** A runtime without regular expressions, for the examples that use no
    [pattern]. *)
Definition noRegExp : JsRegExp := {| regExpTest := fun _ _ => Throw Unmodelled |}.

(** The schema [{type: "object", properties: {a: {type: "string"}},
    required: ["a"]}]. *)
Definition personSchema : value :=
  VObj [("type", VStr "object");
        ("properties", VObj [("a", VObj [("type", VStr "string")])]);
        ("required", VArr [VStr "a"])].

(** The own property [k] of a node, if it is an object and has one. *)
Definition ownProp (v : value) (k : string) : option value :=
  match v with
  | VObj o => getProp o k
  | _ => None
  end.

(** A step of the traversal that leaves the own property [k] of the schema
    it is given as it was. *)
Definition Keeps (k : string) (schema : value) (r : result value) : Prop :=
  match r with
  | Ok s' => ownProp s' k = ownProp schema k
  | Throw _ => True
  end.

(** ** expression-parser.ts: the functions *)

(** [parseFloat(s)] *)
Class JsParseFloat : Type := {
  parseFloat : string -> jsnum
}.

Module ExpressionParsing.

Definition quote : string := String dquote EmptyString.

Definition isQuote (c : ascii) : bool := ((c =? dquote) || (c =? "'"))%char.

(** [s.indexOf(c)] for a character, as the text before the first occurrence
    and the text after it; [None] is [-1]. *)
Fixpoint splitAt (c : ascii) (s : string) : option (string * string) :=
  match s with
  | EmptyString => None
  | String d rest =>
      if (d =? c)%char then Some (EmptyString, rest)
      else match splitAt c rest with
           | Some (before, after) => Some (String d before, after)
           | None => None
           end
  end.

(** [unquote] *)
Definition unquote (s : string) : string :=
  match list_ascii_of_string s with
  | first :: c :: rest =>
      let final := last rest c in
      if ((first =? dquote) && (final =? dquote)
          || (first =? "'") && (final =? "'"))%char
      then string_of_list_ascii (removelast (c :: rest))
      else s
  | _ => s
  end.

(** The loop of [quoteAwareSplit]: [skip] counts the characters of a
    delimiter still to be passed over, [current] and [parts] are reversed.
    The source does not terminate for an empty delimiter. *)
Fixpoint quoteAwareSplitLoop (delimiter : string) (skip : nat)
  (inQuote : option ascii) (current : list ascii) (parts : list string)
  (s : string) : list string :=
  match s with
  | EmptyString =>
      match current, parts with
      | [], [] => []
      | _, _ => rev (string_of_list_ascii (rev current) :: parts)
      end
  | String ch rest =>
      match skip with
      | S k => quoteAwareSplitLoop delimiter k inQuote current parts rest
      | O =>
          match inQuote with
          | Some q =>
              quoteAwareSplitLoop delimiter 0
                (if (ch =? q)%char then None else inQuote) (ch :: current) parts rest
          | None =>
              if isQuote ch then
                quoteAwareSplitLoop delimiter 0 (Some ch) (ch :: current) parts rest
              else if prefix delimiter s then
                quoteAwareSplitLoop delimiter (String.length delimiter - 1) None []
                  (string_of_list_ascii (rev current) :: parts) rest
              else quoteAwareSplitLoop delimiter 0 None (ch :: current) parts rest
          end
      end
  end.

Definition quoteAwareSplit (s delimiter : string) : list string :=
  quoteAwareSplitLoop delimiter 0 None [] [] s.

Definition constraintNames : list string :=
  ["enum"; "min"; "max"; "exMin"; "exMax"; "step"; "pattern"; "fixed";
   "minLength"; "maxLength"].

(** The loop of [quoteAwareSplitConstraints]; [skipping] is the inner loop
    that passes over the spaces after a separating comma. *)
Fixpoint quoteAwareSplitConstraintsLoop (skipping : bool)
  (inQuote : option ascii) (current : list ascii) (entries : list string)
  (s : string) : list string :=
  match s with
  | EmptyString =>
      let cur := string_of_list_ascii (rev current) in
      if nonEmpty (trim cur) then rev (cur :: entries) else rev entries
  | String ch rest =>
      if skipping && (ch =? " ")%char then
        quoteAwareSplitConstraintsLoop true inQuote current entries rest
      else
        match inQuote with
        | Some q =>
            quoteAwareSplitConstraintsLoop false
              (if (ch =? q)%char then None else inQuote) (ch :: current) entries rest
        | None =>
            if isQuote ch then
              quoteAwareSplitConstraintsLoop false (Some ch) (ch :: current) entries rest
            else if (ch =? ",")%char
                    && existsb (fun name => startsWith (trimStart rest) (name ++ ":"))
                               constraintNames
            then
              quoteAwareSplitConstraintsLoop true None []
                (string_of_list_ascii (rev current) :: entries) rest
            else
              quoteAwareSplitConstraintsLoop false None (ch :: current) entries rest
        end
  end.

Definition quoteAwareSplitConstraints (s : string) : list string :=
  quoteAwareSplitConstraintsLoop false None [] [] s.

(** The loop of [findUnquotedChar] from the index [i] on; [None] is [-1]. *)
Fixpoint findUnquotedCharFrom (ch : ascii) (inQuote : option ascii) (i : nat)
  (s : string) : option nat :=
  match s with
  | EmptyString => None
  | String c rest =>
      match inQuote with
      | Some q =>
          findUnquotedCharFrom ch (if (c =? q)%char then None else inQuote) (S i) rest
      | None =>
          if isQuote c then findUnquotedCharFrom ch (Some c) (S i) rest
          else if (c =? ch)%char then Some i
          else findUnquotedCharFrom ch None (S i) rest
      end
  end.

Definition findUnquotedChar (s : string) (ch : ascii) : option nat :=
  findUnquotedCharFrom ch None 0 s.

(** The loop of [findMatchingParen] on the text from the index [i] on. *)
Fixpoint findMatchingParenFrom (depth : Z) (inQuote : option ascii) (i : nat)
  (s : string) : option nat :=
  match s with
  | EmptyString => None
  | String ch rest =>
      match inQuote with
      | Some q =>
          findMatchingParenFrom depth (if (ch =? q)%char then None else inQuote)
                                (S i) rest
      | None =>
          if isQuote ch then findMatchingParenFrom depth (Some ch) (S i) rest
          else if (ch =? "(")%char then
            findMatchingParenFrom (depth + 1) None (S i) rest
          else if (ch =? ")")%char then
            if (depth - 1 =? 0)%Z then Some i
            else findMatchingParenFrom (depth - 1) None (S i) rest
          else findMatchingParenFrom depth None (S i) rest
      end
  end.

Definition findMatchingParen (s : string) (openIdx : nat) : option nat :=
  findMatchingParenFrom 0 None openIdx (sliceFrom openIdx s).

(** [PATH_RE]: identifiers separated by single dots. *)
Definition isPath (s : string) : bool := forallb isIdentifier (splitChar "." s).

Definition parseType (typeStr : string) : option DataType :=
  if typeStr =? "string" then Some TString
  else if typeStr =? "integer" then Some TInteger
  else if typeStr =? "number" then Some TNumber
  else if typeStr =? "boolean" then Some TBoolean
  else if typeStr =? "date" then Some TDate
  else if typeStr =? "time" then Some TTime
  else if typeStr =? "datetime" then Some TDatetime
  else None.

Definition parsePathType (s : string) : result (string * DataType * bool) :=
  match splitAt ":" s with
  | None => Throw (JsError "Type is required. Use {{ path:type ... }}")
  | Some (before, after) =>
      let path := trim before in
      if negb (isPath path) then Throw (JsError ("Invalid path: " ++ path))
      else
        let typeStr := trim after in
        let '(nullable, typeStr) :=
          if endsWith typeStr "?" then (true, trim (dropEnd 1 typeStr))
          else (false, typeStr) in
        match parseType typeStr with
        | Some dataType => Ok (path, dataType, nullable)
        | None => Throw (JsError ("Invalid data type: " ++ typeStr))
        end
  end.

Definition notAllowed (kind name : string) (dataType : DataType) : exn :=
  JsError (kind ++ " " ++ quote ++ name ++ quote ++ " is not allowed for type "
           ++ quote ++ dataTypeName dataType ++ quote).

Section WithRuntime.
Context {rt : JsRuntime} {pf : JsParseFloat}.

Definition parseEnumValues (rawValue : string) (dataType : DataType) : list value :=
  map (fun part =>
         let unquoted := unquote (trim part) in
         match dataType with
         | TInteger => VNum (parseInt unquoted)
         | TNumber => VNum (parseFloat unquoted)
         | TBoolean => VBool (unquoted =? "true")
         | _ => VStr unquoted
         end)
      (quoteAwareSplit rawValue ",").

Definition parseFixedValue (rawValue : string) (dataType : DataType) : result value :=
  let unquoted := unquote rawValue in
  match dataType with
  | TInteger => Ok (VNum (parseInt unquoted))
  | TNumber => Ok (VNum (parseFloat unquoted))
  | TBoolean =>
      if negb (unquoted =? "true") && negb (unquoted =? "false")
      then Throw (JsError ("Invalid boolean literal: " ++ unquoted))
      else Ok (VBool (unquoted =? "true"))
  | _ => Ok (VStr unquoted)
  end.

Definition isNumeric (dataType : DataType) : bool :=
  match dataType with TInteger | TNumber => true | _ => false end.

Definition isDateLike (dataType : DataType) : bool :=
  match dataType with TDate | TTime | TDatetime => true | _ => false end.

Definition buildConstraint (name rawValue : string) (dataType : DataType)
  : result Constraint :=
  let refuse := Throw (notAllowed "Constraint" name dataType) in
  if name =? "enum" then
    match dataType with
    | TBoolean | TDate | TTime | TDatetime => refuse
    | _ => Ok (CEnum (parseEnumValues rawValue dataType))
    end
  else if name =? "min" then
    match dataType with
    | TString => Ok (CMinLength (stringToNumber rawValue))
    | TInteger | TNumber => Ok (CMin (stringToNumber rawValue))
    | _ => refuse
    end
  else if name =? "max" then
    match dataType with
    | TString => Ok (CMaxLength (stringToNumber rawValue))
    | TInteger | TNumber => Ok (CMax (stringToNumber rawValue))
    | _ => refuse
    end
  else if name =? "exMin" then
    if isNumeric dataType then Ok (CExMin (stringToNumber rawValue)) else refuse
  else if name =? "exMax" then
    if isNumeric dataType then Ok (CExMax (stringToNumber rawValue)) else refuse
  else if name =? "step" then
    if isNumeric dataType then Ok (CStep (stringToNumber rawValue)) else refuse
  else if name =? "pattern" then
    match dataType with
    | TString => Ok (CPattern (unquote rawValue))
    | _ => refuse
    end
  else if name =? "fixed" then
    if isDateLike dataType then refuse
    else let* v := parseFixedValue rawValue dataType in Ok (CFixed v)
  else Throw (JsError ("Unknown constraint: " ++ name)).

(** The loop of [parseConstraints] over the entries. *)
Fixpoint parseConstraintEntries (entries : list string) (dataType : DataType)
  : result (list Constraint) :=
  match entries with
  | [] => Ok []
  | entry :: rest =>
      let trimmed := trim entry in
      match (if nonEmpty trimmed then splitAt ":" trimmed else None) with
      | None => parseConstraintEntries rest dataType
      | Some (before, after) =>
          let* c := buildConstraint (trim before) (trim after) dataType in
          let* cs := parseConstraintEntries rest dataType in
          Ok (c :: cs)
      end
  end.

Definition parseConstraints (str : string) (dataType : DataType)
  : result (list Constraint) :=
  parseConstraintEntries (quoteAwareSplitConstraints str) dataType.

Definition arityText (lo hi : nat) : string :=
  if (lo =? hi)%nat then natToString lo else natToString lo ++ "-" ++ natToString hi.

Definition parseFilter (s : string) (dataType : DataType) : result Filter :=
  let '(name, argsStr) :=
    match splitAt ":" s with
    | None => (trim s, EmptyString)
    | Some (before, after) => (trim before, trim after)
    end in
  let args :=
    if argsStr =? EmptyString then []
    else map (fun a => unquote (trim a)) (quoteAwareSplit argsStr ",") in
  match getProp (ExpressionParser.FILTER_SPECS dataType) name with
  | None => Throw (notAllowed "Filter" name dataType)
  | Some (lo, hi) =>
      if ((List.length args <? lo) || (hi <? List.length args))%nat then
        Throw (JsError ("Filter " ++ quote ++ name ++ quote ++ " for type " ++ quote
                        ++ dataTypeName dataType ++ quote ++ " expects "
                        ++ arityText lo hi ++ " args, got "
                        ++ natToString (List.length args)))
      else
        match splitAt ":" s with
        | None => Ok (mkFilter name [])
        | Some _ => Ok (mkFilter name args)
        end
  end.

Definition parseInterpolation (inner : string) : result InterpolationSegment :=
  match quoteAwareSplit inner "|" with
  | [] => Throw TypeError
  | first :: filterParts =>
      let mainPart := trim first in
      let parenOpen := findUnquotedChar mainPart "(" in
      let parenClose := findUnquotedChar mainPart ")" in
      let* split :=
        match parenOpen with
        | Some openIdx =>
            match findMatchingParen mainPart openIdx with
            | None => Throw (JsError "Unclosed constraint parentheses")
            | Some closeIdx =>
                if nonEmpty (trim (sliceFrom (S closeIdx) mainPart))
                then Throw (JsError "Unmatched constraint parentheses")
                else Ok (trim (substring 0 openIdx mainPart),
                         Some (trim (substring (S openIdx) (closeIdx - S openIdx)
                                               mainPart)))
            end
        | None =>
            match parenClose with
            | Some _ => Throw (JsError "Unmatched constraint parentheses")
            | None => Ok (mainPart, None)
            end
        end in
      let '(pathTypePart, constraintsStr) := split in
      let* parsed := parsePathType pathTypePart in
      let '(path, dataType, nullable) := parsed in
      let* constraints :=
        match constraintsStr with
        | Some str => if nonEmpty str then parseConstraints str dataType else Ok []
        | None => Ok []
        end in
      let* filters := mapM (fun f => parseFilter (trim f) dataType) filterParts in
      Ok (mkInterpolation path dataType nullable constraints filters)
  end.

Definition isLineTerminator (c : ascii) : bool :=
  let n := nat_of_ascii c in ((n =? 10) || (n =? 13))%nat.

(** The match of [INTERPOLATION_RE] on a text that starts with two opening
    braces, given the text after them: the shortest run of characters other
    than line terminators that two closing braces follow. *)
Fixpoint findClose (s : string) : option string :=
  match s with
  | EmptyString => None
  | String c rest =>
      if prefix "}}" s then Some EmptyString
      else if isLineTerminator c then None
      else option_map (String c) (findClose rest)
  end.

(** The loop of [parseTextSegments]: [skip] counts the characters of a match
    still to be passed over, [pending] is the text since the last match,
    reversed. *)
Fixpoint parseTextSegmentsLoop (skip : nat) (pending : list ascii) (s : string)
  : result (list TextSegment) :=
  let flush (segments : list TextSegment) : list TextSegment :=
    match pending with
    | [] => segments
    | _ => Literal (string_of_list_ascii (rev pending)) :: segments
    end in
  match s with
  | EmptyString => Ok (flush [])
  | String c rest =>
      match skip with
      | S k => parseTextSegmentsLoop k pending rest
      | O =>
          match (if prefix "{{" s then findClose (sliceFrom 2 s) else None) with
          | Some content =>
              let* segment := parseInterpolation (trim content) in
              let* segments :=
                parseTextSegmentsLoop (String.length content + 3) [] rest in
              Ok (flush (Interpolation segment :: segments))
          | None => parseTextSegmentsLoop 0 (c :: pending) rest
          end
      end
  end.

Definition parseTextSegments (text : string) : result (list TextSegment) :=
  parseTextSegmentsLoop 0 [] text.

End WithRuntime.

End ExpressionParsing.

(** What the parser promises of a segment: a literal is not empty, and an
    interpolation has a path of identifiers separated by dots and filters
    that [FILTER_SPECS] lists for its type, with a number of arguments
    within the listed bounds. *)
Definition wellFormedSegment (segment : TextSegment) : Prop :=
  match segment with
  | Literal text => text <> EmptyString
  | Interpolation seg =>
      ExpressionParsing.isPath (path seg) = true
      /\ ExpressionParser.parsedSegment seg = true
  end.

(** A runtime that reads the decimal integers of the examples as
    [parseFloat] does. *)
Definition integerParseFloat : JsParseFloat :=
  {| parseFloat := ExampleRuntime.readNumber |}.

(** The text holds two opening braces somewhere. *)
Fixpoint hasOpening (s : string) : bool :=
  match s with
  | EmptyString => false
  | String _ rest => prefix "{{" s || hasOpening rest
  end.

(** Every part followed by the delimiter. *)
Fixpoint terminated (delimiter : string) (parts : list string) : string :=
  match parts with
  | [] => EmptyString
  | p :: ps => p ++ delimiter ++ terminated delimiter ps
  end.

(** [o] declares the property [k]: [o.properties[k]] is there. *)
Definition declares (o : list (string * value)) (k : string) : Prop :=
  exists po c, getProp o "properties" = Some (VObj po) /\ getProp po k = Some c.

(** The [required] list of a node is well formed: its entries are pairwise
    distinct, and each is the name of a property the node declares. *)
Definition requiredDeclared (o : list (string * value)) : Prop :=
  forall l, getProp o "required" = Some (VArr l) ->
    NoDup l /\ forall x, In x l -> exists k, x = VStr k /\ declares o k.

(** Every node of a schema, through [properties] and [items], has a well
    formed [required] list. *)
Inductive RequiredNode : value -> Prop :=
| RequiredNode_intro (o : list (string * value)) :
    requiredDeclared o ->
    (forall po k c, getProp o "properties" = Some (VObj po) ->
       getProp po k = Some c -> RequiredNode c) ->
    (forall it, getProp o "items" = Some it -> RequiredNode it) ->
    RequiredNode (VObj o).

(** A step of the traversal keeps the shape of the schema and its
    [required] lists. *)
Definition KeepsRequired (r : result value) : Prop :=
  match r with
  | Ok s' => SchemaNode s' /\ RequiredNode s'
  | Throw _ => True
  end.

(** ** The prototype chain

    The sources read a property with [o[k]], which follows the prototype
    chain of [o], and [String(v)] and [Number(v)] call the [toString] an
    object has or inherits.  The embedding keeps the own properties of JSON
    values, in a realm whose [Object.prototype] holds its built-in members
    only; the statements below that depend on a lookup or on a conversion
    say so by one of the following conditions, under which the sources read
    nothing but own properties. *)

(** The names of the members of [Object.prototype]. *)
Definition objectPrototypeNames : list string :=
  ["constructor"; "__defineGetter__"; "__defineSetter__"; "hasOwnProperty";
   "__lookupGetter__"; "__lookupSetter__"; "isPrototypeOf";
   "propertyIsEnumerable"; "toString"; "valueOf"; "__proto__";
   "toLocaleString"].

Definition inheritedName (k : string) : bool :=
  existsb (String.eqb k) objectPrototypeNames.

(** The lookup of [parts] from [cursor], as the loop of [getByPath] makes
    it, reads own properties only: on an object, a key that is no own
    property is not the name of an inherited member either; on an array, the
    key is an array index or [length]. *)
Fixpoint ownParts (cursor : value) (parts : list string) : bool :=
  match parts with
  | [] => true
  | key :: rest =>
      match cursor with
      | VObj o =>
          match getProp o key with
          | Some v => ownParts v rest
          | None => negb (inheritedName key)
          end
      | VArr l =>
          match isArrayIndex key with
          | Some n => ownParts (nth (N.to_nat n) l VUndefined) rest
          | None => key =? "length"
          end
      | _ => true
      end
  end.

(** [getByPath(data, aliases, p)] reads own properties only. *)
Definition ownLookup (data aliases : list (string * value)) (p : string) : bool :=
  match normalizePath p with
  | [] => true
  | p0 :: rest =>
      match getProp aliases p0 with
      | Some bound => ownParts bound rest
      | None => ownParts (VObj data) (p0 :: rest)
      end
  end.

(** [String(v)] and [Number(v)] return: no object in [v] has an own property
    [toString], which for a JSON value is never a function. *)
Fixpoint stringifiable (v : value) : bool :=
  match v with
  | VArr l => forallb stringifiable l
  | VObj o =>
      negb (hasOwn o "toString") && forallb (fun kv => stringifiable (snd kv)) o
  | _ => true
  end.

(** No part of the path [p] is the name of a member of [Object.prototype]. *)
Definition plainPath (p : string) : bool :=
  forallb (fun part => negb (inheritedName (partKey part))) (normalizePath p).

(** The path and the alias of an iteration expression are plain. *)
Definition plainIteration (expr : option string) : bool :=
  match expr with
  | Some e =>
      match matchIteration (trim e) with
      | Some (p, alias) => plainPath p && negb (inheritedName alias)
      | None => true
      end
  | None => true
  end.

Definition plainSegment (segment : TextSegment) : bool :=
  match segment with
  | Literal _ => true
  | Interpolation seg => plainPath (path seg)
  end.

(** A tree that names no member of [Object.prototype]: not in the path of an
    interpolation, nor in a [data-if], nor in the path or the alias of an
    iteration expression.  On such a tree the schema compiler reads and
    writes own properties only. *)
Fixpoint plainTree (node : DslNode) : bool :=
  match node with
  | TextNode segments => forallb plainSegment segments
  | ElementNode _ attributes children =>
      plainIteration (attr attributes "data-page")
      && plainIteration (attr attributes "data-repeat")
      && match attr attributes "data-if" with
         | Some condition => plainPath condition
         | None => true
         end
      && forallb plainTree children
  end.



(** The number of places of [s] where [needle] begins. *)
Fixpoint occurrences (needle s : string) : nat :=
  match s with
  | EmptyString => O
  | String _ rest =>
      ((if prefix needle s then 1 else 0) + occurrences needle rest)%nat
  end.

(** The list of the renderer's test for [data-repeat] with [data-if]: a
    [li] repeated over [items] that is rendered where [item.enabled] holds. *)
Definition enabledRows : DslNode :=
  ElementNode "ul" []
    [ElementNode "li"
       [("data-repeat", "items as item"); ("data-if", "item.enabled")]
       [TextNode [field "item.name" TString false]]].

Definition enabledData : list (string * value) :=
  [("items", VArr [VObj [("name", VStr "A"); ("enabled", VBool true)];
                   VObj [("name", VStr "B"); ("enabled", VBool false)]])].

(** A [li] repeated over [items] under the alias [$index]. *)
Definition indexAliasRows : DslNode :=
  ElementNode "ul" []
    [ElementNode "li" [("data-repeat", "items as $index")]
       [TextNode [field "$index" TString false]]].

(** A [meta] element repeated over [items]. *)
Definition repeatedMeta : DslNode :=
  ElementNode "head" []
    [ElementNode "meta" [("data-repeat", "items as item"); ("name", "entry")] []].

(** A paragraph with an empty [data-if], and a [meta] element with a
    [data-if]. *)
Definition emptyCondition : DslNode :=
  ElementNode "p" [("data-if", EmptyString)] [TextNode [Literal "x"]].

Definition conditionalMeta : DslNode :=
  ElementNode "head" []
    [ElementNode "meta" [("data-if", "ok"); ("name", "entry")] []].

(** The markup of one instance of an element: its opening tag with the
    rendered attributes, the markup of its children and its closing tag; a
    void element is its opening tag. *)
Definition elementMarkup (tagName : string) (attributes : list (string * string))
  (renderChildren : Renderer.RenderContext -> result string)
  (context : Renderer.RenderContext) : result string :=
  let open := "<" ++ tagName ++ Renderer.buildRenderedAttributes attributes ++ ">" in
  if isVoidTag tagName then Ok open
  else
    let* body := renderChildren context in
    Ok (open ++ body ++ "</" ++ tagName ++ ">").

(* ================================================================== *)
(** * Part II. Properties                                              *)
(* ================================================================== *)

(** ** Induction on values and on trees *)

Lemma value_ind' (P : value -> Prop) :
  P VUndefined -> P VNull -> (forall b, P (VBool b)) -> (forall n, P (VNum n)) ->
  (forall s, P (VStr s)) ->
  (forall l, Forall P l -> P (VArr l)) ->
  (forall o, Forall (fun kv => P (snd kv)) o -> P (VObj o)) ->
  forall v, P v.
Proof.
  intros Hu Hn Hb Hnum Hs Ha Ho.
  fix IH 1. intros [ | | b | n | s | l | o].
  - exact Hu.
  - exact Hn.
  - apply Hb.
  - apply Hnum.
  - apply Hs.
  - apply Ha. induction l as [|x l IHl]; constructor; [apply IH | exact IHl].
  - apply Ho. induction o as [|[k x] o IHo]; constructor; [apply IH | exact IHo].
Qed.

Lemma DslNode_ind' (P : DslNode -> Prop) :
  (forall segments, P (TextNode segments)) ->
  (forall tag attrs children, Forall P children -> P (ElementNode tag attrs children)) ->
  forall n, P n.
Proof.
  intros Ht He. fix IH 1. intros [segments | tag attrs children].
  - apply Ht.
  - apply He. induction children as [|c cs IHcs]; constructor; [apply IH | exact IHcs].
Qed.

(** ** Objects *)

Lemma getProp_app {A} (o1 o2 : list (string * A)) k :
  getProp (o1 ++ o2)%list k =
  match getProp o1 k with Some v => Some v | None => getProp o2 k end.
Proof.
  induction o1 as [|[k' v'] o1 IH]; simpl; [reflexivity|].
  destruct (k' =? k); [reflexivity | exact IH].
Qed.

Lemma getProp_None_iff {A} (o : list (string * A)) k :
  getProp o k = None <-> ~ In k (keys o).
Proof.
  induction o as [|[k' v'] o IH]; simpl.
  - split; [intros _ [] | reflexivity].
  - destruct (String.eqb_spec k' k) as [->|Hne].
    + split; [discriminate | intros H; exfalso; apply H; now left].
    + rewrite IH. split; [intros H [E|I]; [now apply Hne | now apply H]
                         | intros H I; apply H; now right].
Qed.

Lemma getProp_In {A} (o : list (string * A)) k v :
  getProp o k = Some v -> In (k, v) o.
Proof.
  induction o as [|[k' v'] o IH]; simpl; [discriminate|].
  destruct (String.eqb_spec k' k) as [->|Hne].
  - intros [= ->]. now left.
  - intros H. right. now apply IH.
Qed.

Lemma In_keys {A} (o : list (string * A)) k v : In (k, v) o -> In k (keys o).
Proof. intros H. apply (in_map fst) in H. exact H. Qed.

Lemma In_getProp {A} (o : list (string * A)) k v :
  NoDup (keys o) -> In (k, v) o -> getProp o k = Some v.
Proof.
  induction o as [|[k' v'] o IH]; simpl; [intros _ []|].
  intros Hnd [E|I].
  - inversion E; subst. now rewrite String.eqb_refl.
  - inversion Hnd as [|? ? Hnotin Hnd']; subst.
    destruct (String.eqb_spec k' k) as [->|Hne].
    + exfalso. apply Hnotin. now apply In_keys with v.
    + now apply IH.
Qed.

Lemma hasOwn_true_iff {A} (o : list (string * A)) k :
  hasOwn o k = true <-> In k (keys o).
Proof.
  unfold hasOwn. destruct (getProp o k) eqn:E.
  - split; [intros _ | reflexivity]. apply getProp_In in E. now apply In_keys with a.
  - apply getProp_None_iff in E. split; [discriminate | contradiction].
Qed.

Lemma keys_replaceProp {A} (o : list (string * A)) k v :
  keys (replaceProp o k v) = keys o.
Proof.
  induction o as [|[k' v'] o IH]; simpl; [reflexivity|].
  destruct (k' =? k); simpl; [reflexivity | now rewrite IH].
Qed.

Lemma getProp_replaceProp {A} (o : list (string * A)) k v k' :
  getProp (replaceProp o k v) k' =
  if k =? k' then (if hasOwn o k then Some v else None) else getProp o k'.
Proof.
  unfold hasOwn.
  induction o as [|[k0 v0] o IH]; simpl.
  - now destruct (k =? k').
  - destruct (String.eqb_spec k0 k) as [->|Hne]; simpl.
    + destruct (String.eqb_spec k k'); reflexivity.
    + destruct (String.eqb_spec k0 k') as [->|Hne'].
      * destruct (String.eqb_spec k k') as [->|]; [contradiction | reflexivity].
      * exact IH.
Qed.

Lemma in_keys_insertIndex {A} n k (v : A) o k' :
  In k' (keys (insertIndex n k v o)) <-> k' = k \/ In k' (keys o).
Proof.
  induction o as [|[k0 v0] o IH]; simpl.
  - intuition.
  - destruct (isArrayIndex k0) as [m|]; [destruct (m <? n)%N|]; simpl;
      rewrite ?IH; intuition.
Qed.

Lemma getProp_insertIndex {A} n k (v : A) o k' :
  getProp o k = None ->
  getProp (insertIndex n k v o) k' = if k =? k' then Some v else getProp o k'.
Proof.
  induction o as [|[k0 v0] o IH]; simpl; intros Hnone.
  - reflexivity.
  - destruct (String.eqb_spec k0 k) as [->|Hne]; [discriminate|].
    destruct (isArrayIndex k0) as [m|]; [destruct (m <? n)%N|]; simpl; try reflexivity.
    rewrite (IH Hnone).
    destruct (String.eqb_spec k0 k') as [->|]; [|reflexivity].
    destruct (String.eqb_spec k k') as [->|]; [contradiction | reflexivity].
Qed.

Lemma getProp_setProp {A} (o : list (string * A)) k v k' :
  getProp (setProp o k v) k' = if k =? k' then Some v else getProp o k'.
Proof.
  unfold setProp. destruct (hasOwn o k) eqn:Hown.
  - rewrite getProp_replaceProp, Hown. reflexivity.
  - assert (Hnone : getProp o k = None).
    { unfold hasOwn in Hown. destruct (getProp o k); [discriminate | reflexivity]. }
    destruct (isArrayIndex k).
    + now apply getProp_insertIndex.
    + rewrite getProp_app. simpl.
      destruct (String.eqb_spec k k') as [->|].
      * now rewrite Hnone.
      * now destruct (getProp o k').
Qed.

Lemma getProp_setProp_same {A} (o : list (string * A)) k v :
  getProp (setProp o k v) k = Some v.
Proof. now rewrite getProp_setProp, String.eqb_refl. Qed.

Lemma getProp_setProp_other {A} (o : list (string * A)) k v k' :
  k <> k' -> getProp (setProp o k v) k' = getProp o k'.
Proof.
  intros H. rewrite getProp_setProp.
  now destruct (String.eqb_spec k k').
Qed.

Lemma in_keys_setProp {A} (o : list (string * A)) k v k' :
  In k' (keys (setProp o k v)) <-> k' = k \/ In k' (keys o).
Proof.
  rewrite <- !hasOwn_true_iff. unfold hasOwn. rewrite getProp_setProp.
  destruct (String.eqb_spec k k') as [->|Hne].
  - intuition.
  - split; [now right | intros [E|H]; [now subst | exact H]].
Qed.

Lemma NoDup_keys_insertIndex {A} n k (v : A) o :
  ~ In k (keys o) -> NoDup (keys o) -> NoDup (keys (insertIndex n k v o)).
Proof.
  induction o as [|[k0 v0] o IH]; simpl; intros Hnotin Hnd.
  - constructor; [intros [] | constructor].
  - inversion Hnd as [|? ? H0 Hnd']; subst.
    assert (Hfresh : NoDup (k :: k0 :: keys o)).
    { constructor; [exact Hnotin | exact Hnd]. }
    destruct (isArrayIndex k0) as [m|]; [destruct (m <? n)%N|]; simpl; try exact Hfresh.
    constructor.
    + fold (keys (insertIndex n k v o)). rewrite in_keys_insertIndex.
      intros [E|I]; [apply Hnotin; left; now symmetry | now apply H0].
    + apply IH; [intros I; apply Hnotin; now right | exact Hnd'].
Qed.

Lemma NoDup_keys_setProp {A} (o : list (string * A)) k v :
  NoDup (keys o) -> NoDup (keys (setProp o k v)).
Proof.
  intros Hnd. unfold setProp. destruct (hasOwn o k) eqn:Hown.
  - now rewrite keys_replaceProp.
  - assert (Hnotin : ~ In k (keys o)).
    { rewrite <- hasOwn_true_iff, Hown. discriminate. }
    destruct (isArrayIndex k).
    + now apply NoDup_keys_insertIndex.
    + unfold keys. rewrite map_app. simpl.
      apply NoDup_app_remove_l with (l := []). simpl.
      apply Permutation_NoDup with (l := k :: map fst o).
      * apply Permutation_cons_append.
      * now constructor.
Qed.

Lemma NoDup_keys_fold_setProp {A} (l acc : list (string * A)) :
  NoDup (keys acc) ->
  NoDup (keys (fold_left (fun o kv => setProp o (fst kv) (snd kv)) l acc)).
Proof.
  revert acc. induction l as [|kv l IH]; simpl; intros acc Hnd; [exact Hnd|].
  apply IH. now apply NoDup_keys_setProp.
Qed.

Lemma NoDup_keys_fromEntries {A} (l : list (string * A)) :
  NoDup (keys (fromEntries l)).
Proof. apply NoDup_keys_fold_setProp. constructor. Qed.

Lemma getProp_fold_setProp {A} (l acc : list (string * A)) k :
  getProp (fold_left (fun o kv => setProp o (fst kv) (snd kv)) l acc) k =
  match getProp (rev l) k with Some v => Some v | None => getProp acc k end.
Proof.
  revert acc. induction l as [|[k0 v0] l IH]; simpl; intros acc; [reflexivity|].
  rewrite IH, getProp_app, getProp_setProp. simpl.
  destruct (getProp (rev l) k); [reflexivity|].
  now destruct (k0 =? k).
Qed.

(** [Object.fromEntries]: the last entry of a key wins. *)
Lemma getProp_fromEntries {A} (l : list (string * A)) k :
  getProp (fromEntries l) k = getProp (rev l) k.
Proof.
  unfold fromEntries. rewrite getProp_fold_setProp.
  now destruct (getProp (rev l) k).
Qed.

Lemma getProp_Permutation {A} (l l' : list (string * A)) k :
  NoDup (keys l) -> Permutation l l' -> getProp l k = getProp l' k.
Proof.
  intros Hnd Hp.
  assert (Hnd' : NoDup (keys l')).
  { eapply Permutation_NoDup; [|exact Hnd]. now apply Permutation_map. }
  destruct (getProp l k) eqn:E.
  - symmetry. apply In_getProp; [exact Hnd'|].
    eapply Permutation_in; [exact Hp|]. now apply getProp_In.
  - symmetry. apply getProp_None_iff. apply getProp_None_iff in E.
    intros I. apply E. eapply Permutation_in; [|exact I].
    apply Permutation_map. now symmetry.
Qed.

Lemma getProp_fromEntries_NoDup {A} (l : list (string * A)) k :
  NoDup (keys l) -> getProp (fromEntries l) k = getProp l k.
Proof.
  intros Hnd. rewrite getProp_fromEntries. symmetry.
  apply getProp_Permutation; [exact Hnd | apply Permutation_rev].
Qed.

(** The spread [{...a, ...b}]: [b] overrides [a]. *)
Lemma getProp_spread {A} (a b : list (string * A)) k :
  NoDup (keys a) ->
  getProp (fromEntries (a ++ b)%list) k =
  match getProp (rev b) k with Some v => Some v | None => getProp a k end.
Proof.
  intros Hnd. rewrite getProp_fromEntries, rev_app_distr, getProp_app.
  destruct (getProp (rev b) k); [reflexivity|].
  symmetry. apply getProp_Permutation; [exact Hnd | apply Permutation_rev].
Qed.

Lemma getProp_map_values {A B} (f : string -> A -> B) (o : list (string * A)) k :
  getProp (map (fun kv => (fst kv, f (fst kv) (snd kv))) o) k =
  option_map (f k) (getProp o k).
Proof.
  induction o as [|[k0 v0] o IH]; simpl; [reflexivity|].
  destruct (String.eqb_spec k0 k) as [->|]; [reflexivity | exact IH].
Qed.

(** ** The stable sort *)

Section StableSortFacts.
Context {A : Type} (le : A -> A -> bool).

Lemma insertSorted_perm x l : Permutation (x :: l) (insertSorted le x l).
Proof.
  induction l as [|y l IH]; simpl; [reflexivity|].
  destruct (le x y); [reflexivity|].
  rewrite perm_swap. now constructor.
Qed.

Lemma stableSort_perm l : Permutation l (stableSort le l).
Proof.
  induction l as [|x l IH]; simpl; [constructor|].
  rewrite <- insertSorted_perm. now constructor.
Qed.

Hypothesis le_total : forall x y, le x y = false -> le y x = true.

Lemma insertSorted_sorted x l :
  Sorted (fun a b => le a b = true) l ->
  Sorted (fun a b => le a b = true) (insertSorted le x l).
Proof.
  induction l as [|y l IH]; simpl; intros Hs.
  - repeat constructor.
  - destruct (le x y) eqn:E.
    + constructor; [exact Hs | now constructor].
    + inversion Hs as [|? ? Hs' Hhd]; subst.
      constructor; [now apply IH|].
      destruct l as [|z l]; simpl.
      * constructor. now apply le_total.
      * destruct (le x z); constructor; [now apply le_total|].
        now inversion Hhd.
Qed.

Lemma stableSort_sorted l : Sorted (fun a b => le a b = true) (stableSort le l).
Proof.
  induction l as [|x l IH]; simpl; [constructor | now apply insertSorted_sorted].
Qed.

End StableSortFacts.

(** Sorting commutes with a map that the comparator does not see. *)
Lemma stableSort_map {A} (le : A -> A -> bool) (h : A -> A) l :
  (forall a b, le (h a) (h b) = le a b) ->
  stableSort le (map h l) = map h (stableSort le l).
Proof.
  intros Hh. induction l as [|x l IH]; simpl; [reflexivity|].
  rewrite IH. generalize (stableSort le l) as s.
  induction s as [|y s IHs]; simpl; [reflexivity|].
  rewrite Hh. destruct (le x y); simpl; [reflexivity | now rewrite IHs].
Qed.

Section SortedObjects.
Context {rt : JsRuntime}.

Lemma stableSortObject_VObj o :
  stableSortObject (VObj o) =
  VObj (fromEntries (stableSort entryLe
          (map (fun kv => (fst kv, sortValue (fst kv) (snd kv))) o))).
Proof. reflexivity. Qed.

(** The model of [stableSortObject] maps and then sorts; the source sorts
    and then maps. *)
Lemma stableSort_map_values o :
  stableSort entryLe (map (fun kv => (fst kv, sortValue (fst kv) (snd kv))) o) =
  map (fun kv => (fst kv, sortValue (fst kv) (snd kv))) (stableSort entryLe o).
Proof. apply stableSort_map. reflexivity. Qed.

(** Sorting an object with distinct keys changes no lookup, up to the
    sorting of the value found. *)
Lemma getProp_sorted o k :
  NoDup (keys o) ->
  getProp (fromEntries (stableSort entryLe
             (map (fun kv => (fst kv, sortValue (fst kv) (snd kv))) o))) k =
  option_map (sortValue k) (getProp o k).
Proof.
  intros Hnd.
  set (m := map (fun kv => (fst kv, sortValue (fst kv) (snd kv))) o).
  assert (Hm : NoDup (keys m)).
  { unfold m, keys. rewrite map_map. simpl. exact Hnd. }
  rewrite getProp_fromEntries_NoDup.
  - rewrite <- (getProp_Permutation m _ k Hm (stableSort_perm entryLe m)).
    unfold m. apply (getProp_map_values sortValue).
  - eapply Permutation_NoDup; [|exact Hm].
    apply Permutation_map. apply stableSort_perm.
Qed.

Lemma getMember_sorted o k :
  NoDup (keys o) ->
  getMember (stableSortObject (VObj o)) k = sortValue k (getMember (VObj o) k).
Proof.
  intros Hnd. rewrite stableSortObject_VObj. simpl.
  rewrite (getProp_sorted o k Hnd).
  destruct (getProp o k); reflexivity.
Qed.

End SortedObjects.

(** ** The canonical form *)

Lemma In_setProp {A} (o : list (string * A)) k v kv :
  In kv (setProp o k v) -> kv = (k, v) \/ In kv o.
Proof.
  unfold setProp. destruct (hasOwn o k).
  - induction o as [|[k0 v0] o IH]; simpl; [intros []|].
    destruct (k0 =? k) eqn:E; simpl.
    + apply String.eqb_eq in E. subst. intros [<-|I]; [now left | right; now right].
    + intros [<-|I]; [right; now left|].
      destruct (IH I) as [->|I']; [now left | right; now right].
  - destruct (isArrayIndex k) as [n|].
    + induction o as [|[k0 v0] o IH]; simpl.
      * intros [<-|[]]. now left.
      * destruct (isArrayIndex k0) as [m|]; [destruct (m <? n)%N|]; simpl;
          try (intros [<-|I]; [now left | now right]).
        intros [<-|I]; [right; now left|].
        destruct (IH I) as [->|I']; [now left | right; now right].
    + intros I. apply in_app_or in I. destruct I as [I|[<-|[]]]; [now right | now left].
Qed.

Lemma In_fold_setProp {A} (l acc : list (string * A)) kv :
  In kv (fold_left (fun o e => setProp o (fst e) (snd e)) l acc) ->
  In kv acc \/ In kv l.
Proof.
  revert acc. induction l as [|[k0 v0] l IH]; simpl; intros acc I; [now left|].
  destruct (IH _ I) as [I'|I']; [|right; now right].
  destruct (In_setProp _ _ _ _ I') as [->|I'']; [right; now left | now left].
Qed.

Lemma In_fromEntries {A} (l : list (string * A)) kv :
  In kv (fromEntries l) -> In kv l.
Proof. intros I. destruct (In_fold_setProp _ _ _ I) as [[]|I']. exact I'. Qed.

Lemma StronglySorted_snoc {A} (R : A -> A -> Prop) l x :
  StronglySorted R l -> Forall (fun a => R a x) l -> StronglySorted R (l ++ [x])%list.
Proof.
  induction l as [|y l IH]; simpl; intros Hs Hf.
  - repeat constructor.
  - inversion Hs as [|? ? Hs' Hall]; subst. inversion Hf as [|? ? Hy Hf']; subst.
    constructor; [now apply IH|].
    apply Forall_app. split; [exact Hall | now repeat constructor].
Qed.

Lemma Sorted_weaken {A} (R1 R2 : A -> A -> Prop) l :
  (forall a b, R1 a b -> R2 a b) -> Sorted R1 l -> Sorted R2 l.
Proof.
  intros Himp Hs. induction Hs as [|a l Hs IH Hhd]; constructor; [exact IH|].
  destruct Hhd; constructor. now apply Himp.
Qed.

Section CanonicalFacts.
Context {rt : JsRuntime} {consistent : ConsistentCompare rt}.

Lemma defaultLe_total x y : defaultLe x y = false -> defaultLe y x = true.
Proof.
  unfold defaultLe. intros H.
  destruct y; try (destruct x; discriminate);
    destruct x; try reflexivity;
    match goal with
    | |- String.leb ?a ?b = true =>
        destruct (String.leb_total a b) as [E|E]; [exact E | congruence]
    end.
Qed.

Lemma entryLe_total a b : entryLe a b = false -> entryLe b a = true.
Proof.
  unfold entryLe. rewrite (localeCompare_antisym (fst a) (fst b)).
  now destruct (localeCompare (fst a) (fst b)).
Qed.

Lemma entryLe_localeLe a b : entryLe a b = true <-> localeLe (fst a) (fst b).
Proof.
  unfold entryLe, localeLe.
  destruct (localeCompare (fst a) (fst b)); split; congruence.
Qed.

Lemma stableSort_keys_sorted (m : list (string * value)) :
  StronglySorted localeLe (keys (stableSort entryLe m)).
Proof.
  assert (Hs : Sorted (fun a b => localeLe (fst a) (fst b)) (stableSort entryLe m)).
  { apply Sorted_weaken with (R1 := fun a b => entryLe a b = true).
    - intros a b. apply entryLe_localeLe.
    - apply stableSort_sorted. exact entryLe_total. }
  apply Sorted_StronglySorted in Hs.
  - induction Hs as [|a l Hs IH Hall]; simpl; constructor; [exact IH|].
    unfold keys. rewrite Forall_map. exact Hall.
  - intros a b c. apply localeCompare_trans.
Qed.

Lemma insertIndex_keys_sorted n k (v : value) o :
  isArrayIndex k = Some n ->
  StronglySorted keyOrder (keys o) ->
  StronglySorted keyOrder (keys (insertIndex n k v o)).
Proof.
  intros Hk. induction o as [|[k0 v0] o IH]; simpl; intros Hs.
  - repeat constructor.
  - inversion Hs as [|? ? Hs' Hall]; subst.
    assert (Hfront : forall x, In x (k0 :: keys o) -> keyOrder k0 x -> 
              (match isArrayIndex k0 with Some m => (n <= m)%N | None => True end) ->
              keyOrder k x).
    { intros x _ Hx Hm. unfold keyOrder in *. rewrite Hk.
      destruct (isArrayIndex x) as [mx|]; [|exact I].
      destruct (isArrayIndex k0) as [m0|]; [lia | contradiction]. }
    assert (Hk0 : keyOrder k0 k0 \/ True) by now right.
    destruct (isArrayIndex k0) as [m|] eqn:E0.
    + destruct (m <? n)%N eqn:Elt; simpl.
      * constructor; [now apply IH|].
        fold (keys (insertIndex n k v o)). apply Forall_forall. intros x Hx.
        apply in_keys_insertIndex in Hx. destruct Hx as [->|Hx].
        -- unfold keyOrder. rewrite E0, Hk. apply N.ltb_lt in Elt. lia.
        -- rewrite Forall_forall in Hall. now apply Hall.
      * apply N.ltb_ge in Elt. constructor; [exact Hs|].
        constructor.
        -- unfold keyOrder. rewrite Hk, E0. exact Elt.
        -- apply Forall_forall. intros x Hx. rewrite Forall_forall in Hall.
           specialize (Hall x Hx). unfold keyOrder in *. rewrite Hk. rewrite E0 in Hall.
           destruct (isArrayIndex x); [lia | exact I].
    + simpl. constructor; [exact Hs|]. constructor.
      * unfold keyOrder. now rewrite Hk, E0.
      * apply Forall_forall. intros x Hx. rewrite Forall_forall in Hall.
        specialize (Hall x Hx). unfold keyOrder in *. rewrite Hk. rewrite E0 in Hall.
        destruct (isArrayIndex x); [contradiction | exact I].
Qed.

Lemma fold_setProp_keys_sorted (l acc : list (string * value)) :
  StronglySorted localeLe (keys l) ->
  StronglySorted keyOrder (keys acc) ->
  (forall a b, In a (keys acc) -> In b (keys l) -> isArrayIndex a = None ->
               localeLe a b) ->
  StronglySorted keyOrder
    (keys (fold_left (fun o kv => setProp o (fst kv) (snd kv)) l acc)).
Proof.
  revert acc. induction l as [|[k v] l IH]; simpl; intros acc Hl Hacc Hle; [exact Hacc|].
  inversion Hl as [|? ? Hl' Hall]; subst. rewrite Forall_forall in Hall.
  apply IH; [exact Hl'| |].
  - unfold setProp. destruct (hasOwn acc k) eqn:Hown.
    + now rewrite keys_replaceProp.
    + destruct (isArrayIndex k) as [n|] eqn:Ek.
      * now apply insertIndex_keys_sorted.
      * unfold keys. rewrite map_app. simpl. apply StronglySorted_snoc; [exact Hacc|].
        apply Forall_forall. intros a Ha. unfold keyOrder. rewrite Ek.
        destruct (isArrayIndex a) eqn:Ea; [exact I|].
        apply Hle; [exact Ha | now left | exact Ea].
  - intros a b Ha Hb Ea. apply in_keys_setProp in Ha. destruct Ha as [->|Ha].
    + now apply Hall.
    + apply Hle; [exact Ha | now right | exact Ea].
Qed.

Lemma fromEntries_sorted_keys (m : list (string * value)) :
  Sorted keyOrder (keys (fromEntries (stableSort entryLe m))).
Proof.
  apply StronglySorted_Sorted. apply fold_setProp_keys_sorted.
  - apply stableSort_keys_sorted.
  - constructor.
  - intros a b [].
Qed.

Lemma canonical_VArr l : canonical (VArr l) <-> Forall canonical l.
Proof.
  simpl. induction l as [|x l IH]; simpl.
  - split; constructor.
  - rewrite IH. split; [intros [H1 H2]; now constructor | intros H; now inversion H].
Qed.

Lemma canonical_VObj o :
  canonical (VObj o) <->
  Sorted keyOrder (keys o) /\
  Forall (fun kv =>
            match snd kv with
            | VArr nested =>
                if fst kv =? "required" then Sorted requiredOrder nested
                else canonical (snd kv)
            | _ => canonical (snd kv)
            end) o.
Proof.
  simpl. apply and_iff_compat_l.
  induction o as [|[k x] o IH]; simpl.
  - split; constructor.
  - rewrite IH. split; [intros [H1 H2]; now constructor | intros H; now inversion H].
Qed.

(** Every value [stableSortObject] returns is in canonical form. *)
Lemma stableSortObject_canonical v : canonical (stableSortObject v).
Proof.
  induction v as [ | | b | n | s | l IH | o IH] using value_ind'; try exact I.
  - simpl stableSortObject. apply canonical_VArr.
    rewrite Forall_map. exact IH.
  - rewrite stableSortObject_VObj. apply canonical_VObj. split.
    + apply fromEntries_sorted_keys.
    + apply Forall_forall. intros [k x'] Hin.
      apply In_fromEntries in Hin.
      eapply Permutation_in in Hin; [|symmetry; apply stableSort_perm].
      apply in_map_iff in Hin. destruct Hin as [[k0 x] [E Hin]].
      inversion E; subst. clear E. simpl.
      rewrite Forall_forall in IH. specialize (IH _ Hin). cbn [snd] in IH.
      unfold sortValue.
      destruct x as [ | | b | n | s | nested | o']; try exact IH.
      destruct (k =? "required") eqn:Ek.
      * apply stableSort_sorted. exact defaultLe_total.
      * exact IH.
Qed.

End CanonicalFacts.

(** ** The schema under construction *)

Lemma includesKey_app r1 r2 k :
  includesKey (r1 ++ r2)%list k = includesKey r1 k || includesKey r2 k.
Proof. unfold includesKey. apply existsb_app. Qed.

Lemma requires_VObj o k :
  requires (VObj o) k =
  match getProp o "required" with
  | Some (VArr r) => includesKey r k
  | _ => false
  end.
Proof.
  unfold requires. simpl. destruct (getProp o "required") as [[]|]; reflexivity.
Qed.

Lemma getProp_pushRequired_other node key k :
  k <> "required" -> getProp (pushRequired node key) k = getProp node k.
Proof.
  intros Hk. unfold pushRequired.
  destruct (getProp node "required") as [[ | | | | |r|]|];
    try (rewrite !getProp_setProp_other by congruence; reflexivity).
  destruct (includesKey r key); [reflexivity|].
  now rewrite getProp_setProp_other by congruence.
Qed.

Lemma requires_pushRequired node key k :
  requires (VObj (pushRequired node key)) k = (key =? k) || requires (VObj node) k.
Proof.
  rewrite !requires_VObj. unfold pushRequired.
  destruct (getProp node "required") as [[ | | | | |r|]|] eqn:E;
    try (rewrite !getProp_setProp_same; simpl; now rewrite orb_false_r).
  destruct (includesKey r key) eqn:Ei.
  - rewrite E. destruct (String.eqb_spec key k) as [<-|]; [now rewrite Ei | reflexivity].
  - rewrite getProp_setProp_same, includesKey_app. simpl.
    now rewrite orb_false_r, orb_comm.
Qed.

Lemma NoDup_keys_pushRequired node key :
  NoDup (keys node) -> NoDup (keys (pushRequired node key)).
Proof.
  intros Hnd. unfold pushRequired.
  destruct (getProp node "required") as [[ | | | | |r|]|];
    try (now repeat apply NoDup_keys_setProp).
  destruct (includesKey r key); [exact Hnd | now apply NoDup_keys_setProp].
Qed.

Lemma SchemaNode_emptyObjectSchema : SchemaNode emptyObjectSchema.
Proof.
  constructor.
  - repeat constructor; simpl; intuition discriminate.
  - intros p [= <-]. exists []. repeat split; [constructor | discriminate | discriminate].
  - discriminate.
Qed.

Lemma SchemaNode_emptyArraySchema : SchemaNode emptyArraySchema.
Proof.
  constructor.
  - repeat constructor; simpl; intuition discriminate.
  - discriminate.
  - intros it [= <-]. apply SchemaNode_emptyObjectSchema.
Qed.

Lemma SchemaNode_VObj_nil : SchemaNode (VObj []).
Proof. constructor; [constructor | discriminate | discriminate]. Qed.

Lemma SchemaNode_is_object s : SchemaNode s -> exists o, s = VObj o.
Proof. intros []. now eexists. Qed.

(** What [ensureObjectProperties] leaves in a node of the schema. *)
Lemma ensureObjectProperties_SchemaNode node :
  SchemaNode (VObj node) ->
  let node1 := ensureObjectProperties node in
  NoDup (keys node1)
  /\ (forall k, k <> "properties" -> getProp node1 k = getProp node k)
  /\ exists po, getProp node1 "properties" = Some (VObj po)
       /\ NoDup (keys po)
       /\ forall k c, getProp po k = Some c ->
            SchemaNode c /\ (isIntermediate c = true -> requires (VObj node1) k = true).
Proof.
  intros Hs. inversion Hs as [o Hnd Hprops Hitems]; subst.
  unfold ensureObjectProperties. cbv zeta.
  destruct (getProp node "properties") as [p|] eqn:E.
  - destruct (Hprops p eq_refl) as [po [-> [Hndp Hch]]].
    split; [exact Hnd|]. split; [reflexivity|].
    exists po. split; [exact E|]. split; [exact Hndp | exact Hch].
  - split; [now apply NoDup_keys_setProp|].
    split; [intros k Hk; now apply getProp_setProp_other|].
    exists []. rewrite getProp_setProp_same.
    split; [reflexivity|]. split; [constructor | discriminate].
Qed.

(** Storing a child under [key] in the properties of a node, with and
    without listing [key] as required. *)
Lemma store_SchemaNode node1 po key c' :
  NoDup (keys node1) ->
  getProp node1 "properties" = Some (VObj po) ->
  NoDup (keys po) ->
  (forall k c, getProp po k = Some c ->
     SchemaNode c /\ (isIntermediate c = true -> requires (VObj node1) k = true)) ->
  (forall it, getProp node1 "items" = Some it -> SchemaNode it) ->
  SchemaNode c' ->
  let node2 := setProp node1 "properties" (VObj (setProp po key c')) in
  SchemaNode (VObj (pushRequired node2 key))
  /\ ((isIntermediate c' = true -> requires (VObj node1) key = true) ->
      SchemaNode (VObj node2)).
Proof.
  intros Hnd Hp Hndp Hch Hit Hc' node2.
  assert (Hreq2 : forall k, requires (VObj node2) k = requires (VObj node1) k).
  { intros k. rewrite !requires_VObj. unfold node2.
    now rewrite getProp_setProp_other by discriminate. }
  assert (Hchildren : forall (req : string -> bool),
            (forall k, requires (VObj node1) k = true -> req k = true) ->
            (isIntermediate c' = true -> req key = true) ->
            forall k c, getProp (setProp po key c') k = Some c ->
              SchemaNode c /\ (isIntermediate c = true -> req k = true)).
  { intros req Hmono Hkey k c. rewrite getProp_setProp.
    destruct (String.eqb_spec key k) as [<-|Hne].
    - intros [= <-]. split; [exact Hc' | exact Hkey].
    - intros Hk. destruct (Hch _ _ Hk) as [H1 H2]. split; [exact H1|].
      intros Hi. apply Hmono. now apply H2. }
  split.
  - constructor.
    + apply NoDup_keys_pushRequired. now apply NoDup_keys_setProp.
    + intros p. rewrite getProp_pushRequired_other by discriminate.
      unfold node2. rewrite getProp_setProp_same. intros [= <-].
      exists (setProp po key c').
      split; [reflexivity|]. split; [now apply NoDup_keys_setProp|].
      apply (Hchildren (fun k => requires (VObj (pushRequired node2 key)) k)).
      * intros k0 Hk0. rewrite requires_pushRequired, Hreq2, Hk0. apply orb_true_r.
      * intros _. rewrite requires_pushRequired, String.eqb_refl. reflexivity.
    + intros it. rewrite getProp_pushRequired_other by discriminate.
      unfold node2. rewrite getProp_setProp_other by discriminate. apply Hit.
  - intros Hkey. constructor.
    + now apply NoDup_keys_setProp.
    + intros p. unfold node2. rewrite getProp_setProp_same. intros [= <-].
      exists (setProp po key c').
      split; [reflexivity|]. split; [now apply NoDup_keys_setProp|].
      apply (Hchildren (fun k => requires (VObj node2) k)).
      * intros k0 Hk0. now rewrite Hreq2.
      * intros Hi. rewrite Hreq2. now apply Hkey.
    + intros it. unfold node2. rewrite getProp_setProp_other by discriminate. apply Hit.
Qed.

Lemma getProp_rev_absent {A} (l : list (string * A)) k :
  (forall v, ~ In (k, v) l) -> getProp (rev l) k = None.
Proof.
  intros H. destruct (getProp (rev l) k) eqn:E; [|reflexivity].
  apply getProp_In in E. apply in_rev in E. now apply H in E.
Qed.

Lemma getProp_rev_In {A} (l : list (string * A)) k v :
  getProp (rev l) k = Some v -> In (k, v) l.
Proof. intros E. apply getProp_In in E. now apply in_rev. Qed.

Lemma merged_SchemaNode co leaf required :
  SchemaNode (VObj co) -> LeafOK leaf required ->
  SchemaNode (VObj (fromEntries (co ++ leaf)%list))
  /\ (isIntermediate (VObj (fromEntries (co ++ leaf)%list)) = true ->
      required = true \/ isIntermediate (VObj co) = true).
Proof.
  intros Hs [Hnp [Hnr Hit]]. inversion Hs as [o Hnd Hprops Hitems]; subst.
  assert (Hprop : getProp (fromEntries (co ++ leaf)%list) "properties"
                  = getProp co "properties").
  { rewrite getProp_spread by exact Hnd. now rewrite getProp_rev_absent. }
  assert (Hreq : getProp (fromEntries (co ++ leaf)%list) "required"
                 = getProp co "required").
  { rewrite getProp_spread by exact Hnd. now rewrite getProp_rev_absent. }
  split.
  - constructor.
    + apply NoDup_keys_fromEntries.
    + intros p. rewrite Hprop. intros Hp.
      destruct (Hprops p Hp) as [po [-> [Hndp Hch]]].
      exists po. split; [reflexivity|]. split; [exact Hndp|].
      intros k c Hk. destruct (Hch k c Hk) as [H1 H2]. split; [exact H1|].
      intros Hi. specialize (H2 Hi). rewrite requires_VObj in *. now rewrite Hreq.
    + intros it. rewrite getProp_spread by exact Hnd.
      destruct (getProp (rev leaf) "items") as [v|] eqn:E.
      * intros [= <-]. apply getProp_rev_In in E. now apply Hit.
      * apply Hitems.
  - simpl. unfold hasOwn. rewrite Hprop. rewrite (getProp_spread co leaf "items" Hnd).
    destruct (getProp co "properties"); [intros _; now right|].
    destruct (getProp (rev leaf) "items") as [v|] eqn:E.
    + intros _. left. apply getProp_rev_In in E. now apply Hit in E.
    + simpl. intros H. now right.
Qed.

Lemma setItems_SchemaNode a it :
  SchemaNode (VObj a) -> SchemaNode it -> SchemaNode (VObj (setProp a "items" it)).
Proof.
  intros Hs Hit. inversion Hs as [o Hnd Hprops Hitems]; subst. constructor.
  - now apply NoDup_keys_setProp.
  - intros p. rewrite getProp_setProp_other by discriminate. intros Hp.
    destruct (Hprops p Hp) as [po [-> [Hndp Hch]]].
    exists po. split; [reflexivity|]. split; [exact Hndp|].
    intros k c Hk. destruct (Hch k c Hk) as [H1 H2]. split; [exact H1|].
    intros Hi. specialize (H2 Hi). rewrite requires_VObj in *.
    now rewrite getProp_setProp_other by discriminate.
  - intros it'. rewrite getProp_setProp_same. now intros [= <-].
Qed.

(** [ensurePathNode] keeps the shape of the schema, and on a schema of that
    shape it does not throw. *)
Lemma ensurePathNode_SchemaNode path : forall current leaf required,
  SchemaNode current -> LeafOK leaf required ->
  exists s', ensurePathNode current path leaf required = Ok s' /\ SchemaNode s'.
Proof.
  induction path as [|part rest IH]; intros current leaf required Hs Hleaf.
  - exists current. split; [reflexivity | exact Hs].
  - destruct (SchemaNode_is_object _ Hs) as [node ->].
    destruct (ensureObjectProperties_SchemaNode node Hs)
      as [Hnd1 [Hsame [po [Hp [Hndp Hch]]]]].
    assert (Hit1 : forall it, getProp (ensureObjectProperties node) "items" = Some it ->
                              SchemaNode it).
    { intros it. rewrite Hsame by discriminate. inversion Hs; auto. }
    cbn [ensurePathNode]. rewrite Hp.
    set (node1 := ensureObjectProperties node) in *.
    set (key := partKey part) in *.
    assert (Hlook : forall dflt, SchemaNode dflt ->
              let c0 := nullish (getMember (VObj po) key) dflt in
              SchemaNode c0 /\
              (c0 = dflt \/ (isIntermediate c0 = true -> requires (VObj node1) key = true))).
    { intros dflt Hd. simpl. destruct (getProp po key) as [c|] eqn:E.
      - destruct (Hch key c E) as [H1 H2].
        destruct (SchemaNode_is_object _ H1) as [co ->]. simpl.
        split; [exact H1 | right; exact H2].
      - simpl. split; [exact Hd | now left]. }
    destruct rest as [|part' rest'].
    + destruct (Hlook (VObj []) SchemaNode_VObj_nil) as [Hc0 Hc0'].
      set (existing := nullish (getMember (VObj po) key) (VObj [])) in *.
      destruct (SchemaNode_is_object _ Hc0) as [co Eco]. rewrite Eco in *.
      cbn [ownEntries].
      destruct (merged_SchemaNode co leaf required Hc0 Hleaf) as [Hm Hmi].
      destruct (store_SchemaNode node1 po key _ Hnd1 Hp Hndp Hch Hit1 Hm) as [Hpush Hplain].
      eexists. split; [reflexivity|].
      destruct required; [exact Hpush|]. apply Hplain.
      intros Hi. destruct (Hmi Hi) as [Hr|Hi']; [discriminate|].
      destruct Hc0' as [E|Hreq]; [|now apply Hreq].
      inversion E; subst. discriminate.
    + destruct (partIsArray part).
      * destruct (Hlook emptyArraySchema SchemaNode_emptyArraySchema) as [Hc0 _].
        destruct (SchemaNode_is_object _ Hc0) as [arrNode Earr].
        rewrite Earr in *.
        set (arrNode1 := if truthy (getMember (VObj arrNode) "items") then arrNode
                         else setProp arrNode "items" emptyObjectSchema).
        assert (Harr1 : SchemaNode (VObj arrNode1)
                        /\ SchemaNode (getMember (VObj arrNode1) "items")).
        { unfold arrNode1. simpl. inversion Hc0 as [o Hnd' Hprops' Hitems']; subst.
          destruct (getProp arrNode "items") as [it|] eqn:Eit.
          - specialize (Hitems' it eq_refl).
            destruct (SchemaNode_is_object _ Hitems') as [io ->]. simpl.
            rewrite Eit. split; [exact Hc0 | exact Hitems'].
          - simpl. rewrite getProp_setProp_same.
            split; [apply setItems_SchemaNode; [exact Hc0|] |];
              apply SchemaNode_emptyObjectSchema. }
        destruct Harr1 as [Harr1 Hitems0].
        destruct (IH _ leaf required Hitems0 Hleaf) as [items' [Eitems Hitems']].
        rewrite Eitems. cbn [bind].
        eexists. split; [reflexivity|].
        apply store_SchemaNode; try assumption.
        now apply setItems_SchemaNode.
      * destruct (Hlook emptyObjectSchema SchemaNode_emptyObjectSchema) as [Hc0 _].
        destruct (IH _ leaf required Hc0 Hleaf) as [objNode [Eobj Hobj]].
        rewrite Eobj. cbn [bind].
        eexists. split; [reflexivity|].
        now apply store_SchemaNode.
Qed.

Lemma mapTypeToSchema_keys t n k v :
  In (k, v) (mapTypeToSchema t n) -> k = "type" \/ k = "format".
Proof.
  unfold mapTypeToSchema.
  destruct t; simpl; intros H;
    repeat (destruct H as [H|H]; [inversion H; subst; auto|]); contradiction.
Qed.

Lemma applyConstraint_keys node c :
  (forall k v, In (k, v) node -> leafKey k) ->
  forall k v, In (k, v) (applyConstraint node c) -> leafKey k.
Proof.
  intros Hn k v H. unfold applyConstraint in H.
  destruct c; apply In_setProp in H; destruct H as [H|H];
    try (now apply Hn in H); inversion H; subst; repeat split; discriminate.
Qed.

Lemma buildFieldSchema_keys t n cs k v :
  In (k, v) (buildFieldSchema t n cs) -> leafKey k.
Proof.
  unfold buildFieldSchema.
  assert (H0 : forall k v, In (k, v) (mapTypeToSchema t n) -> leafKey k).
  { intros k0 v0 H. apply mapTypeToSchema_keys in H.
    destruct H as [->| ->]; repeat split; discriminate. }
  revert H0. generalize (mapTypeToSchema t n) as node.
  induction cs as [|c cs IH]; simpl; intros node Hn; [apply Hn|].
  apply IH. now apply applyConstraint_keys.
Qed.

Lemma LeafOK_buildFieldSchema t n cs required :
  LeafOK (buildFieldSchema t n cs) required.
Proof.
  split; [|split]; intros v H; apply buildFieldSchema_keys in H;
    destruct H as [H1 [H2 H3]]; congruence.
Qed.

Lemma LeafOK_array :
  LeafOK [("type", VStr "array"); ("items", emptyObjectSchema)] true.
Proof.
  split; [|split].
  - intros v [H|[H|[]]]; discriminate.
  - intros v [H|[H|[]]]; discriminate.
  - intros v [H|[H|[]]]; inversion H. split; [apply SchemaNode_emptyObjectSchema | reflexivity].
Qed.

Lemma assign_SchemaNode t k v :
  SchemaNode t -> leafKey k ->
  exists t', assign t k v = Ok t' /\ SchemaNode t'
             /\ isIntermediate t' = isIntermediate t.
Proof.
  intros Hs [Hk1 [Hk2 Hk3]]. inversion Hs as [o Hnd Hprops Hitems]; subst.
  eexists. split; [reflexivity|]. split.
  - constructor.
    + now apply NoDup_keys_setProp.
    + intros p. rewrite getProp_setProp_other by congruence. intros Hp.
      destruct (Hprops p Hp) as [po [-> [Hndp Hch]]].
      exists po. split; [reflexivity|]. split; [exact Hndp|].
      intros k0 c Hk0. destruct (Hch k0 c Hk0) as [H1 H2]. split; [exact H1|].
      intros Hi. specialize (H2 Hi). rewrite requires_VObj in *.
      now rewrite getProp_setProp_other by congruence.
    + intros it. rewrite getProp_setProp_other by congruence. apply Hitems.
  - simpl. unfold hasOwn. now rewrite !getProp_setProp_other by congruence.
Qed.

Lemma applySemantic_SchemaNode t sem :
  SchemaNode t ->
  exists t', applySemantic t sem = Ok t' /\ SchemaNode t'
             /\ isIntermediate t' = isIntermediate t.
Proof.
  intros Hs. unfold applySemantic. destruct sem as [sem|]; [|now exists t].
  assert (H1 : exists t1,
             match description sem with
             | Some d => if nonEmpty d then assign t "description" (VStr d) else Ok t
             | None => Ok t
             end = Ok t1 /\ SchemaNode t1 /\ isIntermediate t1 = isIntermediate t).
  { destruct (description sem) as [d|]; [destruct (nonEmpty d)|];
      try (now exists t).
    apply assign_SchemaNode; [exact Hs | repeat split; discriminate]. }
  destruct H1 as [t1 [-> [Hs1 Hi1]]]. cbn [bind].
  assert (H2 : exists t2,
             match instruction sem with
             | Some i => if nonEmpty i then assign t1 "x-instruction" (VStr i) else Ok t1
             | None => Ok t1
             end = Ok t2 /\ SchemaNode t2 /\ isIntermediate t2 = isIntermediate t1).
  { destruct (instruction sem) as [i|]; [destruct (nonEmpty i)|];
      try (now exists t1).
    apply assign_SchemaNode; [exact Hs1 | repeat split; discriminate]. }
  destruct H2 as [t2 [-> [Hs2 Hi2]]]. cbn [bind]. rewrite <- Hi1, <- Hi2.
  destruct (examples sem) as [[|e es]|]; try (now exists t2).
  apply assign_SchemaNode; [exact Hs2 | repeat split; discriminate].
Qed.

Lemma getFieldSchemaParts_intermediate s part rest f :
  getFieldSchemaParts s (part :: rest) = Some f -> isIntermediate s = true.
Proof.
  cbn [getFieldSchemaParts].
  destruct (truthy (getMember s "properties")) eqn:E; [|discriminate].
  intros _. destruct s; try discriminate.
  simpl in *. unfold hasOwn. destruct (getProp props "properties"); [reflexivity | discriminate].
Qed.

Lemma putFieldSchema_SchemaNode parts : forall s f,
  SchemaNode s -> getFieldSchemaParts s parts = Some f ->
  SchemaNode f
  /\ forall f', SchemaNode f' ->
       (isIntermediate f' = true -> isIntermediate f = true) ->
       SchemaNode (putFieldSchema s parts f').
Proof.
  induction parts as [|part rest IH]; intros s f Hs Hget; [discriminate|].
  inversion Hs as [node Hnd Hprops Hitems]; subst.
  cbn [getFieldSchemaParts getMember] in Hget. cbn [putFieldSchema].
  destruct (getProp node "properties") as [p|] eqn:Ep; [|discriminate].
  destruct (Hprops p eq_refl) as [po [-> [Hndp Hch]]].
  cbn [getMember truthy negb orb] in Hget.
  destruct (getProp po (partKey part)) as [next|] eqn:En; [|discriminate].
  destruct (Hch _ _ En) as [Hnext Hnreq].
  destruct (SchemaNode_is_object _ Hnext) as [no ->].
  cbn [truthy negb] in Hget.
  destruct rest as [|part' rest'].
  - inversion Hget; subst. split; [exact Hnext|]. intros f' Hf' Hint.
    apply (store_SchemaNode node po (partKey part) f' Hnd Ep Hndp Hch Hitems Hf').
    intros Hi. apply Hnreq. now apply Hint.
  - destruct (partIsArray part).
    + inversion Hnext as [o Hnd' Hprops' Hitems']; subst.
      cbn [getMember] in Hget.
      destruct (getProp no "items") as [items|] eqn:Ei.
      * specialize (Hitems' items eq_refl).
        destruct (SchemaNode_is_object _ Hitems') as [io ->].
        cbn [nullish isNullish] in Hget.
        destruct (IH _ _ Hitems' Hget) as [Hf Hput].
        split; [exact Hf|]. intros f' Hf' Hint.
        apply (store_SchemaNode node po (partKey part) _ Hnd Ep Hndp Hch Hitems).
        -- apply setItems_SchemaNode; [exact Hnext | now apply Hput].
        -- intros _. apply Hnreq. simpl. unfold hasOwn. rewrite Ei. apply orb_true_r.
      * cbn [nullish isNullish] in Hget. discriminate.
    + destruct (IH _ _ Hnext Hget) as [Hf Hput].
      split; [exact Hf|]. intros f' Hf' Hint.
      apply (store_SchemaNode node po (partKey part) _ Hnd Ep Hndp Hch Hitems).
      * now apply Hput.
      * intros _. apply Hnreq. eapply getFieldSchemaParts_intermediate. exact Hget.
Qed.

Lemma putFieldSchema_object o parts f' :
  exists o', putFieldSchema (VObj o) parts f' = VObj o'.
Proof.
  destruct parts as [|part rest]; [eexists; reflexivity|].
  cbn [putFieldSchema].
  destruct (getProp o "properties") as [[ | | | | | |properties]|];
    try (eexists; reflexivity).
  destruct rest as [|part' rest'];
    destruct (getProp properties (partKey part)) as [[ | | | | | |next]|];
    try (eexists; reflexivity).
  destruct (partIsArray part); [|eexists; reflexivity].
  destruct (getProp next "items"); eexists; reflexivity.
Qed.

(** [putFieldSchema] writes where [getFieldSchema] reads: looking the path
    up again finds the node that was written back. *)
Lemma getFieldSchemaParts_putFieldSchema parts : forall s f f',
  SchemaNode s -> getFieldSchemaParts s parts = Some f -> SchemaNode f' ->
  getFieldSchemaParts (putFieldSchema s parts f') parts = Some f'.
Proof.
  induction parts as [|part rest IH]; intros s f f' Hs Hget Hf'; [discriminate|].
  inversion Hs as [node Hnd Hprops Hitems]; subst.
  destruct (SchemaNode_is_object _ Hf') as [fo ->].
  cbn [getFieldSchemaParts getMember] in Hget. cbn [putFieldSchema].
  destruct (getProp node "properties") as [p|] eqn:Ep; [|discriminate].
  destruct (Hprops p eq_refl) as [po [-> [Hndp Hch]]].
  cbn [getMember truthy negb orb] in Hget.
  destruct (getProp po (partKey part)) as [next|] eqn:En; [|discriminate].
  destruct (Hch _ _ En) as [Hnext _].
  destruct (SchemaNode_is_object _ Hnext) as [no ->].
  cbn [truthy negb] in Hget.
  destruct rest as [|part' rest'].
  - cbn [getFieldSchemaParts getMember].
    rewrite getProp_setProp_same. cbn [getMember]. rewrite getProp_setProp_same.
    reflexivity.
  - destruct (partIsArray part) eqn:Earr.
    + inversion Hnext as [o Hnd' Hprops' Hitems']; subst.
      cbn [getMember] in Hget.
      destruct (getProp no "items") as [items|] eqn:Ei.
      * specialize (Hitems' items eq_refl).
        destruct (SchemaNode_is_object _ Hitems') as [io ->].
        cbn [nullish isNullish] in Hget.
        pose proof (IH _ _ _ Hitems' Hget Hf') as Hrec.
        destruct (putFieldSchema_object io (part' :: rest') (VObj fo)) as [io' Eio].
        rewrite Eio in *.
        cbn [getFieldSchemaParts getMember].
        rewrite getProp_setProp_same. cbn [getMember truthy negb orb].
        rewrite getProp_setProp_same. cbn [truthy negb]. rewrite Earr.
        cbn [getMember]. rewrite getProp_setProp_same. cbn [nullish isNullish].
        exact Hrec.
      * cbn [nullish isNullish] in Hget. discriminate.
    + pose proof (IH _ _ _ Hnext Hget Hf') as Hrec.
      destruct (putFieldSchema_object no (part' :: rest') (VObj fo)) as [no' Eno].
      rewrite Eno in *.
      cbn [getFieldSchemaParts getMember].
      rewrite getProp_setProp_same. cbn [getMember truthy negb orb].
      rewrite getProp_setProp_same. cbn [truthy negb]. rewrite Earr.
      exact Hrec.
Qed.

Lemma applyInterpolationSchema_SchemaNode s p seg :
  SchemaNode s ->
  exists s', applyInterpolationSchema s p seg = Ok s' /\ SchemaNode s'.
Proof.
  intros Hs. apply ensurePathNode_SchemaNode; [exact Hs|].
  apply LeafOK_buildFieldSchema.
Qed.

Lemma ensureArrayPath_SchemaNode s p :
  SchemaNode s -> exists s', ensureArrayPath s p true = Ok s' /\ SchemaNode s'.
Proof.
  intros Hs. apply ensurePathNode_SchemaNode; [exact Hs | apply LeafOK_array].
Qed.

Lemma walkSegment_KeepsSchema s context metaSemantics segment :
  SchemaNode s -> KeepsSchema (walkSegment s context metaSemantics segment).
Proof.
  intros Hs. destruct segment as [text|seg]; [exact Hs|].
  cbn [walkSegment].
  set (resolvedPath := resolvePathWithAliases (path seg) (aliases context)).
  destruct (applyInterpolationSchema_SchemaNode s resolvedPath seg Hs) as [s1 [-> Hs1]].
  cbn [bind]. unfold getFieldSchema.
  destruct (getFieldSchemaParts s1 (normalizePath resolvedPath)) as [f|] eqn:Ef;
    [|exact Hs1].
  destruct (putFieldSchema_SchemaNode _ _ _ Hs1 Ef) as [Hf Hput].
  destruct (applySemantic_SchemaNode f (getProp metaSemantics resolvedPath) Hf)
    as [f1 [-> [Hf1 Hi1]]].
  cbn [bind].
  destruct (applySemantic_SchemaNode f1 (inlineSemantic context) Hf1)
    as [f2 [-> [Hf2 Hi2]]].
  cbn [bind KeepsSchema]. apply Hput; [exact Hf2|]. congruence.
Qed.

Lemma walkSegments_KeepsSchema segments : forall acc context metaSemantics,
  KeepsSchema acc ->
  KeepsSchema (fold_left
                 (fun acc segment =>
                    let* s := acc in walkSegment s context metaSemantics segment)
                 segments acc).
Proof.
  induction segments as [|seg segments IH]; intros acc context metaSemantics Hacc;
    [exact Hacc|].
  cbn [fold_left]. apply IH. destruct acc as [s|e]; [|exact Hacc].
  cbn [bind]. now apply walkSegment_KeepsSchema.
Qed.

Lemma walkIteration_KeepsSchema expr st :
  SchemaNode (fst st) ->
  match walkIteration expr st with
  | Ok st' => SchemaNode (fst st')
  | Throw e => exists msg, e = JsError msg
  end.
Proof.
  intros Hs. unfold walkIteration. destruct expr as [e|]; [|exact Hs].
  unfold parseIterationExpression.
  destruct (matchIteration (trim e)) as [parsed|]; cbn [bind]; [|now eexists].
  destruct (ensureArrayPath_SchemaNode (fst st)
              (resolvePathWithAliases (fst parsed) (snd st)) Hs) as [s1 [-> Hs1]].
  exact Hs1.
Qed.

Lemma walkNode_KeepsSchema node : forall schema context metaSemantics delimiter,
  SchemaNode schema ->
  KeepsSchema (walkNode node schema context metaSemantics delimiter).
Proof.
  induction node as [segments | tag attrs children IH] using DslNode_ind';
    intros schema context metaSemantics delimiter Hs.
  - cbn [walkNode]. now apply walkSegments_KeepsSchema.
  - cbn [walkNode]. destruct (tag =? "meta"); [exact Hs|].
    pose proof (walkIteration_KeepsSchema (attr attrs "data-page")
                  (schema, clonePathAliasMap (aliases context)) Hs) as H1.
    destruct (walkIteration (attr attrs "data-page")
                (schema, clonePathAliasMap (aliases context))) as [st1|e1];
      [|exact H1].
    cbn [bind].
    pose proof (walkIteration_KeepsSchema (attr attrs "data-repeat") st1 H1) as H2.
    destruct (walkIteration (attr attrs "data-repeat") st1) as [st2|e2]; [|exact H2].
    cbn [bind].
    assert (H3 : exists s3,
               match attr attrs "data-if" with
               | Some condition =>
                   applyInterpolationSchema (fst st2)
                     (resolvePathWithAliases condition (snd st2))
                     (mkInterpolation (resolvePathWithAliases condition (snd st2))
                                      TBoolean false [] [])
               | None => Ok (fst st2)
               end = Ok s3 /\ SchemaNode s3).
    { destruct (attr attrs "data-if");
        [now apply applyInterpolationSchema_SchemaNode | now exists (fst st2)]. }
    destruct H3 as [s3 [-> Hs3]]. cbn [bind].
    revert s3 Hs3.
    induction IH as [|child cs Hchild _ IHcs]; intros s3 Hs3; [exact Hs3|].
    pose proof (Hchild s3 (mkContext (snd st2)
                  (buildInlineSemantic attrs (inlineSemantic context) delimiter))
                  metaSemantics delimiter Hs3) as Hc.
    destruct (walkNode child s3 _ metaSemantics delimiter) as [s'|e]; [|exact Hc].
    cbn [bind]. now apply IHcs.
Qed.

Lemma SchemaNode_initialSchema : SchemaNode initialSchema.
Proof.
  constructor.
  - repeat constructor; simpl; intuition discriminate.
  - intros p [= <-]. exists []. split; [reflexivity|]. split; [constructor | discriminate].
  - discriminate.
Qed.

Lemma rawSchema_KeepsSchema root delimiterOption :
  KeepsSchema (rawSchema root delimiterOption).
Proof. apply walkNode_KeepsSchema. apply SchemaNode_initialSchema. Qed.

Lemma getMember_store node key child k :
  k <> "required" ->
  getMember (VObj (pushRequired (setProp node "properties" child) key)) k
  = getMember (VObj (setProp node "properties" child)) k.
Proof. intros Hk. simpl. now rewrite getProp_pushRequired_other. Qed.
















(** ** The sorted schema *)

Lemma includesKey_Permutation r r' k :
  Permutation r r' -> includesKey r k = includesKey r' k.
Proof.
  intros Hp. unfold includesKey.
  induction Hp as [|x l l' _ IH|x y l|l l' l'' _ IH1 _ IH2]; simpl.
  - reflexivity.
  - now rewrite IH.
  - now rewrite !orb_assoc, (orb_comm (match y with VStr s => s =? k | _ => false end)).
  - now rewrite IH1.
Qed.

Section SortedSchema.
Context {rt : JsRuntime}.

Lemma requires_sorted o k :
  NoDup (keys o) -> requires (stableSortObject (VObj o)) k = requires (VObj o) k.
Proof.
  intros Hnd. unfold requires. rewrite (getMember_sorted o _ Hnd).
  destruct (getMember (VObj o) "required") as [ | | | | |r|o']; try reflexivity.
  cbn. symmetry. apply includesKey_Permutation. apply stableSort_perm.
Qed.

Lemma sortValue_object k o : sortValue k (VObj o) = stableSortObject (VObj o).
Proof. reflexivity. Qed.

Lemma hasOwn_sorted o k :
  NoDup (keys o) ->
  hasOwn (fromEntries (stableSort entryLe
            (map (fun kv => (fst kv, sortValue (fst kv) (snd kv))) o))) k
  = hasOwn o k.
Proof.
  intros Hnd. unfold hasOwn. rewrite (getProp_sorted o k Hnd).
  now destruct (getProp o k).
Qed.

Lemma isIntermediate_sorted c :
  SchemaNode c -> isIntermediate (stableSortObject c) = isIntermediate c.
Proof.
  intros Hs. inversion Hs as [o Hnd _ _]; subst.
  rewrite stableSortObject_VObj. cbn [isIntermediate].
  now rewrite !hasOwn_sorted.
Qed.

Lemma propertyOf_sorted s k :
  SchemaNode s ->
  propertyOf (stableSortObject s) k = stableSortObject (propertyOf s k).
Proof.
  intros Hs. inversion Hs as [o Hnd Hprops _]; subst.
  unfold propertyOf, propertiesOf. rewrite (getMember_sorted o _ Hnd).
  cbn [getMember]. destruct (getProp o "properties") as [p|] eqn:Ep; [|reflexivity].
  destruct (Hprops p eq_refl) as [po [-> [Hndp Hch]]].
  rewrite sortValue_object, (getMember_sorted po k Hndp). cbn [getMember].
  destruct (getProp po k) as [c|] eqn:Ec; [|reflexivity].
  destruct (Hch k c Ec) as [Hc _]. destruct (SchemaNode_is_object _ Hc) as [co ->].
  reflexivity.
Qed.

Lemma itemsOf_sorted s :
  SchemaNode s -> itemsOf (stableSortObject s) = stableSortObject (itemsOf s).
Proof.
  intros Hs. inversion Hs as [o Hnd _ Hitems]; subst.
  unfold itemsOf. rewrite (getMember_sorted o _ Hnd). cbn [getMember].
  destruct (getProp o "items") as [it|] eqn:Ei; [|reflexivity].
  destruct (SchemaNode_is_object _ (Hitems it eq_refl)) as [io ->]. reflexivity.
Qed.

Lemma typeOf_sorted s :
  SchemaNode s -> typeOf (stableSortObject s) = stableSortObject (typeOf s).
Proof.
  intros Hs. inversion Hs as [o Hnd _ _]; subst.
  unfold typeOf. rewrite (getMember_sorted o _ Hnd).
  now destruct (getMember (VObj o) "type").
Qed.

Lemma requires_sorted_node s k :
  SchemaNode s -> requires (stableSortObject s) k = requires s k.
Proof. intros Hs. inversion Hs; subst. now apply requires_sorted. Qed.

Lemma propertyOf_SchemaNode s k :
  SchemaNode s -> propertyOf s k <> VUndefined -> SchemaNode (propertyOf s k).
Proof.
  intros Hs. inversion Hs as [o Hnd Hprops _]; subst.
  unfold propertyOf, propertiesOf. cbn [getMember].
  destruct (getProp o "properties") as [p|] eqn:Ep; [|intros H; now contradiction H].
  destruct (Hprops p eq_refl) as [po [-> [Hndp Hch]]]. cbn [getMember].
  destruct (getProp po k) as [c|] eqn:Ec; [|intros H; now contradiction H].
  intros _. now apply (Hch k c Ec).
Qed.

Lemma itemsOf_SchemaNode s :
  SchemaNode s -> itemsOf s <> VUndefined -> SchemaNode (itemsOf s).
Proof.
  intros Hs. inversion Hs as [o Hnd _ Hitems]; subst.
  unfold itemsOf. cbn [getMember].
  destruct (getProp o "items") as [it|] eqn:Ei; [|intros H; now contradiction H].
  intros _. now apply Hitems.
Qed.


Lemma SchemaAt_SchemaNode s n : SchemaNode s -> SchemaAt s n -> SchemaNode n.
Proof.
  intros Hs Hat. induction Hat as [|n k c Hat IH Hc Hne|n it Hat IH Hit Hne].
  - exact Hs.
  - subst c. now apply propertyOf_SchemaNode.
  - subst it. now apply itemsOf_SchemaNode.
Qed.

(** Sorting keeps the shape of the schema. *)
Lemma SchemaNode_sorted_aux v :
  (SchemaNode v -> SchemaNode (stableSortObject v))
  /\ (forall po, v = VObj po -> forall k c, getProp po k = Some c ->
        SchemaNode c -> SchemaNode (stableSortObject c)).
Proof.
  induction v as [ | | b | n | s | l IH | o IH] using value_ind';
    try (split; [intros H; inversion H | discriminate]).
  rewrite Forall_forall in IH.
  assert (Hchild : forall k c, getProp o k = Some c ->
            SchemaNode c -> SchemaNode (stableSortObject c)).
  { intros k c Hk. apply getProp_In in Hk. apply (IH _ Hk). }
  split; [|intros po [= <-]; exact Hchild].
  intros Hs. inversion Hs as [o' Hnd Hprops Hitems]; subst.
  rewrite stableSortObject_VObj. constructor.
  - apply NoDup_keys_fromEntries.
  - intros p'. rewrite (getProp_sorted o _ Hnd).
    destruct (getProp o "properties") as [p|] eqn:Ep; [|discriminate].
    destruct (Hprops p eq_refl) as [po [-> [Hndp Hch]]].
    cbn [option_map]. rewrite sortValue_object, stableSortObject_VObj. intros [= <-].
    eexists. split; [reflexivity|]. split; [apply NoDup_keys_fromEntries|].
    intros k c'. rewrite (getProp_sorted po _ Hndp).
    destruct (getProp po k) as [c|] eqn:Ec; [|discriminate].
    destruct (Hch k c Ec) as [Hc Hreq].
    destruct (SchemaNode_is_object _ Hc) as [co Eco]. subst c.
    cbn [option_map]. rewrite sortValue_object. intros Heq.
    assert (Ec' : c' = stableSortObject (VObj co)) by congruence.
    subst c'. clear Heq. split.
    + apply getProp_In in Ep. destruct (IH _ Ep) as [_ Hgrand].
      apply (Hgrand po eq_refl k _ Ec Hc).
    + rewrite (isIntermediate_sorted _ Hc). intros Hi.
      rewrite <- stableSortObject_VObj, requires_sorted by exact Hnd. now apply Hreq.
  - intros it'. rewrite (getProp_sorted o _ Hnd).
    destruct (getProp o "items") as [it|] eqn:Ei; [|discriminate].
    pose proof (Hitems it eq_refl) as Hit.
    destruct (SchemaNode_is_object _ Hit) as [io Eio]. subst it.
    cbn [option_map]. rewrite sortValue_object. intros Heq.
    assert (Eit : it' = stableSortObject (VObj io)) by congruence.
    subst it'. now apply (Hchild "items").
Qed.

Lemma SchemaNode_sorted s : SchemaNode s -> SchemaNode (stableSortObject s).
Proof. apply SchemaNode_sorted_aux. Qed.

(** The schema [extractSchemaFromAst] returns is the sorted raw schema, and
    it has the shape of a schema. *)
Lemma extractSchemaFromAst_inv root delimiterOption s :
  extractSchemaFromAst root delimiterOption = Ok s ->
  exists raw, rawSchema root delimiterOption = Ok raw
              /\ SchemaNode raw /\ s = stableSortObject raw.
Proof.
  unfold extractSchemaFromAst.
  pose proof (rawSchema_KeepsSchema root delimiterOption) as Hk.
  destruct (rawSchema root delimiterOption) as [raw|e]; [|discriminate].
  cbn [bind]. intros [= <-]. now exists raw.
Qed.

End SortedSchema.

(** ** The example runtime is consistent *)

Lemma ascii_compare_trans x y z :
  Ascii.compare x y = Lt -> Ascii.compare y z = Lt -> Ascii.compare x z = Lt.
Proof.
  unfold Ascii.compare. rewrite !N.compare_lt_iff. lia.
Qed.

Lemma string_compare_trans a : forall b c,
  String.compare a b <> Gt -> String.compare b c <> Gt -> String.compare a c <> Gt.
Proof.
  induction a as [|x a IH]; intros [|y b] [|z c]; simpl; try congruence.
  destruct (Ascii.compare x y) eqn:Exy; try congruence;
    destruct (Ascii.compare y z) eqn:Eyz; try congruence; intros Hab Hbc.
  - apply Ascii.compare_eq_iff in Exy. apply Ascii.compare_eq_iff in Eyz. subst.
    assert (E : Ascii.compare z z = Eq).
    { unfold Ascii.compare. apply N.compare_refl. }
    rewrite E. now apply IH with b.
  - apply Ascii.compare_eq_iff in Exy. subst. now rewrite Eyz.
  - apply Ascii.compare_eq_iff in Eyz. subst. now rewrite Exy.
  - now rewrite (ascii_compare_trans x y z Exy Eyz).
Qed.

Lemma exampleRuntime_consistent : ConsistentCompare ExampleRuntime.exampleRuntime.
Proof.
  constructor; simpl.
  - intros a b. apply String.compare_antisym.
  - intros a b c. apply string_compare_trans.
Qed.

(** ** The schema compiler: canonical form and required paths *)

(** Every schema [extractSchemaFromAst] returns is in canonical deep-sorted
    form: the keys of every object are in the fixed order [keyOrder] (array
    index keys numerically, then the collation of [localeCompare]) and every
    [required] list is in the code unit order of its elements.  The
    comparator [localeCompare] is assumed consistent, as ECMAScript requires
    it to be. *)
Lemma extractSchemaFromAst_sorted
  (rt : JsRuntime) (consistent : ConsistentCompare rt)
  (root : DslNode) (delimiterOption : option string) (s : value) :
  extractSchemaFromAst root delimiterOption = Ok s -> canonical s.
Proof.
  intros H. destruct (extractSchemaFromAst_inv _ _ _ H) as [raw [_ [_ ->]]].
  apply stableSortObject_canonical.
Qed.

Lemma nestedTemplate_compiles (rt : JsRuntime) :
  exists s, extractSchemaFromAst nestedTemplate None = Ok s.
Proof.
  unfold extractSchemaFromAst.
  pose proof (rawSchema_KeepsSchema nestedTemplate None) as Hk.
  destruct (rawSchema nestedTemplate None) as [raw|e] eqn:E.
  - eexists. reflexivity.
  - vm_compute in E. discriminate.
Qed.

Lemma nestedSchema_sorted :
  @extractSchemaFromAst ExampleRuntime.exampleRuntime nestedTemplate None
  = Ok nestedSchema
  /\ @canonical ExampleRuntime.exampleRuntime nestedSchema.
Proof.
  assert (H : @extractSchemaFromAst ExampleRuntime.exampleRuntime nestedTemplate None
              = Ok nestedSchema) by reflexivity.
  split; [exact H|].
  exact (extractSchemaFromAst_sorted ExampleRuntime.exampleRuntime
           exampleRuntime_consistent nestedTemplate None nestedSchema H).
Qed.



(** C4. Compiling the template of the scenario, [{{ item.name:string }}]
    inside [data-repeat="contract.items as item"] inside
    [data-page="contracts as contract"], gives a schema in which [contracts]
    is a required array property, its item schema is an object with the
    required array property [items], and the item schema of that is an object
    with the required property [name] of type [string]. *)
Theorem nested_iteration_schema (rt : JsRuntime) :
  exists s,
    extractSchemaFromAst nestedTemplate None = Ok s
    /\ let contracts := propertyOf s "contracts" in
       let contract := itemsOf contracts in
       let items := propertyOf contract "items" in
       let item := itemsOf items in
       let name := propertyOf item "name" in
       requires s "contracts" = true
       /\ typeOf contracts = VStr "array"
       /\ typeOf contract = VStr "object"
       /\ requires contract "items" = true
       /\ typeOf items = VStr "array"
       /\ typeOf item = VStr "object"
       /\ requires item "name" = true
       /\ typeOf name = VStr "string".
Proof.
  destruct (nestedTemplate_compiles rt) as [s Hs]. exists s. split; [exact Hs|].
  destruct (extractSchemaFromAst_inv _ _ _ Hs) as [raw [Eraw [Hraw ->]]].
  vm_compute in Eraw. injection Eraw as Eval.
  assert (H1 : SchemaNode (propertyOf raw "contracts")).
  { apply propertyOf_SchemaNode; [exact Hraw | rewrite <- Eval; discriminate]. }
  assert (H2 : SchemaNode (itemsOf (propertyOf raw "contracts"))).
  { apply itemsOf_SchemaNode; [exact H1 | rewrite <- Eval; discriminate]. }
  assert (H3 : SchemaNode (propertyOf (itemsOf (propertyOf raw "contracts")) "items")).
  { apply propertyOf_SchemaNode; [exact H2 | rewrite <- Eval; discriminate]. }
  assert (H4 : SchemaNode
                 (itemsOf (propertyOf (itemsOf (propertyOf raw "contracts")) "items"))).
  { apply itemsOf_SchemaNode; [exact H3 | rewrite <- Eval; discriminate]. }
  assert (H5 : SchemaNode
                 (propertyOf
                    (itemsOf (propertyOf (itemsOf (propertyOf raw "contracts")) "items"))
                    "name")).
  { apply propertyOf_SchemaNode; [exact H4 | rewrite <- Eval; discriminate]. }
  cbv zeta.
  rewrite (propertyOf_sorted raw _ Hraw), (itemsOf_sorted _ H1),
    (propertyOf_sorted _ _ H2), (itemsOf_sorted _ H3), (propertyOf_sorted _ _ H4).
  rewrite (requires_sorted_node raw _ Hraw), (typeOf_sorted _ H1), (typeOf_sorted _ H2),
    (requires_sorted_node _ _ H2), (typeOf_sorted _ H3), (typeOf_sorted _ H4),
    (requires_sorted_node _ _ H4), (typeOf_sorted _ H5).
  rewrite <- Eval. repeat split.
Qed.

(** C3, the behaviour on a path interpolated twice.  The template
    [<p>{{ a:string }}</p><p>{{ a:string? }}</p>] compiles to a schema in
    which the type of [a] is the union of [string] and [null] and [a] is
    nevertheless listed as required: the second interpolation replaces the
    type, and nothing removes the name the first one added to [required]. *)
Theorem mixed_nullability_breaks_duality (rt : JsRuntime) :
  exists s,
    extractSchemaFromAst mixedNullability None = Ok s
    /\ typeOf (propertyOf s "a") = VArr [VStr "string"; VStr "null"]
    /\ requires s "a" = true.
Proof.
  pose proof (rawSchema_KeepsSchema mixedNullability None) as Hk.
  unfold extractSchemaFromAst.
  destruct (rawSchema mixedNullability None) as [raw|e] eqn:Eraw;
    [|vm_compute in Eraw; discriminate].
  cbn [KeepsSchema] in Hk. cbn [bind]. eexists. split; [reflexivity|].
  vm_compute in Eraw. injection Eraw as Eval.
  assert (H1 : SchemaNode (propertyOf raw "a")).
  { apply propertyOf_SchemaNode; [exact Hk | rewrite <- Eval; discriminate]. }
  rewrite (propertyOf_sorted raw _ Hk), (typeOf_sorted _ H1),
    (requires_sorted_node raw _ Hk).
  rewrite <- Eval. split; reflexivity.
Qed.

(** ** Iteration expressions *)

Lemma span_split p s :
  list_ascii_of_string s =
  (list_ascii_of_string (fst (span p s)) ++ list_ascii_of_string (snd (span p s)))%list.
Proof.
  induction s as [|c s IH]; simpl; [reflexivity|].
  destruct (p c); [|reflexivity].
  destruct (span p s) as [a b]. simpl in *. now rewrite IH.
Qed.

Lemma span_not_matching p s :
  forallb (fun c => negb (p c)) (list_ascii_of_string s) = true ->
  span p s = (EmptyString, s).
Proof.
  destruct s as [|c s]; simpl; [reflexivity|].
  intros H. apply andb_true_iff in H. destruct H as [H _].
  now destruct (p c).
Qed.

Lemma matchIteration_no_space s :
  forallb (fun c => negb (isWhite c)) (list_ascii_of_string s) = true ->
  matchIteration s = None.
Proof.
  intros H. unfold matchIteration. destruct s as [|c s']; [reflexivity|].
  destruct (isIdentStart c); [|reflexivity].
  pose proof (span_split isPathChar (String c s')) as Hsplit.
  destruct (span isPathChar (String c s')) as [p r1]. cbn [fst snd] in Hsplit.
  rewrite Hsplit, forallb_app in H. apply andb_true_iff in H. destruct H as [_ H].
  rewrite (span_not_matching isWhite r1 H). reflexivity.
Qed.

(** C6, what the code does with a bare source path.  An iteration
    expression without white space, such as [items], does not match the
    pattern of [parseIterationExpression], which demands [as] and an alias:
    the function throws instead of falling back to a default alias. *)
Theorem bare_iteration_path_throws (expr : string) :
  forallb (fun c => negb (isWhite c)) (list_ascii_of_string (trim expr)) = true ->
  parseIterationExpression expr
  = Throw (JsError ("Invalid iteration expression: " ++ expr)).
Proof.
  intros H. unfold parseIterationExpression.
  now rewrite (matchIteration_no_space _ H).
Qed.

Lemma bare_iteration_path_throws_witness :
  parseIterationExpression "items"
  = Throw (JsError "Invalid iteration expression: items").
Proof. apply (bare_iteration_path_throws "items"). reflexivity. Defined.

(** ** Numbers of rows *)

Lemma parseInt_integral s : integral (parseInt s).
Proof.
  unfold parseInt, integral.
  destruct (match trimStart s with
            | String "-" r => (true, r)
            | String "+" r => (false, r)
            | _ => (false, trimStart s)
            end) as [neg body].
  destruct (digitsPrefix body None) as [z|]; [|now left].
  destruct neg; [destruct (z =? 0)%Z|]; eauto.
Qed.

Lemma mathMin_cases a b : mathMin a b = NNaN \/ mathMin a b = a \/ mathMin a b = b.
Proof. unfold mathMin. destruct (isNaN a || isNaN b), (numLe a b); auto. Qed.

Lemma mathMax_cases a b : mathMax a b = NNaN \/ mathMax a b = a \/ mathMax a b = b.
Proof. unfold mathMax. destruct (isNaN a || isNaN b), (numLe a b); auto. Qed.

Lemma maxCount_cases attributes :
  Renderer.maxCount attributes = NInf false \/ integral (Renderer.maxCount attributes).
Proof.
  unfold Renderer.maxCount. destruct (attr attributes "data-max-rows");
    [right; apply parseInt_integral | now left].
Qed.

Lemma fixedCount_integral attributes : integral (Renderer.fixedCount attributes).
Proof.
  unfold Renderer.fixedCount. destruct (attr attributes "data-fixed-rows");
    [apply parseInt_integral | right; right; now exists 0%Z].
Qed.

Lemma numNat_integral n : integral (numNat n).
Proof. right. right. now eexists. Qed.

Lemma effectiveLength_integral attributes items :
  integral (Renderer.effectiveLength attributes items).
Proof.
  unfold Renderer.effectiveLength.
  destruct (maxCount_cases attributes) as [E|Hi].
  - rewrite E. apply numNat_integral.
  - destruct (mathMin_cases (numNat (List.length items)) (Renderer.maxCount attributes))
      as [->|[->| ->]]; [now left | apply numNat_integral | exact Hi].
Qed.

Lemma totalRows_integral attributes items :
  integral (Renderer.totalRows attributes items).
Proof.
  unfold Renderer.totalRows.
  destruct (mathMax_cases (Renderer.effectiveLength attributes items)
                          (Renderer.fixedCount attributes)) as [->|[->| ->]];
    [now left | apply effectiveLength_integral | apply fixedCount_integral].
Qed.

(** The loop of [renderIteratedElement] terminates: its bound is never
    [+Infinity]. *)
Lemma totalRows_not_infinite attributes items :
  Renderer.totalRows attributes items <> NInf false.
Proof.
  destruct (totalRows_integral attributes items) as [E|[E|[z E]]];
    rewrite E; discriminate.
Qed.

Lemma loopCount_numZ z : loopCount (numZ z) = Z.to_nat z.
Proof. unfold loopCount, numZ. now rewrite Qceiling_Z. Qed.

(** While the loop runs, its bound is the number of its iterations. *)
Lemma integral_loopCount n index :
  integral n -> (index < loopCount n)%nat -> n = numNat (loopCount n).
Proof.
  intros [->|[->|[z ->]]].
  - simpl. lia.
  - simpl. lia.
  - rewrite loopCount_numZ. intros H. unfold numNat. f_equal. lia.
Qed.

Lemma numLe_numZ a b : numLe (numZ a) (numZ b) = (a <=? b)%Z.
Proof. unfold numLe, numZ, Qle_bool. simpl. now rewrite !Z.mul_1_r. Qed.

Lemma numLtb_numZ a b : numLtb (numZ a) (numZ b) = (a <? b)%Z.
Proof.
  unfold numLtb, numZ, Qle_bool. simpl. rewrite !Z.mul_1_r.
  now rewrite Z.ltb_antisym.
Qed.

Lemma numLtb_numNat i e : numLtb (numNat i) (numZ e) = (Z.of_nat i <? e)%Z.
Proof. apply numLtb_numZ. Qed.

Lemma mathMin_numZ a b : mathMin (numZ a) (numZ b) = numZ (Z.min a b).
Proof.
  unfold mathMin. cbn [isNaN numZ orb]. fold (numZ a) (numZ b).
  rewrite numLe_numZ. destruct (Z.leb_spec a b); f_equal; lia.
Qed.

Lemma mathMax_numZ a b : mathMax (numZ a) (numZ b) = numZ (Z.max a b).
Proof.
  unfold mathMax. cbn [isNaN numZ orb]. fold (numZ a) (numZ b).
  rewrite numLe_numZ. destruct (Z.leb_spec a b); f_equal; lia.
Qed.

Lemma mathMin_infinity a : mathMin (numZ a) (NInf false) = numZ a.
Proof. reflexivity. Qed.

(** ** The renderer: iteration *)

Import Renderer.

Lemma iterationContexts_length attributes alias items context :
  List.length (iterationContexts attributes alias items context)
  = loopCount (totalRows attributes items).
Proof. unfold iterationContexts. now rewrite length_map, length_seq. Qed.

Lemma iterationContexts_nth attributes alias items context index ctx :
  nth_error (iterationContexts attributes alias items context) index = Some ctx ->
  (index < loopCount (totalRows attributes items))%nat
  /\ ctx = withAliases context
             (iterationAliases (aliases context) alias items
                (effectiveLength attributes items) (totalRows attributes items) index).
Proof.
  unfold iterationContexts. rewrite nth_error_map, nth_error_seq.
  destruct (Nat.ltb_spec index (loopCount (totalRows attributes items))) as [Hlt|Hge];
    [|discriminate].
  cbn. intros [= <-]. split; [exact Hlt | reflexivity].
Qed.

Lemma getByParts_undefined parts : getByParts VUndefined parts = VUndefined.
Proof. destruct parts; reflexivity. Qed.

Lemma getByParts_empty_object parts :
  parts <> [] -> getByParts (VObj []) parts = VUndefined.
Proof.
  destruct parts as [|key rest]; [contradiction|]. intros _. cbn.
  apply getByParts_undefined.
Qed.

(** [renderElement] hands an element with a page or a repeat attribute to
    [renderIteratedElement], which renders one instance per context of
    [iterationContexts] and joins them. *)
Lemma renderIteratedElement_instances
  tagName attributes renderChildren expression context p alias items :
  parseIterationExpression expression = Ok (p, alias) ->
  getByPath (data context) (aliases context) p = VArr items ->
  renderIteratedElement tagName attributes renderChildren expression context
  = let* rendered :=
      mapM (renderElementOnce tagName attributes renderChildren)
           (iterationContexts attributes alias items context) in
    Ok (join EmptyString rendered).
Proof.
  intros Hparse Hlist. unfold renderIteratedElement.
  rewrite Hparse. cbn [bind fst snd]. now rewrite Hlist.
Qed.

Lemma renderElement_iterated tagName attributes renderChildren context expression :
  attr attributes "data-page" = Some expression
  \/ (attr attributes "data-page" = None
      /\ attr attributes "data-repeat" = Some expression) ->
  renderElement tagName attributes renderChildren context
  = renderIteratedElement tagName attributes renderChildren expression context.
Proof.
  unfold renderElement. intros [-> | [-> ->]]; reflexivity.
Qed.

(** C10. Whether the expression comes from [data-page] or from
    [data-repeat], [renderElement] renders one instance per context of
    [iterationContexts], and in the alias scope of the instance of index [i]
    the name [$index] is bound to [i] and the name [$page] to an object with
    [index = i], [number = i + 1] and [count] the number of instances,
    padding rows included. *)
Theorem iteration_companions
  (tagName : string) (attributes : list (string * string))
  (renderChildren : RenderContext -> result string) (context : RenderContext)
  (expression p alias : string) (items : list value) :
  attr attributes "data-page" = Some expression
  \/ (attr attributes "data-page" = None
      /\ attr attributes "data-repeat" = Some expression) ->
  parseIterationExpression expression = Ok (p, alias) ->
  getByPath (data context) (aliases context) p = VArr items ->
  let instances := iterationContexts attributes alias items context in
  renderElement tagName attributes renderChildren context
  = (let* rendered :=
       mapM (renderElementOnce tagName attributes renderChildren) instances in
     Ok (join EmptyString rendered))
  /\ forall index ctx,
       nth_error instances index = Some ctx ->
       getProp (aliases ctx) "$index" = Some (VNum (numNat index))
       /\ getProp (aliases ctx) "$page"
          = Some (VObj [("index", VNum (numNat index));
                        ("number", VNum (numNat (index + 1)));
                        ("count", VNum (numNat (List.length instances)))]).
Proof.
  intros Hattr Hparse Hlist instances. split.
  - rewrite (renderElement_iterated _ _ _ _ _ Hattr).
    now apply renderIteratedElement_instances with (p := p).
  - intros index ctx Hnth. unfold instances in *.
    destruct (iterationContexts_nth _ _ _ _ _ _ Hnth) as [Hlt ->].
    rewrite iterationContexts_length.
    rewrite <- (integral_loopCount _ index (totalRows_integral attributes items) Hlt).
    cbn [aliases withAliases]. unfold iterationAliases. split.
    + rewrite getProp_setProp_other by discriminate. apply getProp_setProp_same.
    + apply getProp_setProp_same.
Qed.

Lemma iteration_companions_witness :
  exists ctx,
    nth_error (iterationContexts rowAttributes "item" rowItems rowContext) 4 = Some ctx
    /\ getProp (aliases ctx) "$index" = Some (VNum (numNat 4))
    /\ getProp (aliases ctx) "$page"
       = Some (VObj [("index", VNum (numNat 4));
                     ("number", VNum (numNat 5));
                     ("count", VNum (numNat 5))]).
Proof.
  eexists. split; [reflexivity|].
  apply (proj2 (iteration_companions "tr" rowAttributes
                  (fun _ => Ok EmptyString) rowContext "items as item" "items" "item"
                  rowItems
                  (or_intror (conj eq_refl eq_refl)) eq_refl eq_refl) 4%nat).
  reflexivity.
Defined.

Lemma rowLimit_maxCount attributes M :
  rowLimit attributes "data-max-rows" M ->
  maxCount attributes = match M with Some m => numZ m | None => NInf false end.
Proof.
  unfold rowLimit, maxCount. destruct M as [m|].
  - intros [a [-> [Ha _]]]. exact Ha.
  - intros ->. reflexivity.
Qed.

Lemma rowLimit_fixedCount attributes F :
  rowLimit attributes "data-fixed-rows" F ->
  fixedCount attributes = numZ (match F with Some f => f | None => 0 end).
Proof.
  unfold rowLimit, fixedCount. destruct F as [f|].
  - intros [a [-> [Ha _]]]. exact Ha.
  - intros ->. reflexivity.
Qed.

Lemma mapM_ext {A B} (f g : A -> result B) l :
  (forall x, In x l -> f x = g x) -> mapM f l = mapM g l.
Proof.
  induction l as [|x l IH]; intros H; [reflexivity|].
  cbn [mapM]. rewrite (H x (or_introl eq_refl)), IH; [reflexivity|].
  intros y Hy. apply H. now right.
Qed.

(** An element without a condition of its own, other than [meta], is
    rendered as its markup. *)
Lemma renderElementOnce_unconditional
  tagName attributes renderChildren context :
  attr attributes "data-if" = None -> tagName <> "meta" ->
  renderElementOnce tagName attributes renderChildren context
  = elementMarkup tagName attributes renderChildren context.
Proof.
  intros Hif Hmeta. unfold renderElementOnce, elementMarkup. rewrite Hif.
  apply String.eqb_neq in Hmeta. now rewrite Hmeta.
Qed.

(** A [meta] element is rendered as the empty text, whatever its
    attributes. *)
Lemma renderElementOnce_meta attributes renderChildren context :
  renderElementOnce "meta" attributes renderChildren context = Ok EmptyString.
Proof.
  unfold renderElementOnce. cbn [String.eqb Ascii.eqb Bool.eqb].
  now destruct (attr attributes "data-if") as [c|]; [destruct (truthy _)|].
Qed.

Lemma mapM_empty {A} (f : A -> result string) l :
  (forall x, In x l -> f x = Ok EmptyString) ->
  exists rendered, mapM f l = Ok rendered /\ join EmptyString rendered = EmptyString.
Proof.
  induction l as [|x l IH]; intros H; [now exists []|].
  destruct IH as [rendered [E Hj]]; [intros y Hy; apply H; now right|].
  exists (EmptyString :: rendered). cbn [mapM].
  rewrite (H x (or_introl eq_refl)), E. cbn [bind]. split; [reflexivity|].
  unfold join in *. destruct rendered as [|r rs]; [reflexivity|].
  cbn [String.concat append] in *. exact Hj.
Qed.

(** C1, as amended.  Let the iteration expression parse to a source path
    and an alias other than [__proto__], let the path resolve to an array of
    [N] items, and let [data-max-rows] hold the integer [M] or be absent and
    [data-fixed-rows] hold the integer [F] or be absent (integers as
    [parseInt] reads them, in the safe range).  Then the loop of
    [renderIteratedElement] runs [max (min N M) F] times ([M] read as
    infinity and [F] as 0 when absent) and the result is the markup of its
    iterations, in order.  An element that has no [data-if] of its own and is
    not a [meta] element is emitted in every iteration: the result is the
    concatenation of that many instances of its markup.  With a [data-if],
    an iteration emits the markup where the condition is truthy in its scope
    and nothing where it is falsy (a path that finds no own property is
    falsy when it names no inherited member either); a [meta] element is
    never emitted.  In the iteration of index
    [i] the alias, when it is neither [$index] nor [$page], is bound to the
    item of index [i] when [i < min N M] and to an empty object otherwise,
    in which case a path through the alias resolves to [undefined] when the
    name after the alias is not the name of a member of
    [Object.prototype]. *)
Theorem row_count_law
  (tagName : string) (attributes : list (string * string))
  (renderChildren : RenderContext -> result string) (context : RenderContext)
  (expression p alias : string) (items : list value) (M F : option Z) :
  parseIterationExpression expression = Ok (p, alias) ->
  getByPath (data context) (aliases context) p = VArr items ->
  rowLimit attributes "data-max-rows" M ->
  rowLimit attributes "data-fixed-rows" F ->
  alias <> "__proto__" ->
  let N := Z.of_nat (List.length items) in
  let E := match M with Some m => Z.min N m | None => N end in
  let T := Z.max E (match F with Some f => f | None => 0 end) in
  let instances := iterationContexts attributes alias items context in
  List.length instances = Z.to_nat T
  /\ renderIteratedElement tagName attributes renderChildren expression context
     = (let* rendered :=
          mapM (renderElementOnce tagName attributes renderChildren) instances in
        Ok (join EmptyString rendered))
  /\ (attr attributes "data-if" = None -> tagName <> "meta" ->
      renderIteratedElement tagName attributes renderChildren expression context
      = (let* rendered :=
           mapM (elementMarkup tagName attributes renderChildren) instances in
         Ok (join EmptyString rendered)))
  /\ (tagName = "meta" ->
      renderIteratedElement tagName attributes renderChildren expression context
      = Ok EmptyString)
  /\ (forall index ctx conditionPath,
        nth_error instances index = Some ctx ->
        attr attributes "data-if" = Some conditionPath ->
        let condition := getByPath (data ctx) (aliases ctx) conditionPath in
        (truthy condition = true -> tagName <> "meta" ->
         renderElementOnce tagName attributes renderChildren ctx
         = elementMarkup tagName attributes renderChildren ctx)
        /\ (truthy condition = false ->
            (condition = VUndefined ->
             ownLookup (data ctx) (aliases ctx) conditionPath = true) ->
            renderElementOnce tagName attributes renderChildren ctx
            = Ok EmptyString))
  /\ forall index ctx,
       nth_error instances index = Some ctx ->
       data ctx = data context
       /\ aliases ctx
          = setProp
              (setProp
                 (setProp (cloneAliasMap (aliases context)) alias
                    (if (Z.of_nat index <? E)%Z then nth index items VUndefined
                     else VObj []))
                 "$index" (VNum (numNat index)))
              "$page"
              (VObj [("index", VNum (numNat index));
                     ("number", VNum (numNat (index + 1)));
                     ("count", VNum (numZ T))])
       /\ (alias <> "$index" -> alias <> "$page" ->
           ((Z.of_nat index < E)%Z ->
            exists item, nth_error items index = Some item
                         /\ getProp (aliases ctx) alias = Some item)
           /\ ((E <= Z.of_nat index)%Z ->
               getProp (aliases ctx) alias = Some (VObj [])
               /\ forall q key rest,
                    normalizePath q = alias :: key :: rest ->
                    inheritedName key = false ->
                    getByPath (data ctx) (aliases ctx) q = VUndefined)).
Proof.
  intros Hparse Hlist Hmax Hfix Hproto N E T instances.
  assert (Heff : effectiveLength attributes items = numZ E).
  { unfold effectiveLength, numNat. rewrite (rowLimit_maxCount _ _ Hmax).
    unfold E, N. destruct M as [m|]; [apply mathMin_numZ | apply mathMin_infinity]. }
  assert (Htot : totalRows attributes items = numZ T).
  { unfold totalRows. rewrite Heff, (rowLimit_fixedCount _ _ Hfix). apply mathMax_numZ. }
  assert (Hloop : renderIteratedElement tagName attributes renderChildren
                    expression context
                  = (let* rendered :=
                       mapM (renderElementOnce tagName attributes renderChildren)
                            instances in
                     Ok (join EmptyString rendered)))
    by now apply renderIteratedElement_instances with (p := p).
  split.
  { unfold instances. now rewrite iterationContexts_length, Htot, loopCount_numZ. }
  split; [exact Hloop|].
  split.
  { intros Hif Hmeta. rewrite Hloop. f_equal. apply mapM_ext.
    intros ctx _. now apply renderElementOnce_unconditional. }
  split.
  { intros ->. rewrite Hloop.
    destruct (mapM_empty (renderElementOnce "meta" attributes renderChildren)
                instances) as [rendered [-> Hj]].
    - intros ctx _. apply renderElementOnce_meta.
    - cbn [bind]. now rewrite Hj. }
  split.
  { intros index ctx conditionPath _ Hif condition.
    unfold renderElementOnce, elementMarkup. rewrite Hif. fold condition. split.
    - intros -> Hmeta. apply String.eqb_neq in Hmeta. now rewrite Hmeta.
    - now intros -> _. }
  intros index ctx Hnth. unfold instances in Hnth.
  destruct (iterationContexts_nth _ _ _ _ _ _ Hnth) as [Hlt ->].
  rewrite Htot, loopCount_numZ in Hlt.
  cbn [data aliases withAliases]. unfold iterationAliases.
  rewrite Heff, Htot, numLtb_numNat.
  split; [reflexivity|]. split; [reflexivity|].
  intros Hidx Hpage.
  assert (Hget : forall bound,
            getProp
              (setProp
                 (setProp (setProp (cloneAliasMap (aliases context)) alias bound)
                    "$index" (VNum (numNat index)))
                 "$page"
                 (VObj [("index", VNum (numNat index));
                        ("number", VNum (numNat (index + 1)));
                        ("count", VNum (numZ T))])) alias = Some bound).
  { intros bound. rewrite !getProp_setProp_other by congruence.
    apply getProp_setProp_same. }
  split.
  - intros HltE. apply Z.ltb_lt in HltE as Hb. rewrite Hb.
    exists (nth index items VUndefined). split; [|apply Hget].
    apply nth_error_nth'. unfold E, N in HltE. destruct M; lia.
  - intros Hge. apply Z.ltb_ge in Hge as Hb. rewrite Hb.
    split; [apply Hget|].
    intros q key rest Hq _. unfold getByPath. rewrite Hq, Hget.
    apply getByParts_empty_object. discriminate.
Qed.

Lemma row_count_law_witness :
  renderIteratedElement "tr" rowAttributes (fun _ => Ok "-") "items as item" rowContext
  = Ok "<tr>-</tr><tr>-</tr><tr>-</tr><tr>-</tr><tr>-</tr>".
Proof.
  rewrite (proj1 (proj2 (proj2
    (row_count_law "tr" rowAttributes
       (fun _ => Ok "-") rowContext "items as item" "items" "item"
       rowItems (Some 3%Z) (Some 5%Z)
       eq_refl eq_refl
       (ex_intro _ "3" (conj eq_refl (conj eq_refl eq_refl)))
       (ex_intro _ "5" (conj eq_refl (conj eq_refl eq_refl)))
       ltac:(discriminate)))) eq_refl ltac:(discriminate)).
  reflexivity.
Defined.

(** C1, the number of rows against the instances emitted.  The list of the
    renderer's own test has two items and no row limits, so the loop runs
    twice, but its [li] has a [data-if] that is falsy for the second item:
    one instance is emitted.  An alias [$index] is bound to the index, not
    to the item.  A repeated [meta] element emits nothing. *)
Lemma conditional_rows_emit_fewer :
  (loopCount (totalRows [("data-repeat", "items as item"); ("data-if", "item.enabled")]
                [VObj [("name", VStr "A"); ("enabled", VBool true)];
                 VObj [("name", VStr "B"); ("enabled", VBool false)]])
   = 2%nat
   /\ @renderAst ExampleRuntime.exampleRuntime enabledRows enabledData None
      = Ok "<ul><li>A</li></ul>"
   /\ occurrences "<li" "<ul><li>A</li></ul>" = 1%nat)
  /\ @renderAst ExampleRuntime.exampleRuntime indexAliasRows
       [("items", VArr [VStr "a"])] None
     = Ok "<ul><li>0</li></ul>"
  /\ @renderAst ExampleRuntime.exampleRuntime repeatedMeta
       [("items", VArr [VStr "a"; VStr "b"])] None
     = Ok "<head></head>".
Proof. repeat split; reflexivity. Qed.

(** ** The renderer: conditions *)

Lemma getProp_removeProp {A} (o : list (string * A)) k k' :
  getProp (removeProp o k) k' = if k =? k' then None else getProp o k'.
Proof.
  unfold removeProp. induction o as [|[k0 v0] o IH]; simpl.
  - now destruct (k =? k').
  - destruct (String.eqb_spec k0 k) as [->|Hne]; simpl.
    + rewrite IH. destruct (String.eqb_spec k k'); reflexivity.
    + rewrite IH. destruct (String.eqb_spec k0 k') as [->|]; [|reflexivity].
      destruct (String.eqb_spec k k'); [congruence | reflexivity].
Qed.

Lemma attr_removeProp attributes k k' :
  attr (removeProp attributes k) k' = if k =? k' then None else attr attributes k'.
Proof. unfold attr. rewrite getProp_removeProp. now destruct (k =? k'). Qed.

Lemma filter_removeProp {A} (f : string * A -> bool) (o : list (string * A)) k :
  (forall kv, fst kv = k -> f kv = false) ->
  filter f (removeProp o k) = filter f o.
Proof.
  intros Hf. unfold removeProp. induction o as [|kv o IH]; simpl; [reflexivity|].
  destruct (String.eqb_spec (fst kv) k) as [E|Hne]; simpl.
  - now rewrite (Hf kv E).
  - now rewrite IH.
Qed.

Lemma buildRenderedAttributes_without_condition attributes :
  buildRenderedAttributes (removeProp attributes "data-if")
  = buildRenderedAttributes attributes.
Proof.
  unfold buildRenderedAttributes.
  rewrite !attr_removeProp. cbn [String.eqb Ascii.eqb Bool.eqb].
  rewrite filter_removeProp; [reflexivity|].
  intros kv ->. reflexivity.
Qed.

Lemma truthy_false_iff v : truthy v = false <-> Falsy v.
Proof.
  unfold Falsy. split.
  - destruct v as [ | | b | n | s | l | o]; simpl; intros H; try discriminate.
    + auto 10.
    + auto 10.
    + rewrite H. auto.
    + destruct n as [q| | |neg]; try discriminate; auto 10.
      right. left. exists q. split; [reflexivity|].
      apply negb_false_iff, Z.eqb_eq in H. unfold Qeq. simpl. lia.
    + destruct s; [auto 10 | discriminate].
  - intros [->|[[q [-> Hq]]|[->|[->|[->|[->| ->]]]]]]; try reflexivity.
    simpl. apply negb_false_iff, Z.eqb_eq. unfold Qeq in Hq. simpl in Hq. lia.
Qed.

(** C7, as amended.  For an element whose [data-if] attribute holds a path
    that is not empty, [renderElementOnce] returns the empty text, without
    rendering any child, exactly when the path resolves in the current scope
    to a falsy value, and the falsy values are [false], [0], [-0], [NaN], the
    empty string, [null] and [undefined]; a path resolves to [undefined] when
    the lookup finds no property, and the own properties the embedding keeps
    decide that when the lookup names no inherited member.  For every other
    value, and for an empty [data-if] attribute, which is no condition, the
    element is rendered: the result is its markup, that is its opening tag
    with the rendered attributes, the markup of its children and its closing
    tag (the opening tag alone for a void element), but for a [meta]
    element, which is never rendered. *)
Theorem conditional_rendering
  (tagName : string) (attributes : list (string * string))
  (renderChildren : RenderContext -> result string) (context : RenderContext)
  (conditionPath : string) :
  getProp attributes "data-if" = Some conditionPath ->
  let condition := getByPath (data context) (aliases context) conditionPath in
  (truthy condition = false <-> Falsy condition)
  /\ (conditionPath <> EmptyString -> Falsy condition ->
      (condition = VUndefined ->
       ownLookup (data context) (aliases context) conditionPath = true) ->
      renderElementOnce tagName attributes renderChildren context = Ok EmptyString)
  /\ (conditionPath = EmptyString \/ ~ Falsy condition ->
      renderElementOnce tagName attributes renderChildren context
      = if tagName =? "meta" then Ok EmptyString
        else elementMarkup tagName attributes renderChildren context).
Proof.
  intros Hattr condition. split; [apply truthy_false_iff|].
  unfold renderElementOnce, elementMarkup, attr. rewrite Hattr. split.
  - intros Hne Hf _. apply truthy_false_iff in Hf.
    assert (Hn : nonEmpty conditionPath = true).
    { unfold nonEmpty. apply negb_true_iff. now apply String.eqb_neq. }
    rewrite Hn. fold condition. now rewrite Hf.
  - intros [-> | Hnf]; [reflexivity|].
    destruct (nonEmpty conditionPath); [|reflexivity].
    fold condition. destruct (truthy condition) eqn:Et; [reflexivity|].
    exfalso. apply Hnf. now apply truthy_false_iff.
Qed.

Lemma conditional_rendering_witness :
  renderElementOnce "li" [("data-if", "item.enabled")]
    (fun _ => Ok "B")
    (mkRenderContext [] [("item", VObj [("enabled", VBool false)])] "UTC")
  = Ok EmptyString
  /\ renderElementOnce "li" [("data-if", "item.enabled")]
       (fun _ => Ok "A")
       (mkRenderContext [] [("item", VObj [("enabled", VBool true)])] "UTC")
     = Ok "<li>A</li>".
Proof.
  split.
  - apply (proj1 (proj2
      (conditional_rendering "li"
         [("data-if", "item.enabled")] (fun _ => Ok "B")
         (mkRenderContext [] [("item", VObj [("enabled", VBool false)])] "UTC")
         "item.enabled" eq_refl))).
    + discriminate.
    + left. reflexivity.
    + reflexivity.
  - apply (proj2 (proj2
      (conditional_rendering "li"
         [("data-if", "item.enabled")] (fun _ => Ok "A")
         (mkRenderContext [] [("item", VObj [("enabled", VBool true)])] "UTC")
         "item.enabled" eq_refl))).
    right. unfold Falsy. cbn.
    intros [H|[[q [H _]]|[H|[H|[H|[H|H]]]]]]; discriminate.
Defined.

(** C7, an empty condition and a [meta] element.  An empty [data-if] is a
    path that resolves to [undefined], and the element is rendered; a [meta]
    element whose condition is truthy is not. *)
Lemma empty_condition_renders :
  (getByPath [] [] EmptyString = VUndefined
   /\ @renderAst ExampleRuntime.exampleRuntime emptyCondition [] None
      = Ok "<p>x</p>")
  /\ (truthy (getByPath [("ok", VBool true)] [] "ok") = true
      /\ @renderAst ExampleRuntime.exampleRuntime conditionalMeta
           [("ok", VBool true)] None
         = Ok "<head></head>").
Proof. repeat split; reflexivity. Qed.

(** ** The renderer: page breaks *)


(** C5, what the code renders for a page-level iteration.  The two
    instances of the [section] of [pagesTemplate] are rendered without any
    [style] attribute: no page break is put after the first instance. *)
Theorem page_instances_without_break (rt : JsRuntime) :
  renderAst pagesTemplate pagesData None
  = Ok "<section><p>One</p></section><section><p>Two</p></section>".
Proof. reflexivity. Qed.

(** ** The renderer: absent data *)

Lemma getByParts_primitive v parts :
  isPlainObject v = false -> isArray v = false -> parts <> [] ->
  getByParts v parts = VUndefined.
Proof.
  intros Ho Ha. destruct parts as [|key rest]; [contradiction|]. intros _.
  cbn [getByParts]. now rewrite Ho, Ha.
Qed.

Section AbsentData.
Context {rt : JsRuntime}.

(** A [default] filter replaces [null] and [undefined] by its argument. *)
Lemma default_substitutes v a context :
  isNullish v = true ->
  Filters.applySingleFilter v (mkFilter "default" [a]) context = Ok (VStr a).
Proof. intros H. unfold Filters.applySingleFilter. cbn. now rewrite H. Qed.

(** A value that is still [null] or [undefined] after the filters renders as
    the empty text. *)
Lemma nullish_renders_empty context seg v :
  Filters.applyFilters
    (getByPath (data context) (aliases context) (path seg)) (filters seg)
    (Filters.mkFilterContext (Some (Types.dataType seg)) (Some (timezone context)))
  = Ok v ->
  isNullish v = true ->
  renderSegment context (Interpolation seg) = Ok EmptyString.
Proof. intros H Hn. unfold renderSegment. rewrite H. cbn [bind]. now rewrite Hn. Qed.

End AbsentData.

(** C8, what the code does with [{{ x:number | fixed:101 }}] when [x] is
    absent.  The parser accepts the segment, the path resolves to
    [undefined], and the [fixed] filter converts it to the number 0 and
    calls [toFixed] with 101 digits, which raises a RangeError: rendering
    raises on absent data. *)
Theorem fixed_digits_out_of_range_throws (rt : JsRuntime) :
  stringToNumber "101" = numZ 101 ->
  ExpressionParser.parsedSegment fixedDigitsSegment = true
  /\ getByPath [] [] (path fixedDigitsSegment) = VUndefined
  /\ renderAst fixedDigitsTemplate [] None = Throw RangeError.
Proof.
  intros H. split; [reflexivity|]. split; [reflexivity|].
  unfold renderAst, fixedDigitsTemplate, fixedDigitsSegment. cbn.
  unfold Filters.applySingleFilter. cbn. rewrite H. reflexivity.
Qed.

Lemma fixed_digits_out_of_range_throws_witness :
  @renderAst ExampleRuntime.exampleRuntime fixedDigitsTemplate [] None
  = Throw RangeError.
Proof.
  exact (proj2 (proj2
    (fixed_digits_out_of_range_throws ExampleRuntime.exampleRuntime eq_refl))).
Defined.

(** ** Adequacy of the model of the schema compiler *)

Lemma queueCount_app q1 q2 :
  queueCount (q1 ++ q2)%list = (queueCount q1 + queueCount q2)%nat.
Proof.
  unfold queueCount. induction q1 as [|n q1 IH]; simpl; [reflexivity|].
  rewrite IH. lia.
Qed.

Lemma queueCount_filter cs : (queueCount (filter isElement cs) <= queueCount cs)%nat.
Proof.
  unfold queueCount. induction cs as [|c cs IH]; simpl; [lia|].
  destruct (isElement c); simpl; lia.
Qed.

(** The queue loop of [collectMetaSemantics] is given enough fuel: more fuel
    than the nodes in the queue changes nothing. *)
Lemma collectMetaLoop_fuel fuel : forall delimiter queue map extra,
  (queueCount queue <= fuel)%nat ->
  collectMetaLoop (fuel + extra) delimiter queue map
  = collectMetaLoop fuel delimiter queue map.
Proof.
  induction fuel as [|fuel IH]; intros delimiter queue map extra Hle.
  - destruct queue as [|n queue].
    + now destruct extra.
    + exfalso. cbn [queueCount fold_right] in Hle. destruct n; simpl in Hle; lia.
  - destruct queue as [|[segments|tag attrs children] queue]; [reflexivity| |].
    + cbn [Nat.add collectMetaLoop]. apply IH.
      cbn [queueCount fold_right nodeCount] in Hle. fold (queueCount queue) in Hle. lia.
    + cbn [Nat.add collectMetaLoop]. apply IH.
      cbn [queueCount fold_right nodeCount] in Hle.
      fold (queueCount queue) in Hle. fold (queueCount children) in Hle.
      rewrite queueCount_app. pose proof (queueCount_filter children). lia.
Qed.

Lemma collectMetaSemantics_fuel root delimiter extra :
  collectMetaLoop (nodeCount root + extra) delimiter [root] []
  = collectMetaSemantics root delimiter.
Proof.
  apply collectMetaLoop_fuel. cbn [queueCount fold_right]. lia.
Qed.

(** The only exception of [extractSchemaFromAst] is the one of
    [parseIterationExpression]: the traversal never assigns to a property of
    a value that is not an object. *)
Lemma extractSchemaFromAst_throws {rt : JsRuntime} root delimiterOption e :
  extractSchemaFromAst root delimiterOption = Throw e -> exists msg, e = JsError msg.
Proof.
  unfold extractSchemaFromAst.
  pose proof (rawSchema_KeepsSchema root delimiterOption) as Hk.
  destruct (rawSchema root delimiterOption) as [raw|e']; [discriminate|].
  cbn [bind]. intros [= <-]. exact Hk.
Qed.

(** An iteration over a source path that an earlier iteration has declared
    replaces the item schema: the leaf schema of [ensureArrayPath] brings a
    fresh [items], and the properties collected below the first iteration are
    gone. *)
Lemma repeated_iteration_replaces_items (rt : JsRuntime) :
  exists s,
    extractSchemaFromAst repeatedSource None = Ok s
    /\ propertyOf (itemsOf (propertyOf s "xs")) "a" = VUndefined.
Proof.
  pose proof (rawSchema_KeepsSchema repeatedSource None) as Hk.
  unfold extractSchemaFromAst.
  destruct (rawSchema repeatedSource None) as [raw|e] eqn:Eraw;
    [|vm_compute in Eraw; discriminate].
  cbn [KeepsSchema] in Hk. cbn [bind]. eexists. split; [reflexivity|].
  vm_compute in Eraw. injection Eraw as Eval.
  assert (H1 : SchemaNode (propertyOf raw "xs")).
  { apply propertyOf_SchemaNode; [exact Hk | rewrite <- Eval; discriminate]. }
  assert (H2 : SchemaNode (itemsOf (propertyOf raw "xs"))).
  { apply itemsOf_SchemaNode; [exact H1 | rewrite <- Eval; discriminate]. }
  rewrite (propertyOf_sorted raw _ Hk), (itemsOf_sorted _ H1), (propertyOf_sorted _ _ H2).
  rewrite <- Eval. reflexivity.
Qed.

(* ================================================================== *)
(** * Part III. Further properties of the sources                      *)
(* ================================================================== *)

(** ** Strings *)

Lemma chars_app a b : chars (a ++ b) = (chars a ++ chars b)%list.
Proof. unfold chars. induction a as [|c a IH]; simpl; [reflexivity | now rewrite IH]. Qed.

Lemma chars_concat_empty l : chars (join EmptyString l) = flat_map chars l.
Proof.
  unfold join. induction l as [|x l IH]; [reflexivity|].
  destruct l as [|y l].
  - simpl. now rewrite app_nil_r.
  - change (String.concat EmptyString (x :: y :: l))
      with (x ++ EmptyString ++ String.concat EmptyString (y :: l)).
    rewrite chars_app. cbn [append]. rewrite IH. reflexivity.
Qed.

Lemma mapM_Ok {A B} (f : A -> result B) l : forall ys,
  mapM f l = Ok ys -> Forall2 (fun x y => f x = Ok y) l ys.
Proof.
  induction l as [|x l IH]; intros ys H; cbn [mapM] in H.
  - injection H as <-. constructor.
  - destruct (f x) as [y|e] eqn:Ex; [|discriminate]. cbn [bind] in H.
    destruct (mapM f l) as [ys'|e]; [|discriminate]. cbn [bind] in H.
    injection H as <-. constructor; [exact Ex | now apply IH].
Qed.

(** ** dsl-utils.ts: escaping *)

Lemma replaceChar_forallb (p : ascii -> bool) c by_ s :
  forallb p (chars by_) = true ->
  (forall d, In d (chars s) -> d <> c -> p d = true) ->
  forallb p (chars (replaceChar c by_ s)) = true.
Proof.
  intros Hby. induction s as [|d s IH]; intros Hs; [reflexivity|].
  cbn [replaceChar]. destruct (Ascii.eqb_spec d c) as [->|Hne].
  - rewrite chars_app, forallb_app, Hby. apply IH.
    intros d' Hin. apply Hs. now right.
  - unfold chars in *. cbn [list_ascii_of_string forallb].
    rewrite (Hs d (or_introl eq_refl) Hne). apply IH.
    intros d' Hin. apply Hs. now right.
Qed.

Lemma forallb_In {A} (p : A -> bool) l x :
  forallb p l = true -> In x l -> p x = true.
Proof. intros H Hin. rewrite forallb_forall in H. now apply H. Qed.

Lemma escapeHtml_chars s :
  forallb (fun c => negb (isMarkupChar c)) (chars (escapeHtml s)) = true.
Proof.
  unfold escapeHtml.
  set (s1 := replaceChar "&" "&amp;" s).
  set (s2 := replaceChar "<" "&lt;" s1).
  set (s3 := replaceChar ">" "&gt;" s2).
  assert (H2 : forallb (fun c => negb (c =? "<")%char) (chars s2) = true).
  { apply replaceChar_forallb; [reflexivity|].
    intros d _ Hd. apply negb_true_iff. now apply Ascii.eqb_neq. }
  assert (H3 : forallb (fun c => negb ((c =? "<") || (c =? ">"))%char) (chars s3) = true).
  { apply replaceChar_forallb; [reflexivity|].
    intros d Hin Hd. pose proof (forallb_In _ _ _ H2 Hin) as Hlt. cbn beta in Hlt.
    apply negb_true_iff in Hlt. rewrite Hlt. cbn [orb].
    apply negb_true_iff. now apply Ascii.eqb_neq. }
  apply replaceChar_forallb; [reflexivity|].
  intros d Hin Hd. pose proof (forallb_In _ _ _ H3 Hin) as H. cbn beta in H.
  unfold isMarkupChar. apply negb_true_iff in H. rewrite H. cbn [orb].
  apply negb_true_iff. now apply Ascii.eqb_neq.
Qed.

(** X1. [escapeHtml] leaves no [<], no [>] and no double quote in its result,
    whatever the text is. *)
Theorem escapeHtml_markupFree s : markupFree (escapeHtml s).
Proof. exact (escapeHtml_chars s). Qed.

(** ** renderer.ts: text nodes *)

Lemma renderSegment_markupFree {rt : JsRuntime} context segment out :
  renderSegment context segment = Ok out -> markupFree out.
Proof.
  destruct segment as [text|seg]; cbn [renderSegment].
  - intros [= <-]. exact (escapeHtml_chars _).
  - destruct (Filters.applyFilters _ _ _) as [filtered|e]; [|discriminate].
    cbn [bind]. intros [= <-].
    destruct (isNullish filtered); [reflexivity | exact (escapeHtml_chars _)].
Qed.

(** X2. Whatever the data, the filters and the literal text of a text node, the
    markup rendered for it holds no [<], no [>] and no double quote: data
    cannot open a tag or close an attribute. *)
Theorem text_node_markupFree {rt : JsRuntime}
  (segments : list TextSegment) (context : RenderContext) (out : string) :
  renderNode (TextNode segments) context = Ok out -> markupFree out.
Proof.
  cbn [renderNode].
  destruct (mapM (renderSegment context) segments) as [parts|e] eqn:E; [|discriminate].
  cbn [bind]. intros [= <-]. apply mapM_Ok in E.
  unfold markupFree. rewrite chars_concat_empty.
  induction E as [|segment part segments parts Hseg _ IH]; [reflexivity|].
  cbn [flat_map]. rewrite forallb_app, IH, andb_true_r.
  exact (renderSegment_markupFree _ _ _ Hseg).
Qed.

Lemma text_node_markupFree_witness :
  markupFree "a &lt; b".
Proof.
  apply (@text_node_markupFree ExampleRuntime.exampleRuntime
           [Literal "a "; field "x" TString false; Literal " b"]
           (mkRenderContext [("x", VStr "<")] [] "UTC")).
  reflexivity.
Defined.

(** ** dsl-utils.ts: iteration expressions *)






Lemma isWhite_not_path c : isWhite c = true -> isPathChar c = false.
Proof.
  destruct c as [[] [] [] [] [] [] [] []]; vm_compute; congruence.
Qed.




(** ** dsl-utils.ts: paths and alias scopes *)

Lemma splitChar_not_nil sep s : splitChar sep s <> [].
Proof.
  destruct s as [|c s]; cbn [splitChar]; [discriminate|].
  destruct (Ascii.eqb c sep); [discriminate|].
  destruct (splitChar sep s); discriminate.
Qed.

Lemma splitChar_app sep a b :
  splitChar sep (a ++ String sep b) = (splitChar sep a ++ splitChar sep b)%list.
Proof.
  induction a as [|c a IH]; cbn [append splitChar].
  - now rewrite Ascii.eqb_refl.
  - destruct (Ascii.eqb c sep); [now rewrite IH|].
    rewrite IH. pose proof (splitChar_not_nil sep a) as Hne.
    destruct (splitChar sep a) as [|w ws]; [contradiction | reflexivity].
Qed.

Lemma splitChar_parts sep s x :
  In x (splitChar sep s) -> forallb (fun c => negb (Ascii.eqb c sep)) (chars x) = true.
Proof.
  revert x. induction s as [|c s IH]; intros x; cbn [splitChar].
  - intros [<-|[]]. reflexivity.
  - destruct (Ascii.eqb c sep) eqn:Ec.
    + intros [<-|Hin]; [reflexivity | now apply IH].
    + pose proof (splitChar_not_nil sep s) as Hne.
      destruct (splitChar sep s) as [|w ws]; [contradiction|].
      intros [<-|Hin].
      * unfold chars. cbn [list_ascii_of_string forallb]. rewrite Ec. cbn [negb andb].
        apply IH. now left.
      * apply IH. now right.
Qed.

Lemma splitChar_whole sep s :
  forallb (fun c => negb (Ascii.eqb c sep)) (chars s) = true -> splitChar sep s = [s].
Proof.
  induction s as [|c s IH]; [reflexivity|].
  unfold chars. cbn [list_ascii_of_string forallb splitChar].
  intros H. apply andb_true_iff in H. destruct H as [Hc Hs].
  apply negb_true_iff in Hc. rewrite Hc, (IH Hs). reflexivity.
Qed.

Lemma normalizePath_app a b :
  normalizePath (a ++ "." ++ b) = (normalizePath a ++ normalizePath b)%list.
Proof.
  unfold normalizePath. cbn [append]. now rewrite splitChar_app, filter_app.
Qed.

Lemma normalizePath_part x :
  nonEmpty x = true ->
  forallb (fun c => negb (Ascii.eqb c ".")) (chars x) = true ->
  normalizePath x = [x].
Proof.
  intros Hne Hx. unfold normalizePath. rewrite (splitChar_whole _ _ Hx).
  cbn [filter]. now rewrite Hne.
Qed.

Lemma normalizePath_join parts :
  Forall (fun x => nonEmpty x = true
                   /\ forallb (fun c => negb (Ascii.eqb c ".")) (chars x) = true) parts ->
  normalizePath (join "." parts) = parts.
Proof.
  induction 1 as [|x parts [Hne Hx] Hparts IH]; [reflexivity|].
  destruct parts as [|y parts].
  - now apply normalizePath_part.
  - change (join "." (x :: y :: parts)) with (x ++ "." ++ join "." (y :: parts)).
    now rewrite normalizePath_app, IH, (normalizePath_part x Hne Hx).
Qed.

Lemma normalizePath_parts p :
  Forall (fun x => nonEmpty x = true
                   /\ forallb (fun c => negb (Ascii.eqb c ".")) (chars x) = true)
         (normalizePath p).
Proof.
  apply Forall_forall. intros x Hin. unfold normalizePath in Hin.
  apply filter_In in Hin. destruct Hin as [Hin Hne]. split; [exact Hne|].
  now apply splitChar_parts with (s := p).
Qed.

(** X4. Resolving a path whose first part is an alias replaces that part by the
    parts of the path the alias stands for and keeps the other parts: the
    parts of [item.name], with [item] standing for [contract.items[]], are
    [contract], [items[]] and [name]. *)
Theorem resolvePathWithAliases_parts
  (p : string) (aliases : list (string * string)) (p0 aliasPath : string)
  (rest : list string) :
  normalizePath p = p0 :: rest ->
  attr aliases p0 = Some aliasPath ->
  normalizePath (resolvePathWithAliases p aliases)
  = (normalizePath aliasPath ++ rest)%list.
Proof.
  intros Hp Ha. unfold resolvePathWithAliases. rewrite Hp, Ha.
  destruct rest as [|r rest]; [now rewrite app_nil_r|].
  rewrite normalizePath_app, normalizePath_join; [reflexivity|].
  pose proof (normalizePath_parts p) as H. rewrite Hp in H. now inversion H.
Qed.

Lemma resolvePathWithAliases_parts_witness :
  normalizePath (resolvePathWithAliases "item.name" [("item", "contract.items[]")])
  = ["contract"; "items[]"; "name"].
Proof.
  apply (resolvePathWithAliases_parts "item.name" [("item", "contract.items[]")]
           "item" "contract.items[]" ["name"]); reflexivity.
Defined.

(** ** schema-extractor.ts: what a path holds after it is declared *)

Lemma ensurePathNode_object path current leaf required s' :
  path <> [] -> ensurePathNode current path leaf required = Ok s' ->
  exists o, s' = VObj o.
Proof.
  destruct path as [|part rest]; [contradiction|]. intros _ H.
  cbn [ensurePathNode] in H.
  destruct current as [ | | | | | |node]; try discriminate.
  destruct (getProp (ensureObjectProperties node) "properties")
    as [[ | | | | | |properties]|]; try discriminate.
  destruct rest as [|part' rest'].
  - injection H as <-. eexists. reflexivity.
  - destruct (partIsArray part).
    + destruct (nullish (getMember (VObj properties) (partKey part)) emptyArraySchema)
        as [ | | | | | |arrNode]; try discriminate.
      match type of H with
      | bind ?r _ = _ => destruct r; [|discriminate]
      end.
      cbn [bind] in H. injection H as <-. eexists. reflexivity.
    + match type of H with
      | bind ?r _ = _ => destruct r; [|discriminate]
      end.
      cbn [bind] in H. injection H as <-. eexists. reflexivity.
Qed.

Lemma getFieldSchemaParts_stored node properties key child part rest :
  partKey part = key ->
  getFieldSchemaParts
    (VObj (pushRequired
             (setProp node "properties" (VObj (setProp properties key (VObj child))))
             key))
    (part :: rest)
  = match rest with
    | [] => Some (VObj child)
    | _ :: _ =>
        if partIsArray part
        then getFieldSchemaParts (nullish (getMember (VObj child) "items") (VObj [])) rest
        else getFieldSchemaParts (VObj child) rest
    end.
Proof.
  intros <-. cbn [getFieldSchemaParts getMember].
  rewrite getProp_pushRequired_other by discriminate.
  rewrite getProp_setProp_same. cbn [getMember truthy negb orb].
  rewrite getProp_setProp_same. reflexivity.
Qed.

Lemma getFieldSchemaParts_stored_optional node properties key child part :
  partKey part = key ->
  getFieldSchemaParts
    (VObj (setProp node "properties" (VObj (setProp properties key (VObj child)))))
    [part]
  = Some (VObj child).
Proof.
  intros <-. cbn [getFieldSchemaParts getMember].
  rewrite getProp_setProp_same. cbn [getMember truthy negb orb].
  rewrite getProp_setProp_same. reflexivity.
Qed.

(** After [ensurePathNode], [getFieldSchema] finds at the path the leaf
    schema merged over what the path held before. *)
Lemma ensurePathNode_lookup path : forall current leaf required s',
  path <> [] ->
  ensurePathNode current path leaf required = Ok s' ->
  exists existing,
    getFieldSchemaParts s' path
    = Some (VObj (fromEntries (ownEntries existing ++ leaf)%list)).
Proof.
  induction path as [|part rest IH]; intros current leaf required s' Hne H;
    [contradiction|].
  cbn [ensurePathNode] in H.
  destruct current as [ | | | | | |node]; try discriminate.
  destruct (getProp (ensureObjectProperties node) "properties")
    as [[ | | | | | |properties]|] eqn:Ep; try discriminate.
  destruct rest as [|part' rest'].
  - injection H as <-.
    exists (nullish (getMember (VObj properties) (partKey part)) (VObj [])).
    destruct required.
    + now rewrite getFieldSchemaParts_stored.
    + now rewrite getFieldSchemaParts_stored_optional.
  - destruct (partIsArray part) eqn:Earr.
    + destruct (nullish (getMember (VObj properties) (partKey part)) emptyArraySchema)
        as [ | | | | | |arrNode]; try discriminate.
      match type of H with
      | bind (ensurePathNode ?it _ _ _) _ = _ =>
          destruct (ensurePathNode it (part' :: rest') leaf required) as [items|] eqn:E;
            [|discriminate]
      end.
      cbn [bind] in H. injection H as <-.
      destruct (ensurePathNode_object (part' :: rest') _ _ _ _ ltac:(discriminate) E) as [io ->].
      destruct (IH _ _ _ _ ltac:(discriminate) E) as [existing Hex].
      exists existing. rewrite getFieldSchemaParts_stored by reflexivity.
      rewrite Earr. cbn [getMember]. rewrite getProp_setProp_same.
      cbn [nullish isNullish]. exact Hex.
    + match type of H with
      | bind (ensurePathNode ?c _ _ _) _ = _ =>
          destruct (ensurePathNode c (part' :: rest') leaf required) as [objNode|] eqn:E;
            [|discriminate]
      end.
      cbn [bind] in H. injection H as <-.
      destruct (ensurePathNode_object (part' :: rest') _ _ _ _ ltac:(discriminate) E) as [oo ->].
      destruct (IH _ _ _ _ ltac:(discriminate) E) as [existing Hex].
      exists existing. rewrite getFieldSchemaParts_stored by reflexivity.
      rewrite Earr. exact Hex.
Qed.

Lemma getMember_merged existing leaf k v :
  NoDup (keys leaf) -> getProp leaf k = Some v ->
  getMember (VObj (fromEntries (ownEntries existing ++ leaf)%list)) k = v.
Proof.
  intros Hnd H. cbn [getMember].
  rewrite getProp_fromEntries, rev_app_distr, getProp_app.
  rewrite <- (getProp_Permutation leaf (rev leaf) k Hnd (Permutation_rev leaf)).
  now rewrite H.
Qed.

Lemma NoDup_keys_mapTypeToSchema t n : NoDup (keys (mapTypeToSchema t n)).
Proof.
  unfold mapTypeToSchema.
  destruct t; try apply NoDup_keys_setProp; repeat constructor; simpl; tauto.
Qed.

Lemma NoDup_keys_applyConstraint node c :
  NoDup (keys node) -> NoDup (keys (applyConstraint node c)).
Proof. intros H. destruct c; now apply NoDup_keys_setProp. Qed.

Lemma NoDup_keys_buildFieldSchema t n cs : NoDup (keys (buildFieldSchema t n cs)).
Proof.
  unfold buildFieldSchema. generalize (NoDup_keys_mapTypeToSchema t n).
  generalize (mapTypeToSchema t n) as node.
  induction cs as [|c cs IH]; intros node Hnd; [exact Hnd|].
  cbn [fold_left]. apply IH. now apply NoDup_keys_applyConstraint.
Qed.

Lemma getProp_applyConstraint_type node c :
  getProp (applyConstraint node c) "type" = getProp node "type".
Proof. destruct c; cbn [applyConstraint]; now rewrite getProp_setProp_other. Qed.

Lemma getProp_buildFieldSchema_type t n cs :
  getProp (buildFieldSchema t n cs) "type" = Some (declaredType t n).
Proof.
  unfold buildFieldSchema.
  assert (H : getProp (mapTypeToSchema t n) "type" = Some (declaredType t n)).
  { unfold mapTypeToSchema, declaredType.
    destruct t; try reflexivity; now rewrite getProp_setProp_other. }
  revert H. generalize (mapTypeToSchema t n) as node.
  induction cs as [|c cs IH]; intros node H; [exact H|].
  cbn [fold_left]. apply IH. now rewrite getProp_applyConstraint_type.
Qed.

(** X5. Right after an interpolation is declared, [getFieldSchema] finds a
    schema at its resolved path, and that schema has the declared type (the
    union with [null] for a nullable interpolation) and every keyword of the
    interpolation's constraints, whatever the path held before. *)
Theorem applyInterpolationSchema_lookup
  (schema : value) (p : string) (seg : InterpolationSegment) (s' : value) :
  applyInterpolationSchema schema p seg = Ok s' ->
  normalizePath p <> [] ->
  exists f,
    getFieldSchema s' p = Some f
    /\ typeOf f = declaredType (dataType seg) (nullable seg)
    /\ forall k v,
         getProp (buildFieldSchema (dataType seg) (nullable seg) (constraints seg)) k
         = Some v ->
         getMember f k = v.
Proof.
  intros H Hne. unfold applyInterpolationSchema in H.
  destruct (ensurePathNode_lookup _ _ _ _ _ Hne H) as [existing Hf].
  eexists. split; [exact Hf|]. split.
  - unfold typeOf. apply getMember_merged; [apply NoDup_keys_buildFieldSchema|].
    apply getProp_buildFieldSchema_type.
  - intros k v Hk. apply getMember_merged; [apply NoDup_keys_buildFieldSchema|exact Hk].
Qed.

Lemma applyInterpolationSchema_lookup_witness :
  exists s' f,
    applyInterpolationSchema initialSchema "a.b"
      (mkInterpolation "a.b" TDate true [] []) = Ok s'
    /\ getFieldSchema s' "a.b" = Some f
    /\ typeOf f = VArr [VStr "string"; VStr "null"]
    /\ getMember f "format" = VStr "date".
Proof.
  eexists.
  destruct (applyInterpolationSchema_lookup initialSchema "a.b"
              (mkInterpolation "a.b" TDate true [] []) _ eq_refl)
    as [f [Hf [Ht Hk]]]; [discriminate|].
  exists f. split; [reflexivity|]. split; [exact Hf|]. split; [exact Ht|].
  apply Hk. reflexivity.
Defined.

(** X6. [ensureArrayPath] leaves at the path an array schema whose item schema
    is the empty object schema, whatever the path held before: declaring an
    iteration over a source path a second time discards the properties
    collected for its items. *)
Theorem ensureArrayPath_resets_items
  (schema : value) (p : string) (required : bool) (s' : value) :
  ensureArrayPath schema p required = Ok s' ->
  normalizePath p <> [] ->
  exists f,
    getFieldSchema s' p = Some f
    /\ typeOf f = VStr "array"
    /\ itemsOf f = emptyObjectSchema.
Proof.
  intros H Hne. unfold ensureArrayPath in H.
  destruct (ensurePathNode_lookup _ _ _ _ _ Hne H) as [existing Hf].
  eexists. split; [exact Hf|].
  assert (Hnd : NoDup (keys [("type", VStr "array"); ("items", emptyObjectSchema)])).
  { repeat constructor; simpl; intuition discriminate. }
  split; [unfold typeOf | unfold itemsOf]; now apply getMember_merged.
Qed.

Lemma ensureArrayPath_resets_items_witness :
  exists s1 s2 s3 f,
    ensureArrayPath initialSchema "xs" true = Ok s1
    /\ applyInterpolationSchema s1 "xs[].a" (mkInterpolation "x.a" TString false [] [])
       = Ok s2
    /\ ensureArrayPath s2 "xs" true = Ok s3
    /\ getFieldSchema s3 "xs" = Some f
    /\ itemsOf f = emptyObjectSchema.
Proof.
  do 3 eexists.
  destruct (ensureArrayPath_resets_items
              (VObj
                 [("$schema", VStr "https://json-schema.org/draft/2020-12/schema");
                  ("type", VStr "object");
                  ("properties",
                   VObj
                     [("xs",
                       VObj
                         [("type", VStr "array");
                          ("items",
                           VObj
                             [("type", VStr "object");
                              ("properties", VObj [("a", VObj [("type", VStr "string")])]);
                              ("required", VArr [VStr "a"])])])]);
                  ("required", VArr [VStr "xs"])])
              "xs" true _ eq_refl)
    as [f [Hf [_ Hi]]]; [discriminate|].
  exists f. split; [reflexivity|]. split; [reflexivity|]. split; [reflexivity|].
  split; [exact Hf | exact Hi].
Defined.

(** ** schema-extractor.ts: when the compilation succeeds *)







(** ** filters.ts: the pipeline *)

Section FilterPipeline.
Context {rt : JsRuntime}.

Lemma applyFilters_Throw e fs context :
  fold_left (fun current filter =>
               let* c := current in Filters.applySingleFilter c filter context)
            fs (Throw e) = Throw e.
Proof. induction fs as [|f fs IH]; [reflexivity | exact IH]. Qed.

(** A pipeline of filters is the composition of its parts: the filters after
    a cut work on the result of the filters before it, and an exception of
    the first part ends the pipeline. *)
Lemma applyFilters_app (v : value) (fs1 fs2 : list Filter)
  (context : Filters.FilterContext) :
  Filters.applyFilters v (fs1 ++ fs2)%list context
  = (let* v' := Filters.applyFilters v fs1 context in
     Filters.applyFilters v' fs2 context).
Proof.
  unfold Filters.applyFilters. rewrite fold_left_app.
  destruct (fold_left _ fs1 (Ok v)) as [v'|e]; [reflexivity|].
  apply applyFilters_Throw.
Qed.

Lemma filterAccepted_name t f :
  ExpressionParser.filterAccepted t f = true ->
  In (name f) ["upper"; "lower"; "replace"; "pad-left"; "slice"; "default";
               "zenkaku"; "hankaku"; "comma"; "fixed"; "either"; "date-format"].
Proof.
  unfold ExpressionParser.filterAccepted.
  destruct (getProp (ExpressionParser.FILTER_SPECS t) (name f)) as [bounds|] eqn:E;
    [|discriminate].
  intros _. apply getProp_In in E.
  destruct t; cbn in E; repeat (destruct E as [E|E]; [inversion E; cbn; tauto|]);
    contradiction.
Qed.

Lemma accepted_filter_errors t f v context e :
  ExpressionParser.filterAccepted t f = true ->
  Filters.applySingleFilter v f context = Throw e ->
  e = RangeError \/ exists normalized tz, zonedParts normalized tz = Throw e.
Proof.
  intros Hacc. apply filterAccepted_name in Hacc.
  destruct f as [n a]. cbn [name] in Hacc.
  unfold Filters.applySingleFilter. cbn [name args].
  cbn [In] in Hacc.
  repeat (destruct Hacc as [<-|Hacc]; [cbn; try discriminate|]); try contradiction.
  - destruct (isFinite (Filters.numberOf v)); [|discriminate].
    unfold Filters.toFixed.
    destruct (toIntegerOrInfinity (stringToNumber (Filters.argOr a 0 "0"))) as [d|];
      [|cbn; intros [= <-]; now left].
    destruct ((d <? 0)%Z || (100 <? d)%Z); cbn; [intros [= <-]; now left | discriminate].
  - unfold Filters.formatDateValue.
    destruct (isNullish v); [discriminate|].
    destruct (Filters.dataType context) as [[]|];
      try (destruct (Filters.matchDate (jsToString v)) as [[[y m] d]|]; discriminate);
      try (destruct (Filters.matchTime (jsToString v)) as [[[h m] sec]|]; discriminate);
      match goal with
      | |- context [zonedParts ?n ?tz] =>
          destruct (zonedParts n tz) as [[parts|]|e'] eqn:Ez; cbn; try discriminate;
            intros [= <-]; right; now exists n, tz
      end.
Qed.

(** X8. The filters the parser accepts are the filters [applySingleFilter]
    knows: a pipeline of accepted filters never throws the error for an
    unknown filter.  On a value that [String] and [Number] convert, the only
    exceptions it can raise are a RangeError (the one of [toFixed]) and what
    the date formatter of the runtime throws. *)
Theorem accepted_pipeline_errors
  (t : DataType) (fs : list Filter) (v : value)
  (context : Filters.FilterContext) (e : exn) :
  forallb (ExpressionParser.filterAccepted t) fs = true ->
  stringifiable v = true ->
  Filters.applyFilters v fs context = Throw e ->
  e = RangeError \/ exists normalized tz, zonedParts normalized tz = Throw e.
Proof.
  intros Hacc _. revert v Hacc.
  induction fs as [|f fs IH]; intros v Hacc H; [discriminate|].
  cbn [forallb] in Hacc. apply andb_true_iff in Hacc. destruct Hacc as [Hf Hfs].
  change (f :: fs) with ([f] ++ fs)%list in H. rewrite applyFilters_app in H.
  unfold Filters.applyFilters at 1 in H. cbn [fold_left bind] in H.
  destruct (Filters.applySingleFilter v f context) as [v'|e'] eqn:E.
  - cbn [bind] in H. now apply (IH v').
  - cbn [bind] in H. injection H as <-. now apply (accepted_filter_errors t f v context).
Qed.

End FilterPipeline.

Lemma accepted_pipeline_errors_witness :
  RangeError = RangeError
  \/ exists normalized tz,
       @zonedParts ExampleRuntime.exampleRuntime normalized tz = Throw RangeError.
Proof.
  apply (@accepted_pipeline_errors ExampleRuntime.exampleRuntime TNumber
           [mkFilter "default" ["1"]; mkFilter "fixed" ["101"]] VUndefined
           (Filters.mkFilterContext (Some TNumber) None) RangeError);
    reflexivity.
Defined.

(** ** filters.ts: dates *)

Lemma append_assoc a b c : (a ++ b) ++ c = a ++ (b ++ c).
Proof. induction a as [|x a IH]; cbn; [reflexivity | now rewrite IH]. Qed.

Lemma takeDigits_spec n : forall s d r,
  Filters.takeDigits n s = Some (d, r) -> s = d ++ r /\ String.length d = n.
Proof.
  induction n as [|n IH]; intros s d r H; cbn [Filters.takeDigits] in H.
  - injection H as <- <-. now split.
  - destruct s as [|c s]; [discriminate|].
    destruct (isDigit c); [|discriminate].
    destruct (Filters.takeDigits n s) as [[d' r']|] eqn:E; [|discriminate].
    injection H as <- <-. destruct (IH _ _ _ E) as [-> Hlen].
    split; [reflexivity | cbn; now rewrite Hlen].
Qed.

Lemma expect_spec c s r : Filters.expect c s = Some r -> s = String c r.
Proof.
  destruct s as [|d s]; cbn; [discriminate|].
  destruct (Ascii.eqb_spec d c) as [->|]; [|discriminate]. now intros [= ->].
Qed.

Lemma matchDate_spec source y m d :
  Filters.matchDate source = Some (y, m, d) ->
  exists rest,
    source = (y ++ "-" ++ m ++ "-" ++ d) ++ rest
    /\ String.length y = 4%nat /\ String.length m = 2%nat /\ String.length d = 2%nat.
Proof.
  unfold Filters.matchDate.
  destruct (Filters.takeDigits 4 source) as [[y' r1]|] eqn:E1; [|discriminate].
  destruct (Filters.expect "-" r1) as [r2|] eqn:E2; [|discriminate].
  destruct (Filters.takeDigits 2 r2) as [[m' r3]|] eqn:E3; [|discriminate].
  destruct (Filters.expect "-" r3) as [r4|] eqn:E4; [|discriminate].
  destruct (Filters.takeDigits 2 r4) as [[d' r5]|] eqn:E5; [|discriminate].
  intros [= <- <- <-].
  destruct (takeDigits_spec _ _ _ _ E1) as [-> Hy].
  apply expect_spec in E2. subst r1.
  destruct (takeDigits_spec _ _ _ _ E3) as [-> Hm].
  apply expect_spec in E4. subst r3.
  destruct (takeDigits_spec _ _ _ _ E5) as [-> Hd].
  exists r5. split; [|now repeat split].
  now rewrite !append_assoc.
Qed.

Lemma length_append a b :
  String.length (a ++ b) = (String.length a + String.length b)%nat.
Proof. induction a as [|c a IH]; cbn; [reflexivity | now rewrite IH]. Qed.

Lemma append_empty_r s : s ++ EmptyString = s.
Proof. induction s as [|c s IH]; cbn; [reflexivity | now rewrite IH]. Qed.

Lemma applyDateTokens_date tokens :
  Filters.applyDateTokens "YYYY-MM-DD" tokens
  = YYYY tokens ++ "-" ++ MM tokens ++ "-" ++ DD tokens ++ EmptyString.
Proof. reflexivity. Qed.

Lemma formatDateValue_date {rt : JsRuntime} (source timezone y m d : string) :
  Filters.matchDate source = Some (y, m, d) ->
  Filters.formatDateValue (VStr source) (Some TDate) "YYYY-MM-DD" timezone
  = Ok (y ++ "-" ++ m ++ "-" ++ d).
Proof.
  intros E. unfold Filters.formatDateValue. cbn [isNullish jsToString]. rewrite E.
  now rewrite applyDateTokens_date, append_empty_r.
Qed.

(** X9. Formatting a [date] value with the pattern [YYYY-MM-DD] returns the ten
    characters of the date the value starts with, whatever the time zone: a
    date is not converted.  A value that does not start with a date is
    returned as it is. *)
Theorem date_format_round_trip {rt : JsRuntime} (source timezone : string) :
  match Filters.matchDate source with
  | Some _ =>
      exists out rest,
        Filters.formatDateValue (VStr source) (Some TDate) "YYYY-MM-DD" timezone
        = Ok out
        /\ source = out ++ rest /\ String.length out = 10%nat
  | None =>
      forall format,
        Filters.formatDateValue (VStr source) (Some TDate) format timezone
        = Ok source
  end.
Proof.
  destruct (Filters.matchDate source) as [[[y m] d]|] eqn:E.
  - destruct (matchDate_spec _ _ _ _ E) as [rest [Hs [Hy [Hm Hd]]]].
    exists (y ++ "-" ++ m ++ "-" ++ d), rest.
    split; [|split; [exact Hs|]].
    + exact (formatDateValue_date _ _ _ _ _ E).
    + rewrite !length_append, Hy, Hm, Hd. reflexivity.
  - intros format. unfold Filters.formatDateValue. cbn [isNullish jsToString].
    now rewrite E.
Qed.

Lemma hasOffset_Z s : Filters.hasOffset (s ++ "Z") = true.
Proof.
  unfold Filters.hasOffset. fold (chars (s ++ "Z")).
  rewrite chars_app, rev_app_distr. reflexivity.
Qed.

(** The string [formatDateValue] hands to [Date] for a [datetime] always
    carries an offset: a value without one gets the suffix [Z], so it is read
    as UTC and never as local time. *)
Lemma normalized_datetime_has_offset (source : string) :
  Filters.hasOffset (if Filters.hasOffset source then source else source ++ "Z")
  = true.
Proof.
  destruct (Filters.hasOffset source) eqn:E; [exact E | apply hasOffset_Z].
Qed.

(** ** renderer.ts: attributes *)

(** X10. The control attributes other than the two page-break attributes leave no
    trace in the rendered attributes: an element renders the same attributes
    with or without them. *)
Theorem control_attribute_not_rendered
  (attributes : list (string * string)) (k : string) :
  In k CONTROL_ATTRIBUTES ->
  k <> "data-break-before" -> k <> "data-break-after" ->
  buildRenderedAttributes (removeProp attributes k)
  = buildRenderedAttributes attributes.
Proof.
  intros Hin Hb Ha. unfold CONTROL_ATTRIBUTES in Hin. cbn [In] in Hin.
  repeat (destruct Hin as [<-|Hin];
          [try contradiction;
           unfold buildRenderedAttributes;
           rewrite !attr_removeProp; cbn [String.eqb Ascii.eqb Bool.eqb];
           (rewrite filter_removeProp; [reflexivity | intros kv ->; reflexivity])|]).
  contradiction.
Qed.

Lemma control_attribute_not_rendered_witness :
  buildRenderedAttributes
    (removeProp [("class", "row"); ("data-repeat", "items as item")] "data-repeat")
  = buildRenderedAttributes [("class", "row"); ("data-repeat", "items as item")].
Proof.
  apply (control_attribute_not_rendered
           [("class", "row"); ("data-repeat", "items as item")] "data-repeat").
  - cbn. tauto.
  - discriminate.
  - discriminate.
Defined.

(** ** renderer.ts: when rendering succeeds *)


Section RenderTotal.
Context {rt : JsRuntime}.








End RenderTotal.


(** ** Trimming *)

Lemma trimStart_fixed s :
  match s with String c _ => isWhite c = false | EmptyString => True end ->
  trimStart s = s.
Proof. destruct s as [|c s]; cbn; [reflexivity | now intros ->]. Qed.

Lemma trimStart_first s :
  match trimStart s with String c _ => isWhite c = false | EmptyString => True end.
Proof.
  induction s as [|c s IH]; cbn [trimStart]; [exact I|].
  destruct (isWhite c) eqn:E; [exact IH | exact E].
Qed.

Lemma trimEnd_first s :
  match s with String c _ => isWhite c = false | EmptyString => True end ->
  match trimEnd s with String c _ => isWhite c = false | EmptyString => True end.
Proof.
  destruct s as [|c s]; [trivial|]. cbn [trimEnd]. intros Hc.
  destruct (trimEnd s); [now rewrite Hc | exact Hc].
Qed.

Lemma trimEnd_idempotent s : trimEnd (trimEnd s) = trimEnd s.
Proof.
  induction s as [|c s IH]; [reflexivity|]. cbn [trimEnd].
  destruct (trimEnd s) as [|d r] eqn:E.
  - destruct (isWhite c) eqn:Ec; [reflexivity|]. cbn [trimEnd]. now rewrite Ec.
  - cbn [trimEnd]. cbn [trimEnd] in IH. now rewrite IH.
Qed.

Lemma trim_idempotent s : trim (trim s) = trim s.
Proof.
  unfold trim.
  rewrite (trimStart_fixed (trimEnd (trimStart s))).
  - apply trimEnd_idempotent.
  - apply trimEnd_first, trimStart_first.
Qed.

(** ** schema-extractor.ts and dsl-utils.ts: examples and global settings *)

(** X12. The examples [splitExamples] returns are trimmed and none is empty,
    whatever the text and the delimiter. *)
Theorem splitExamples_trimmed (raw delimiter e : string) :
  In e (splitExamples raw delimiter) -> e <> EmptyString /\ trim e = e.
Proof.
  unfold splitExamples. intros H. apply filter_In in H. destruct H as [Hin Hne].
  apply in_map_iff in Hin. destruct Hin as [x [<- _]]. split.
  - intros E. rewrite E in Hne. discriminate.
  - apply trim_idempotent.
Qed.

Lemma splitExamples_trimmed_witness :
  "150-0042" <> EmptyString /\ trim "150-0042" = "150-0042".
Proof.
  apply (splitExamples_trimmed "150-0042; 102-0001;; " ";" "150-0042").
  vm_compute. left. reflexivity.
Defined.

Lemma walkElements_invariant {S : Type} (P : S -> Prop)
  (visitor : string -> list (string * string) -> S -> S) :
  (forall tag attrs st, P st -> P (visitor tag attrs st)) ->
  forall root st, P st -> P (walkElements visitor root st).
Proof.
  intros Hv. induction root as [segments | tag attrs children IH] using DslNode_ind';
    intros st Hst; [exact Hst|].
  cbn [walkElements]. specialize (Hv tag attrs st Hst).
  revert Hv. generalize (visitor tag attrs st) as acc.
  induction IH as [|child cs Hchild _ IHcs]; intros acc Hacc; [exact Hacc|].
  cbn [fold_left]. apply IHcs. now apply Hchild.
Qed.

(** X13. The settings [collectGlobalConfig] returns are never empty and carry no
    white space around them, whatever [meta] elements the tree holds: an
    empty or blank [content] leaves the default ([UTC], [;]) or the earlier
    setting in place. *)
Theorem collectGlobalConfig_settings (root : DslNode) :
  let config := collectGlobalConfig root in
  (DslUtils.timezone config <> EmptyString
   /\ trim (DslUtils.timezone config) = DslUtils.timezone config)
  /\ (examplesDelimiter config <> EmptyString
      /\ trim (examplesDelimiter config) = examplesDelimiter config).
Proof.
  cbv zeta. unfold collectGlobalConfig.
  apply (walkElements_invariant
           (fun config =>
              (DslUtils.timezone config <> EmptyString
               /\ trim (DslUtils.timezone config) = DslUtils.timezone config)
              /\ (examplesDelimiter config <> EmptyString
                  /\ trim (examplesDelimiter config) = examplesDelimiter config)));
    [|repeat split; discriminate].
  intros tag attrs config [Htz Hd].
  destruct (negb (tag =? "meta")); [now split|].
  set (content := match getProp attrs "content" with
                  | Some c => trim c
                  | None => EmptyString
                  end).
  assert (Hc : nonEmpty content = true ->
               content <> EmptyString /\ trim content = content).
  { intros Hne. split.
    - intros E. rewrite E in Hne. discriminate.
    - unfold content. destruct (getProp attrs "content");
        [apply trim_idempotent | reflexivity]. }
  destruct (match option_map trim (getProp attrs "name") with
            | Some n => n =? "timezone"
            | None => false
            end && nonEmpty content) eqn:E1;
    destruct (match option_map trim (getProp attrs "name") with
              | Some n => n =? "semantic:examples-delimiter"
              | None => false
              end && nonEmpty content) eqn:E2;
    cbn [DslUtils.timezone examplesDelimiter];
    try apply andb_true_iff in E1; try apply andb_true_iff in E2;
    split; try assumption; apply Hc; tauto.
Qed.

(** ** validator.ts: formats and nullable types *)

Lemma substring_whole s : substring 0 (String.length s) s = s.
Proof. induction s as [|c s IH]; cbn; [reflexivity | now rewrite IH]. Qed.

Lemma append_length_all out rest :
  String.length (out ++ rest) = String.length out -> rest = EmptyString.
Proof.
  rewrite length_append. destruct rest; [reflexivity|]. cbn. lia.
Qed.

(** X14. A string that [validateStringFormat] accepts as a [date] is rendered
    unchanged by [date-format] with the pattern [YYYY-MM-DD]: the validator
    and the formatter read dates the same way. *)
Theorem validated_date_round_trip {rt : JsRuntime} (s path timezone : string) :
  Validator.validateStringFormat s "date" path = Ok tt ->
  Filters.formatDateValue (VStr s) (Some TDate) "YYYY-MM-DD" timezone = Ok s.
Proof.
  unfold Validator.validateStringFormat. cbn [String.eqb Ascii.eqb Bool.eqb].
  unfold Validator.isDateFormat.
  destruct (Filters.matchDate s) as [[[y m] d]|] eqn:E; [|discriminate].
  destruct (String.length s =? 10)%nat eqn:El; [|discriminate]. intros _.
  rewrite (formatDateValue_date _ _ _ _ _ E). f_equal.
  destruct (matchDate_spec _ _ _ _ E) as [rest [Hs [Hy [Hm Hd]]]].
  assert (Hl : String.length (y ++ "-" ++ m ++ "-" ++ d) = 10%nat)
    by (rewrite !length_append, Hy, Hm, Hd; reflexivity).
  apply Nat.eqb_eq in El. rewrite Hs in El.
  assert (rest = EmptyString)
    by (apply (append_length_all (y ++ "-" ++ m ++ "-" ++ d)); lia).
  subst rest. now rewrite append_empty_r in Hs.
Qed.

Lemma validated_date_round_trip_witness :
  @Filters.formatDateValue ExampleRuntime.exampleRuntime
    (VStr "2024-02-29") (Some TDate) "YYYY-MM-DD" "Asia/Tokyo"
  = Ok "2024-02-29".
Proof.
  apply (@validated_date_round_trip ExampleRuntime.exampleRuntime
           "2024-02-29" "$data.d" "Asia/Tokyo").
  reflexivity.
Defined.

(** X15. The schema of a nullable interpolation accepts [null] whatever its type
    and its constraints are: an [enum] or a [const] that does not list
    [null] does not reject it. *)
Theorem nullable_field_accepts_null {rt : JsRuntime} {re : JsRegExp}
  (t : DataType) (constraints : list Constraint) (path : string) :
  Validator.validateValue VNull (VObj (buildFieldSchema t true constraints)) path
  = Ok tt.
Proof.
  cbn [Validator.validateValue getMember].
  rewrite getProp_buildFieldSchema_type.
  unfold declaredType. cbn [Validator.validateDeclaredType].
  assert (H : SchemaExtractor.includesKey
                [VStr match t with
                      | TDate | TTime | TDatetime => "string"
                      | _ => dataTypeName t
                      end; VStr "null"] "null" = true).
  { cbn. now rewrite orb_true_r. }
  rewrite H. reflexivity.
Qed.

(** ** validator.ts: objects *)

Section ValidatorObjects.
Context {rt : JsRuntime} {re : JsRegExp}.

Lemma validateRequired_ext p1 p2 required path :
  (forall entry, In entry required ->
     getProp p1 (jsToString entry) = getProp p2 (jsToString entry)) ->
  Validator.validateRequired p1 required path
  = Validator.validateRequired p2 required path.
Proof.
  induction required as [|entry rest IH]; intros H; [reflexivity|].
  cbn [Validator.validateRequired]. rewrite (H entry (or_introl eq_refl)).
  destruct (getProp p2 (jsToString entry)) as [[]|]; try reflexivity;
    apply IH; intros e He; apply H; now right.
Qed.

Lemma validateObject_ext f p1 p2 schema path :
  (forall key, mentions schema key -> getProp p1 key = getProp p2 key) ->
  Validator.validateObject f (VObj p1) schema path
  = Validator.validateObject f (VObj p2) schema path.
Proof.
  intros H. unfold Validator.validateObject.
  assert (Hreq : Validator.validateRequired p1
                   match getMember schema "required" with VArr r => r | _ => [] end path
                 = Validator.validateRequired p2
                   match getMember schema "required" with VArr r => r | _ => [] end path).
  { apply validateRequired_ext. intros entry Hin. apply H. left. exists entry.
    split; [|reflexivity].
    destruct (getMember schema "required"); try contradiction. exact Hin. }
  rewrite Hreq.
  destruct (Validator.validateRequired p2 _ path) as [[]|e]; [|reflexivity].
  cbn [bind].
  assert (Hkeys : forall key,
            In key (keys match getMember schema "properties" with
                         | VObj p => p
                         | _ => []
                         end) ->
            getProp p1 key = getProp p2 key).
  { intros key Hin. apply H. right.
    destruct (getMember schema "properties"); try contradiction. exact Hin. }
  revert Hkeys.
  generalize (match getMember schema "properties" with VObj p => p | _ => [] end)
    as properties.
  induction properties as [|[key propSchema] ps IH]; intros Hkeys; [reflexivity|].
  assert (Hl : forall o,
            (fix lookup (o : list (string * value)) : result unit :=
               match o with
               | [] => Ok tt
               | (k, x) :: o' =>
                   if k =? key then f x propSchema (path ++ "." ++ key) else lookup o'
               end) o
            = match getProp o key with
              | Some x => f x propSchema (path ++ "." ++ key)
              | None => Ok tt
              end).
  { induction o as [|[k x] o IHo]; [reflexivity|]. cbn [getProp].
    destruct (k =? key); [reflexivity | exact IHo]. }
  rewrite !Hl, (Hkeys key (or_introl eq_refl)).
  destruct (match getProp p2 key with
            | Some x => f x propSchema (path ++ "." ++ key)
            | None => Ok tt
            end) as [[]|e]; [|reflexivity].
  cbn [bind]. apply IH. intros k Hk. apply Hkeys. now right.
Qed.

(** X16. The validation of an object reads only the properties its schema names
    in [required] and in [properties]: two objects that agree on those
    properties are accepted or rejected alike, with the same error.
    Properties the schema does not declare, and the order of the properties,
    make no difference. *)
Theorem validateValue_reads_declared
  (p1 p2 : list (string * value)) (schema : value) (path : string) :
  (forall key, mentions schema key -> getProp p1 key = getProp p2 key) ->
  Validator.validateValue (VObj p1) schema path
  = Validator.validateValue (VObj p2) schema path.
Proof.
  intros H. cbn [Validator.validateValue].
  destruct schema as [ | | b | n | s | l | o]; try reflexivity.
  assert (Ht : Validator.validateDeclaredType (VObj p1) (getMember (VObj o) "type") path
               = Validator.validateDeclaredType (VObj p2) (getMember (VObj o) "type") path).
  { unfold Validator.validateDeclaredType, Validator.validateType.
    destruct (getMember (VObj o) "type"); reflexivity. }
  rewrite Ht.
  destruct (Validator.validateDeclaredType (VObj p2) (getMember (VObj o) "type") path)
    as [[]|e]; [|reflexivity|reflexivity].
  cbn [bind negb]. unfold Validator.validateEnum. cbn [Validator.objectIs].
  now rewrite (validateObject_ext Validator.validateValue p1 p2 (VObj o) path H).
Qed.

End ValidatorObjects.

Lemma validateValue_reads_declared_witness :
  @Validator.validateValue ExampleRuntime.exampleRuntime noRegExp
    (VObj [("extra", VNum (numZ 1)); ("a", VStr "x")]) personSchema "$data"
  = @Validator.validateValue ExampleRuntime.exampleRuntime noRegExp
      (VObj [("a", VStr "x")]) personSchema "$data".
Proof.
  apply (@validateValue_reads_declared ExampleRuntime.exampleRuntime noRegExp).
  intros key [[entry [Hin <-]]|Hin].
  - destruct Hin as [<-|[]]. reflexivity.
  - destruct Hin as [<-|[]]. reflexivity.
Defined.

(** ** schema-extractor.ts: the keywords of the root *)

Lemma getProp_ensureObjectProperties node k :
  k <> "properties" -> getProp (ensureObjectProperties node) k = getProp node k.
Proof.
  intros Hk. unfold ensureObjectProperties.
  destruct (getProp node "properties") as [[]|]; try reflexivity;
    now rewrite getProp_setProp_other by congruence.
Qed.

Lemma ensurePathNode_Keeps k path current leaf required :
  k <> "properties" -> k <> "required" -> path <> [] ->
  Keeps k current (ensurePathNode current path leaf required).
Proof.
  intros Hp Hr Hne. destruct path as [|part rest]; [contradiction|].
  cbn [ensurePathNode].
  destruct current as [ | | | | | |node]; try exact I.
  destruct (getProp (ensureObjectProperties node) "properties")
    as [[ | | | | | |properties]|]; try exact I.
  assert (Hstore : forall child key,
            getProp (pushRequired
                       (setProp (ensureObjectProperties node) "properties" child) key) k
            = getProp node k).
  { intros child key. rewrite getProp_pushRequired_other by exact Hr.
    rewrite getProp_setProp_other by congruence.
    now apply getProp_ensureObjectProperties. }
  destruct rest as [|part' rest'].
  - cbn [Keeps ownProp]. destruct required; [apply Hstore|].
    rewrite getProp_setProp_other by congruence.
    now apply getProp_ensureObjectProperties.
  - destruct (partIsArray part).
    + destruct (nullish (getMember (VObj properties) (partKey part)) emptyArraySchema)
        as [ | | | | | |arrNode]; try exact I.
      match goal with
      | |- Keeps _ _ (bind ?r _) => destruct r as [items|e]; [|exact I]
      end.
      cbn [bind Keeps ownProp]. apply Hstore.
    + match goal with
      | |- Keeps _ _ (bind ?r _) => destruct r as [objNode|e]; [|exact I]
      end.
      cbn [bind Keeps ownProp]. apply Hstore.
Qed.

Lemma ensurePathNode_Keeps_any k path current leaf required :
  k <> "properties" -> k <> "required" ->
  Keeps k current (ensurePathNode current path leaf required).
Proof.
  intros Hp Hr. destruct path as [|part rest]; [reflexivity|].
  now apply ensurePathNode_Keeps.
Qed.

Lemma putFieldSchema_Keeps k current parts field :
  k <> "properties" ->
  ownProp (putFieldSchema current parts field) k = ownProp current k.
Proof.
  intros Hp. destruct parts as [|part rest]; [now destruct current|].
  destruct current as [ | | | | | |node]; try reflexivity.
  cbn [putFieldSchema].
  destruct (getProp node "properties") as [[ | | | | | |properties]|];
    try reflexivity.
  assert (Hstore : forall child,
            ownProp (VObj (setProp node "properties" child)) k = ownProp (VObj node) k).
  { intros child. cbn [ownProp]. now rewrite getProp_setProp_other by congruence. }
  destruct rest as [|part' rest'];
    destruct (getProp properties (partKey part)) as [[ | | | | | |next]|];
    try reflexivity; try apply Hstore.
  destruct (partIsArray part); [|apply Hstore].
  destruct (getProp next "items"); [apply Hstore | reflexivity].
Qed.

Lemma Keeps_bind k schema r f :
  Keeps k schema r -> (forall s1, r = Ok s1 -> Keeps k s1 (f s1)) ->
  Keeps k schema (bind r f).
Proof.
  intros Hr Hf. destruct r as [s1|e]; [|exact I]. cbn [bind].
  specialize (Hf s1 eq_refl). cbn [Keeps] in Hr.
  destruct (f s1) as [s2|e]; [|exact I]. cbn [Keeps] in *. congruence.
Qed.

Lemma walkSegment_Keeps k schema context metaSemantics segment :
  k <> "properties" -> k <> "required" ->
  Keeps k schema (walkSegment schema context metaSemantics segment).
Proof.
  intros Hp Hr. destruct segment as [text|seg]; [reflexivity|].
  cbn [walkSegment]. apply Keeps_bind.
  - now apply ensurePathNode_Keeps_any.
  - intros s1 _.
    destruct (getFieldSchema s1 _) as [f|]; [|reflexivity].
    destruct (applySemantic f _) as [f1|e]; [|exact I]. cbn [bind].
    destruct (applySemantic f1 _) as [f2|e]; [|exact I]. cbn [bind Keeps].
    now apply putFieldSchema_Keeps.
Qed.

Lemma walkSegments_Keeps k segments : forall schema acc context metaSemantics,
  k <> "properties" -> k <> "required" ->
  Keeps k schema acc ->
  Keeps k schema
    (fold_left (fun acc segment =>
                  let* s := acc in walkSegment s context metaSemantics segment)
               segments acc).
Proof.
  induction segments as [|seg segments IH];
    intros schema acc context metaSemantics Hp Hr Hacc; [exact Hacc|].
  cbn [fold_left]. apply IH; [exact Hp | exact Hr |].
  apply Keeps_bind; [exact Hacc|]. intros s1 _. now apply walkSegment_Keeps.
Qed.

Lemma walkIteration_Keeps k expr st :
  k <> "properties" -> k <> "required" ->
  match walkIteration expr st with
  | Ok st' => ownProp (fst st') k = ownProp (fst st) k
  | Throw _ => True
  end.
Proof.
  intros Hp Hr. unfold walkIteration. destruct expr as [e|]; [|reflexivity].
  destruct (parseIterationExpression e) as [parsed|err]; [|exact I]. cbn [bind].
  pose proof (ensurePathNode_Keeps_any k
                (normalizePath (resolvePathWithAliases (fst parsed) (snd st)))
                (fst st) [("type", VStr "array"); ("items", emptyObjectSchema)]
                true Hp Hr) as H.
  unfold ensureArrayPath.
  destruct (ensurePathNode _ _ _ _) as [s1|err]; [|exact I]. exact H.
Qed.

Lemma walkNode_Keeps k node : forall schema context metaSemantics delimiter,
  k <> "properties" -> k <> "required" ->
  Keeps k schema (walkNode node schema context metaSemantics delimiter).
Proof.
  induction node as [segments | tag attrs children IH] using DslNode_ind';
    intros schema context metaSemantics delimiter Hp Hr.
  - cbn [walkNode]. now apply walkSegments_Keeps.
  - cbn [walkNode]. destruct (tag =? "meta"); [reflexivity|].
    pose proof (walkIteration_Keeps k (attr attrs "data-page")
                  (schema, clonePathAliasMap (SchemaExtractor.aliases context)) Hp Hr)
      as H1.
    destruct (walkIteration (attr attrs "data-page") _) as [st1|e1]; [|exact I].
    cbn [bind fst] in *.
    pose proof (walkIteration_Keeps k (attr attrs "data-repeat") st1 Hp Hr) as H2.
    destruct (walkIteration (attr attrs "data-repeat") st1) as [st2|e2]; [|exact I].
    cbn [bind].
    assert (H3 : Keeps k (fst st2)
                   match attr attrs "data-if" with
                   | Some condition =>
                       applyInterpolationSchema (fst st2)
                         (resolvePathWithAliases condition (snd st2))
                         (mkInterpolation (resolvePathWithAliases condition (snd st2))
                                          TBoolean false [] [])
                   | None => Ok (fst st2)
                   end).
    { destruct (attr attrs "data-if"); [|reflexivity].
      now apply ensurePathNode_Keeps_any. }
    destruct (match attr attrs "data-if" with
              | Some condition => _
              | None => Ok (fst st2)
              end) as [s3|e3]; [|exact I].
    cbn [bind Keeps] in *.
    assert (Hs3 : ownProp s3 k = ownProp schema k) by congruence.
    clear H1 H2 H3. revert s3 Hs3.
    induction IH as [|child cs Hchild _ IHcs]; intros s3 Hs3; [exact Hs3|].
    pose proof (Hchild s3 (mkContext (snd st2)
                  (buildInlineSemantic attrs (inlineSemantic context) delimiter))
                  metaSemantics delimiter Hp Hr) as Hc.
    destruct (walkNode child s3 _ metaSemantics delimiter) as [s'|e]; [|exact I].
    cbn [bind Keeps] in *. apply IHcs. congruence.
Qed.

Section RootKeywords.
Context {rt : JsRuntime}.

Lemma ownProp_sorted s k :
  SchemaNode s -> ownProp (stableSortObject s) k = option_map (sortValue k) (ownProp s k).
Proof.
  intros Hs. inversion Hs as [o Hnd _ _]; subst.
  rewrite stableSortObject_VObj. cbn [ownProp]. now apply getProp_sorted.
Qed.

Lemma extractSchemaFromAst_root root delimiterOption s k :
  extractSchemaFromAst root delimiterOption = Ok s ->
  k <> "properties" -> k <> "required" ->
  ownProp s k = option_map (sortValue k) (ownProp initialSchema k).
Proof.
  intros H Hp Hr.
  destruct (extractSchemaFromAst_inv _ _ _ H) as [raw [Eraw [Hraw ->]]].
  rewrite (ownProp_sorted raw k Hraw). f_equal.
  unfold rawSchema in Eraw.
  match type of Eraw with
  | walkNode root initialSchema ?c ?m ?d = _ =>
      pose proof (walkNode_Keeps k root initialSchema c m d Hp Hr) as Hk
  end.
  rewrite Eraw in Hk. exact Hk.
Qed.

(** X17. The traversal changes no keyword of the root but [properties] and
    [required]: every schema [extractSchemaFromAst] returns declares the
    draft it follows in [$schema], has the type [object], and has no keyword
    besides these four, whatever paths the template uses. *)
Theorem compiled_root_keywords
  (root : DslNode) (delimiterOption : option string) (s : value) :
  extractSchemaFromAst root delimiterOption = Ok s ->
  ownProp s "$schema" = Some (VStr "https://json-schema.org/draft/2020-12/schema")
  /\ ownProp s "type" = Some (VStr "object")
  /\ forall k,
       k <> "$schema" -> k <> "type" -> k <> "properties" -> k <> "required" ->
       ownProp s k = None.
Proof.
  intros H. split; [|split].
  - now rewrite (extractSchemaFromAst_root _ _ _ _ H) by discriminate.
  - now rewrite (extractSchemaFromAst_root _ _ _ _ H) by discriminate.
  - intros k H1 H2 H3 H4. rewrite (extractSchemaFromAst_root _ _ _ _ H H3 H4).
    cbn [ownProp initialSchema getProp].
    destruct (String.eqb_spec "$schema" k); [congruence|].
    destruct (String.eqb_spec "type" k); [congruence|].
    destruct (String.eqb_spec "properties" k); [congruence|].
    destruct (String.eqb_spec "required" k); [congruence|]. reflexivity.
Qed.

End RootKeywords.

Lemma compiled_root_keywords_witness :
  ownProp nestedSchema "$schema"
  = Some (VStr "https://json-schema.org/draft/2020-12/schema")
  /\ ownProp nestedSchema "type" = Some (VStr "object")
  /\ forall k,
       k <> "$schema" -> k <> "type" -> k <> "properties" -> k <> "required" ->
       ownProp nestedSchema k = None.
Proof.
  apply (@compiled_root_keywords ExampleRuntime.exampleRuntime nestedTemplate None).
  reflexivity.
Defined.

Lemma compiled_root_shape {rt : JsRuntime} root delimiterOption s :
  extractSchemaFromAst root delimiterOption = Ok s ->
  exists o,
    s = VObj o /\ getProp o "type" = Some (VStr "object")
    /\ getProp o "enum" = None /\ getProp o "const" = None.
Proof.
  intros H.
  pose proof (extractSchemaFromAst_root root delimiterOption s "type" H) as Ht.
  pose proof (extractSchemaFromAst_root root delimiterOption s "enum" H) as He.
  pose proof (extractSchemaFromAst_root root delimiterOption s "const" H) as Hc.
  destruct (extractSchemaFromAst_inv _ _ _ H) as [raw [_ [Hraw Hs]]].
  apply SchemaNode_sorted in Hraw. rewrite <- Hs in Hraw.
  destruct (SchemaNode_is_object _ Hraw) as [o ->]. exists o.
  cbn [ownProp] in *. split; [reflexivity|].
  split; [apply Ht; discriminate|].
  split; [apply He; discriminate | apply Hc; discriminate].
Qed.

(** ** validator.ts and schema-extractor.ts: required properties *)

Section RequiredRejected.
Context {rt : JsRuntime} {re : JsRegExp}.

Lemma validateRequired_missing data required path k :
  includesKey required k = true ->
  getProp data k = None ->
  exists key,
    Validator.validateRequired data required path
    = Throw (Validator.failed (path ++ "." ++ key) "required property missing").
Proof.
  intros Hin Hk. induction required as [|entry rest IH]; [discriminate|].
  cbn [Validator.validateRequired].
  destruct (getProp data (jsToString entry)) as [x|] eqn:E.
  - assert (Hrest : includesKey rest k = true).
    { cbn [includesKey existsb] in Hin. apply orb_true_iff in Hin.
      destruct Hin as [Hin|Hin]; [|exact Hin].
      destruct entry as [ | | | |s| |]; try discriminate.
      apply String.eqb_eq in Hin. subst s. cbn [jsToString] in E. congruence. }
    destruct x; try (now apply IH); now exists (jsToString entry).
  - now exists (jsToString entry).
Qed.

(** X18. Data that lacks a property the compiled schema lists in its [required]
    is rejected by [validateData], with the error that names a missing
    required property (the first one in the order of the list). *)
Theorem missing_required_rejected
  (root : DslNode) (delimiterOption : option string) (s : value)
  (data : list (string * value)) (k : string) :
  extractSchemaFromAst root delimiterOption = Ok s ->
  requires s k = true ->
  getProp data k = None ->
  exists key,
    Validator.validateData data s
    = Throw (Validator.failed ("$data." ++ key) "required property missing").
Proof.
  intros H Hreq Hk.
  destruct (compiled_root_shape root delimiterOption s H) as [o [-> [Ht [He Hc]]]].
  unfold Validator.validateData. cbn [Validator.validateValue getMember].
  rewrite Ht. cbn [Validator.validateDeclaredType Validator.validateType
                   String.eqb Ascii.eqb Bool.eqb isPlainObject bind negb].
  unfold Validator.validateEnum. cbn [getMember]. rewrite He.
  cbn [bind Validator.validateConst]. rewrite Hc.
  cbn [bind Validator.hasType String.eqb Ascii.eqb Bool.eqb orb].
  unfold Validator.validateObject. cbn [getMember].
  rewrite requires_VObj in Hreq.
  destruct (getProp o "required") as [[ | | | | |required|]|]; try discriminate.
  destruct (validateRequired_missing data required "$data" k Hreq Hk) as [key Hkey].
  exists key. rewrite Hkey. reflexivity.
Qed.

End RequiredRejected.

Lemma missing_required_rejected_witness :
  exists key,
    @Validator.validateData ExampleRuntime.exampleRuntime noRegExp [] nestedSchema
    = Throw (Validator.failed ("$data." ++ key) "required property missing").
Proof.
  apply (@missing_required_rejected ExampleRuntime.exampleRuntime noRegExp
           nestedTemplate None nestedSchema [] "contracts"); reflexivity.
Defined.

(** ** expression-parser.ts: what the parser returns *)

Section ParserResults.
Context {rt : JsRuntime} {pf : JsParseFloat}.

Lemma parseFilter_accepted s t f :
  ExpressionParsing.parseFilter s t = Ok f ->
  ExpressionParser.filterAccepted t f = true.
Proof.
  unfold ExpressionParsing.parseFilter, ExpressionParser.filterAccepted.
  destruct (ExpressionParsing.splitAt ":" s) as [[before after]|] eqn:Es.
  - destruct (getProp (ExpressionParser.FILTER_SPECS t) (trim before))
      as [[lo hi]|] eqn:E; [|discriminate].
    match goal with
    | |- context [if ?c then Throw _ else _] => destruct c eqn:Ec; [discriminate|]
    end.
    intros [= <-]. cbn [name args]. rewrite E.
    apply orb_false_iff in Ec. destruct Ec as [E1 E2].
    apply Nat.ltb_ge in E1, E2. apply andb_true_iff.
    split; now apply Nat.leb_le.
  - destruct (getProp (ExpressionParser.FILTER_SPECS t) (trim s))
      as [[lo hi]|] eqn:E; [|discriminate].
    cbn [String.eqb map List.length].
    match goal with
    | |- context [if ?c then Throw _ else _] => destruct c eqn:Ec; [discriminate|]
    end.
    intros [= <-]. cbn [name args]. rewrite E.
    apply orb_false_iff in Ec. destruct Ec as [E1 E2].
    apply Nat.ltb_ge in E1, E2. apply andb_true_iff.
    split; now apply Nat.leb_le.
Qed.

Lemma parsePathType_path s p t n :
  ExpressionParsing.parsePathType s = Ok (p, t, n) ->
  ExpressionParsing.isPath p = true.
Proof.
  unfold ExpressionParsing.parsePathType.
  destruct (ExpressionParsing.splitAt ":" s) as [[before after]|]; [|discriminate].
  destruct (ExpressionParsing.isPath (trim before)) eqn:E; [|discriminate].
  cbn [negb].
  destruct (if endsWith (trim after) "?"
            then (true, trim (dropEnd 1 (trim after)))
            else (false, trim after)) as [nullable typeStr].
  destruct (ExpressionParsing.parseType typeStr); [|discriminate].
  now intros [= <- _ _].
Qed.

Lemma parseInterpolation_wellFormed inner seg :
  ExpressionParsing.parseInterpolation inner = Ok seg ->
  wellFormedSegment (Interpolation seg).
Proof.
  unfold ExpressionParsing.parseInterpolation.
  destruct (ExpressionParsing.quoteAwareSplit inner "|") as [|first filterParts];
    [discriminate|].
  match goal with
  | |- bind ?r _ = _ -> _ => destruct r as [[pathTypePart constraintsStr]|e];
                               [|discriminate]
  end.
  cbn [bind].
  destruct (ExpressionParsing.parsePathType pathTypePart) as [[[p t] n]|e] eqn:Ep;
    [|discriminate].
  cbn [bind].
  match goal with
  | |- bind ?r _ = _ -> _ => destruct r as [constraints|e]; [|discriminate]
  end.
  cbn [bind].
  destruct (mapM (fun f => ExpressionParsing.parseFilter (trim f) t) filterParts)
    as [filters|e] eqn:Ef; [|discriminate].
  cbn [bind]. intros [= <-]. cbn [wellFormedSegment path].
  split; [now apply (parsePathType_path pathTypePart p t n)|].
  unfold ExpressionParser.parsedSegment. cbn [Types.dataType Types.filters].
  apply mapM_Ok in Ef. apply forallb_forall. intros f Hin.
  induction Ef as [|x y l l' Hxy _ IH]; [contradiction|].
  destruct Hin as [<-|Hin]; [now apply (parseFilter_accepted (trim x)) | now apply IH].
Qed.

Lemma parseTextSegmentsLoop_wellFormed s : forall skip pending segments,
  ExpressionParsing.parseTextSegmentsLoop skip pending s = Ok segments ->
  Forall wellFormedSegment segments.
Proof.
  assert (Hflush : forall pending segments,
            Forall wellFormedSegment segments ->
            Forall wellFormedSegment
              match pending with
              | [] => segments
              | _ => Literal (string_of_list_ascii (rev pending)) :: segments
              end).
  { intros pending segments Hs. destruct pending as [|c pending]; [exact Hs|].
    constructor; [|exact Hs]. cbn [wellFormedSegment rev]. intros E.
    apply (f_equal list_ascii_of_string) in E.
    rewrite list_ascii_of_string_of_list_ascii in E.
    destruct (rev pending); discriminate. }
  induction s as [|c s IH]; intros skip pending segments H;
    cbn [ExpressionParsing.parseTextSegmentsLoop] in H.
  - injection H as <-. apply Hflush. constructor.
  - destruct skip as [|k]; [|now apply (IH k pending)].
    destruct (if prefix "{{" (String c s)
              then ExpressionParsing.findClose (sliceFrom 2 (String c s))
              else None) as [content|]; [|now apply (IH 0%nat (c :: pending))].
    destruct (ExpressionParsing.parseInterpolation (trim content)) as [segment|e] eqn:Ei;
      [|discriminate].
    cbn [bind] in H.
    destruct (ExpressionParsing.parseTextSegmentsLoop _ [] s) as [rest|e] eqn:Er;
      [|discriminate].
    cbn [bind] in H. injection H as <-. apply Hflush. constructor.
    + now apply (parseInterpolation_wellFormed (trim content)).
    + now apply (IH (String.length content + 3)%nat [] rest).
Qed.

(** X19. Every segment [parseTextSegments] returns is well formed: no literal is
    empty, every path is made of identifiers separated by dots, and every
    filter is one the table lists for the declared type, with a number of
    arguments within its bounds.  The renderer and the schema compiler can
    rely on it. *)
Theorem parseTextSegments_wellFormed (text : string) (segments : list TextSegment) :
  ExpressionParsing.parseTextSegments text = Ok segments ->
  Forall wellFormedSegment segments.
Proof. apply parseTextSegmentsLoop_wellFormed. Qed.

End ParserResults.

Lemma parseTextSegments_wellFormed_witness :
  Forall wellFormedSegment
    [Literal "a ";
     Interpolation (mkInterpolation "x" TNumber false [] [mkFilter "fixed" ["2"]])].
Proof.
  apply (@parseTextSegments_wellFormed ExampleRuntime.exampleRuntime integerParseFloat
           "a {{ x:number | fixed:2 }}").
  reflexivity.
Defined.

(** ** expression-parser.ts and renderer.ts: plain text *)

Section PlainText.
Context {rt : JsRuntime} {pf : JsParseFloat}.

Lemma parseTextSegmentsLoop_plain s : forall pending,
  hasOpening s = false ->
  ExpressionParsing.parseTextSegmentsLoop 0 pending s
  = Ok match (rev pending ++ chars s)%list with
       | [] => []
       | l => [Literal (string_of_list_ascii l)]
       end.
Proof.
  induction s as [|c s IH]; intros pending H.
  - cbn [ExpressionParsing.parseTextSegmentsLoop]. unfold chars.
    cbn [list_ascii_of_string]. rewrite app_nil_r.
    destruct pending as [|d pending]; [reflexivity|].
    destruct (rev (d :: pending)) eqn:E; [|reflexivity].
    apply (f_equal (@List.length ascii)) in E. rewrite length_rev in E. discriminate.
  - cbn [hasOpening] in H. apply orb_false_iff in H. destruct H as [Hp Hs].
    cbn [ExpressionParsing.parseTextSegmentsLoop]. rewrite Hp.
    rewrite (IH (c :: pending) Hs). unfold chars.
    cbn [rev list_ascii_of_string]. now rewrite <- app_assoc.
Qed.

(** X20. A text without two opening braces is parsed without error, and what the
    renderer makes of it is the text itself, escaped: nothing else of a
    template's text is changed. *)
Theorem plain_text_rendered (text : string) (context : RenderContext) :
  hasOpening text = false ->
  exists segments,
    ExpressionParsing.parseTextSegments text = Ok segments
    /\ renderNode (TextNode segments) context = Ok (escapeHtml text).
Proof.
  intros H. unfold ExpressionParsing.parseTextSegments.
  rewrite (parseTextSegmentsLoop_plain text [] H). cbn [rev app].
  eexists. split; [reflexivity|].
  destruct (chars text) as [|c l] eqn:E.
  - destruct text; [reflexivity | discriminate].
  - cbn [renderNode mapM renderSegment bind join String.concat].
    rewrite <- E. unfold chars. now rewrite string_of_list_ascii_of_string.
Qed.

End PlainText.

Lemma plain_text_rendered_witness :
  exists segments,
    @ExpressionParsing.parseTextSegments ExampleRuntime.exampleRuntime integerParseFloat
      "1 < 2 {ok}" = Ok segments
    /\ @renderNode ExampleRuntime.exampleRuntime (TextNode segments)
         (mkRenderContext [] [] "UTC")
       = Ok "1 &lt; 2 {ok}".
Proof.
  apply (@plain_text_rendered ExampleRuntime.exampleRuntime integerParseFloat
           "1 < 2 {ok}" (mkRenderContext [] [] "UTC")).
  reflexivity.
Defined.

(** ** expression-parser.ts: paths and types *)

Lemma splitAt_app c a b :
  forallb (fun d => negb (d =? c)%char) (chars a) = true ->
  ExpressionParsing.splitAt c (a ++ String c b) = Some (a, b).
Proof.
  induction a as [|d a IH]; cbn [append ExpressionParsing.splitAt].
  - now rewrite Ascii.eqb_refl.
  - unfold chars. cbn [list_ascii_of_string forallb]. intros H.
    apply andb_true_iff in H. destruct H as [Hd Ha].
    apply negb_true_iff in Hd. rewrite Hd. now rewrite (IH Ha).
Qed.

Lemma splitChar_forallb (f : ascii -> bool) sep s :
  f sep = true ->
  forallb (fun part => forallb f (chars part)) (splitChar sep s) = true ->
  forallb f (chars s) = true.
Proof.
  intros Hsep. induction s as [|c s IH]; [reflexivity|].
  cbn [splitChar]. unfold chars in *. cbn [list_ascii_of_string forallb].
  destruct (Ascii.eqb_spec c sep) as [->|Hne].
  - cbn [forallb list_ascii_of_string]. intros H. rewrite Hsep. now apply IH.
  - pose proof (splitChar_not_nil sep s) as Hnil.
    destruct (splitChar sep s) as [|w ws]; [contradiction|].
    cbn [forallb list_ascii_of_string]. intros H.
    apply andb_true_iff in H. destruct H as [H Hws].
    apply andb_true_iff in H. destruct H as [Hc Hw].
    rewrite Hc. apply IH. cbn [forallb]. now rewrite Hw, Hws.
Qed.

Lemma isIdentifier_chars part :
  isIdentifier part = true -> forallb isPathChar (chars part) = true.
Proof.
  destruct part as [|c part]; [discriminate|]. cbn [isIdentifier].
  intros H. apply andb_true_iff in H. destruct H as [_ H].
  apply forallb_forall. intros d Hd. unfold isPathChar.
  now rewrite (forallb_In _ _ _ H Hd).
Qed.

Lemma isPath_chars p :
  ExpressionParsing.isPath p = true ->
  forallb isPathChar (chars p) = true /\ p <> EmptyString.
Proof.
  unfold ExpressionParsing.isPath. intros H. split.
  - apply (splitChar_forallb isPathChar "."); [reflexivity|].
    apply forallb_forall. intros part Hin. apply isIdentifier_chars.
    now apply (forallb_In _ _ _ H).
  - intros ->. discriminate.
Qed.

Lemma isPathChar_not_white c : isPathChar c = true -> isWhite c = false.
Proof.
  intros H. destruct (isWhite c) eqn:E; [|reflexivity].
  apply isWhite_not_path in E. congruence.
Qed.

Lemma trimEnd_fixed s :
  forallb (fun c => negb (isWhite c)) (chars s) = true -> trimEnd s = s.
Proof.
  induction s as [|c s IH]; [reflexivity|].
  unfold chars in *. cbn [list_ascii_of_string forallb trimEnd]. intros H.
  apply andb_true_iff in H. destruct H as [Hc Hs]. rewrite (IH Hs).
  apply negb_true_iff in Hc. destruct s; [now rewrite Hc | reflexivity].
Qed.

Lemma isPath_trim p : ExpressionParsing.isPath p = true -> trim p = p.
Proof.
  intros H. destruct (isPath_chars p H) as [Hc Hne]. unfold trim.
  assert (Hw : forallb (fun c => negb (isWhite c)) (chars p) = true).
  { apply forallb_forall. intros c Hin. apply negb_true_iff.
    apply isPathChar_not_white. now apply (forallb_In _ _ _ Hc). }
  rewrite trimStart_fixed; [now apply trimEnd_fixed|].
  destruct p as [|c p]; [exact I|].
  apply isPathChar_not_white. apply (forallb_In _ _ _ Hc). now left.
Qed.

(** X21. [parsePathType] reads back what is written in the canonical form: a
    path of identifiers separated by dots, a colon, the name of a type and a
    question mark for a nullable value. *)
Theorem parsePathType_round_trip (p : string) (t : DataType) (isNullable : bool) :
  ExpressionParsing.isPath p = true ->
  ExpressionParsing.parsePathType
    (p ++ ":" ++ dataTypeName t ++ (if isNullable then "?" else EmptyString))
  = Ok (p, t, isNullable).
Proof.
  intros H. destruct (isPath_chars p H) as [Hc _].
  unfold ExpressionParsing.parsePathType.
  change (p ++ ":" ++ dataTypeName t ++ (if isNullable then "?" else EmptyString))
    with (p ++ String ":" (dataTypeName t ++ (if isNullable then "?" else EmptyString))).
  rewrite splitAt_app.
  - rewrite (isPath_trim p H), H. cbn [negb].
    destruct t, isNullable; reflexivity.
  - apply forallb_forall. intros c Hin. apply negb_true_iff.
    pose proof (forallb_In _ _ _ Hc Hin) as Hp.
    destruct (Ascii.eqb_spec c ":") as [->|]; [discriminate | reflexivity].
Qed.

Lemma parsePathType_round_trip_witness :
  ExpressionParsing.parsePathType "contract.customer:datetime?"
  = Ok ("contract.customer", TDatetime, true).
Proof.
  apply (parsePathType_round_trip "contract.customer" TDatetime true). reflexivity.
Defined.

(** ** expression-parser.ts: splitting outside quotes *)

Lemma join_snoc D l x : join D (l ++ [x])%list = terminated D l ++ x.
Proof.
  unfold join. induction l as [|a l IH]; [reflexivity|].
  cbn [app terminated]. rewrite !append_assoc, <- IH.
  destruct l; reflexivity.
Qed.

Lemma terminated_snoc D l x :
  terminated D (l ++ [x])%list = terminated D l ++ x ++ D.
Proof.
  induction l as [|a l IH]; cbn [app terminated].
  - now rewrite append_empty_r.
  - now rewrite IH, !append_assoc.
Qed.

Lemma string_of_list_ascii_snoc l c rest :
  string_of_list_ascii (l ++ [c])%list ++ rest
  = string_of_list_ascii l ++ String c rest.
Proof. induction l as [|d l IH]; cbn; [reflexivity | now rewrite IH]. Qed.

Lemma prefix_char d ch rest :
  prefix (String d EmptyString) (String ch rest) = true -> ch = d.
Proof.
  cbn [prefix]. destruct (ascii_dec d ch) as [<-|]; [reflexivity | discriminate].
Qed.

Lemma quoteAwareSplitLoop_join d s : forall inQuote current parts,
  join (String d EmptyString)
       (ExpressionParsing.quoteAwareSplitLoop (String d EmptyString) 0 inQuote
          current parts s)
  = terminated (String d EmptyString) (rev parts)
    ++ string_of_list_ascii (rev current) ++ s.
Proof.
  induction s as [|ch rest IH]; intros inQuote current parts.
  - cbn [ExpressionParsing.quoteAwareSplitLoop]. rewrite append_empty_r.
    destruct current as [|c current], parts as [|p parts];
      try reflexivity; cbn [rev]; apply join_snoc.
  - cbn [ExpressionParsing.quoteAwareSplitLoop].
    assert (Hpush : forall q,
              join (String d EmptyString)
                   (ExpressionParsing.quoteAwareSplitLoop (String d EmptyString) 0 q
                      (ch :: current) parts rest)
              = terminated (String d EmptyString) (rev parts)
                ++ string_of_list_ascii (rev current) ++ String ch rest).
    { intros q. rewrite IH. cbn [rev]. now rewrite string_of_list_ascii_snoc. }
    destruct inQuote as [q|]; [apply Hpush|].
    destruct (ExpressionParsing.isQuote ch); [apply Hpush|].
    destruct (prefix (String d EmptyString) (String ch rest)) eqn:Ep; [|apply Hpush].
    apply prefix_char in Ep. subst ch.
    cbn [String.length Nat.sub]. rewrite IH. cbn [rev string_of_list_ascii].
    rewrite terminated_snoc, !append_assoc. reflexivity.
Qed.

(** X22. [quoteAwareSplit] loses nothing: joining the parts it returns with the
    delimiter, a single character as in every call of the sources, gives
    the text back, quotes included. *)
Theorem quoteAwareSplit_join (s : string) (d : ascii) :
  join (String d EmptyString)
       (ExpressionParsing.quoteAwareSplit s (String d EmptyString))
  = s.
Proof.
  unfold ExpressionParsing.quoteAwareSplit. now rewrite quoteAwareSplitLoop_join.
Qed.

(** ** expression-parser.ts: quoted arguments *)

Lemma quoteAwareSplitLoop_quoted D q s :
  forallb (fun c => negb (c =? q)%char) (chars s) = true ->
  forall current,
    ExpressionParsing.quoteAwareSplitLoop D 0 (Some q) current []
      (s ++ String q EmptyString)
    = [string_of_list_ascii (rev current) ++ s ++ String q EmptyString].
Proof.
  induction s as [|c s IH]; intros H current.
  - cbn [append ExpressionParsing.quoteAwareSplitLoop rev app]. f_equal.
    rewrite <- (append_empty_r (string_of_list_ascii (rev current ++ [q]))).
    apply string_of_list_ascii_snoc.
  - unfold chars in H. cbn [list_ascii_of_string forallb] in H.
    apply andb_true_iff in H. destruct H as [Hc Hs]. apply negb_true_iff in Hc.
    cbn [append ExpressionParsing.quoteAwareSplitLoop]. rewrite Hc.
    rewrite (IH Hs). cbn [rev]. f_equal. apply string_of_list_ascii_snoc.
Qed.

Lemma quoteAwareSplit_quoted D q s :
  ExpressionParsing.isQuote q = true ->
  forallb (fun c => negb (c =? q)%char) (chars s) = true ->
  ExpressionParsing.quoteAwareSplit (String q (s ++ String q EmptyString)) D
  = [String q (s ++ String q EmptyString)].
Proof.
  intros Hq Hs. unfold ExpressionParsing.quoteAwareSplit.
  cbn [ExpressionParsing.quoteAwareSplitLoop]. rewrite Hq.
  now rewrite (quoteAwareSplitLoop_quoted D q s Hs).
Qed.

Lemma unquote_quoted q s :
  ExpressionParsing.isQuote q = true ->
  ExpressionParsing.unquote (String q (s ++ String q EmptyString)) = s.
Proof.
  intros Hq. unfold ExpressionParsing.unquote.
  change (list_ascii_of_string (String q (s ++ String q EmptyString)))
    with (q :: chars (s ++ String q EmptyString)).
  rewrite chars_app. change (chars (String q EmptyString)) with [q].
  destruct (chars s ++ [q])%list as [|c rest] eqn:E;
    [destruct (chars s); discriminate|].
  assert (Hlast : last rest c = q).
  { transitivity (last (c :: rest) c); [now destruct rest|].
    rewrite <- E. apply last_last. }
  rewrite Hlast.
  assert (Hif : ((q =? dquote) && (q =? dquote) || (q =? "'") && (q =? "'"))%char = true).
  { unfold ExpressionParsing.isQuote in Hq. now rewrite !andb_diag. }
  rewrite Hif, <- E, removelast_last. unfold chars.
  apply string_of_list_ascii_of_string.
Qed.

Lemma isQuote_not_white q : ExpressionParsing.isQuote q = true -> isWhite q = false.
Proof.
  unfold ExpressionParsing.isQuote. intros H. apply orb_true_iff in H.
  destruct H as [H|H]; apply Ascii.eqb_eq in H; subst q; reflexivity.
Qed.

Lemma trimEnd_last x q :
  isWhite q = false ->
  trimEnd (x ++ String q EmptyString) = x ++ String q EmptyString.
Proof.
  intros Hq. induction x as [|c x IH]; cbn [append trimEnd].
  - now rewrite Hq.
  - rewrite IH. destruct (x ++ String q EmptyString) eqn:E; [|reflexivity].
    destruct x; discriminate.
Qed.

Lemma trim_quoted q s :
  ExpressionParsing.isQuote q = true ->
  trim (String q (s ++ String q EmptyString)) = String q (s ++ String q EmptyString).
Proof.
  intros Hq. apply isQuote_not_white in Hq. unfold trim.
  rewrite trimStart_fixed by exact Hq.
  exact (trimEnd_last (String q s) q Hq).
Qed.

Lemma filter_name_plain t name bounds :
  getProp (ExpressionParser.FILTER_SPECS t) name = Some bounds ->
  forallb (fun d => negb (d =? ":")%char) (chars name) = true /\ trim name = name.
Proof.
  intros H. apply getProp_In in H.
  destruct t; cbn in H;
    repeat (destruct H as [H|H]; [inversion H; subst; now split|]); contradiction.
Qed.

(** X23. A filter argument written between quotes reaches the filter as it is
    written: the commas and colons it holds split nothing and the quotes are
    removed. *)
Theorem quoted_argument_verbatim
  (t : DataType) (name : string) (lo hi : nat) (q : ascii) (a : string) :
  getProp (ExpressionParser.FILTER_SPECS t) name = Some (lo, hi) ->
  (lo <= 1 <= hi)%nat ->
  ExpressionParsing.isQuote q = true ->
  forallb (fun c => negb (c =? q)%char) (chars a) = true ->
  ExpressionParsing.parseFilter
    (name ++ ":" ++ String q (a ++ String q EmptyString)) t
  = Ok (mkFilter name [a]).
Proof.
  intros Hspec Hbounds Hq Ha.
  destruct (filter_name_plain t name _ Hspec) as [Hplain Htrim].
  unfold ExpressionParsing.parseFilter.
  change (name ++ ":" ++ String q (a ++ String q EmptyString))
    with (name ++ String ":" (String q (a ++ String q EmptyString))).
  rewrite (splitAt_app ":" name _ Hplain).
  rewrite Htrim, (trim_quoted q a Hq), Hspec.
  cbn [String.eqb]. rewrite (quoteAwareSplit_quoted "," q a Hq Ha).
  cbn [map List.length]. rewrite (trim_quoted q a Hq), (unquote_quoted q a Hq).
  assert (Harity : ((1 <? lo) || (hi <? 1))%nat = false).
  { apply orb_false_iff. split; apply Nat.ltb_ge; lia. }
  now rewrite Harity.
Qed.

Lemma quoted_argument_verbatim_witness :
  ExpressionParsing.parseFilter "default:'N/A, none: 0'" TString
  = Ok (mkFilter "default" ["N/A, none: 0"]).
Proof.
  apply (quoted_argument_verbatim TString "default" 1 1 "'" "N/A, none: 0");
    try reflexivity. lia.
Defined.

(** ** schema-extractor.ts: the required lists *)

Lemma includesKey_In r k : includesKey r k = false -> ~ In (VStr k) r.
Proof.
  unfold includesKey. intros H Hin.
  assert (Ht : existsb (fun x => match x with VStr s => s =? k | _ => false end) r
               = true).
  { apply existsb_exists. exists (VStr k). split; [exact Hin | apply String.eqb_refl]. }
  congruence.
Qed.

Lemma declares_ext o o' k :
  getProp o' "properties" = getProp o "properties" -> declares o k -> declares o' k.
Proof.
  intros E [po [c [Hp Hc]]]. exists po, c. split; [congruence | exact Hc].
Qed.

Lemma requiredDeclared_ext o o' :
  getProp o' "properties" = getProp o "properties" ->
  getProp o' "required" = getProp o "required" ->
  requiredDeclared o -> requiredDeclared o'.
Proof.
  intros Ep Er H l Hl. rewrite Er in Hl. destruct (H l Hl) as [Hnd Hin].
  split; [exact Hnd|]. intros x Hx. destruct (Hin x Hx) as [k [-> Hk]].
  exists k. split; [reflexivity|]. now apply (declares_ext o).
Qed.

Lemma RequiredNode_ext o o' :
  getProp o' "properties" = getProp o "properties" ->
  getProp o' "required" = getProp o "required" ->
  getProp o' "items" = getProp o "items" ->
  RequiredNode (VObj o) -> RequiredNode (VObj o').
Proof.
  intros Ep Er Ei H. inversion H as [o0 Hreq Hprops Hitems]; subst. constructor.
  - now apply (requiredDeclared_ext o).
  - intros po k c. rewrite Ep. apply Hprops.
  - intros it. rewrite Ei. apply Hitems.
Qed.

Lemma requiredDeclared_pushRequired node key :
  requiredDeclared node -> declares node key ->
  requiredDeclared (pushRequired node key).
Proof.
  intros H Hkey.
  assert (Hone : forall o, getProp o "properties" = getProp node "properties" ->
            forall l, Some (VArr [VStr key]) = Some (VArr l) ->
            NoDup l /\ forall x, In x l -> exists k, x = VStr k /\ declares o k).
  { intros o Eo l [= <-]. split; [repeat constructor; intros []|].
    intros x [<-|[]]. exists key. split; [reflexivity|]. now apply (declares_ext node). }
  unfold pushRequired.
  destruct (getProp node "required") as [[ | | | | |r|]|] eqn:E;
    try (intros l; rewrite getProp_setProp_same; apply Hone;
         now rewrite !getProp_setProp_other by discriminate).
  destruct (includesKey r key) eqn:Ei; [exact H|].
  intros l. rewrite getProp_setProp_same. intros [= <-].
  destruct (H r E) as [Hnd Hin]. split.
  - apply NoDup_app; [exact Hnd | repeat constructor; intros [] |].
    intros a Ha [<-|[]]. now apply (includesKey_In r key).
  - intros x Hx. apply in_app_or in Hx. destruct Hx as [Hx|[<-|[]]].
    + destruct (Hin x Hx) as [k [-> Hk]]. exists k. split; [reflexivity|].
      apply (declares_ext node); [|exact Hk].
      now rewrite getProp_setProp_other by discriminate.
    + exists key. split; [reflexivity|].
      apply (declares_ext node); [|exact Hkey].
      now rewrite getProp_setProp_other by discriminate.
Qed.

(** Storing a child under [key] in the properties of a node, with and
    without listing [key] as required. *)
Lemma store_RequiredNode node1 po key c' :
  requiredDeclared node1 ->
  getProp node1 "properties" = Some (VObj po) ->
  (forall k c, getProp po k = Some c -> RequiredNode c) ->
  (forall it, getProp node1 "items" = Some it -> RequiredNode it) ->
  RequiredNode c' ->
  let node2 := setProp node1 "properties" (VObj (setProp po key c')) in
  RequiredNode (VObj (pushRequired node2 key)) /\ RequiredNode (VObj node2).
Proof.
  intros Hreq Hp Hch Hit Hc' node2.
  assert (Hdecl : forall k, declares node1 k -> declares node2 k).
  { intros k [po0 [c [Hp0 Hc]]]. rewrite Hp in Hp0. injection Hp0 as <-.
    unfold declares, node2. rewrite getProp_setProp_same.
    exists (setProp po key c'). rewrite getProp_setProp.
    destruct (key =? k); eexists; (split; [reflexivity|]); [reflexivity | exact Hc]. }
  assert (Hkey : declares node2 key).
  { unfold declares, node2. rewrite getProp_setProp_same.
    exists (setProp po key c'), c'. now rewrite getProp_setProp_same. }
  assert (Hreq2 : requiredDeclared node2).
  { intros l. unfold node2 at 1. rewrite getProp_setProp_other by discriminate.
    intros Hl. destruct (Hreq l Hl) as [Hnd Hin]. split; [exact Hnd|].
    intros x Hx. destruct (Hin x Hx) as [k [-> Hk]]. exists k. split; [reflexivity|].
    now apply Hdecl. }
  assert (H2 : RequiredNode (VObj node2)).
  { constructor.
    - exact Hreq2.
    - intros po' k c. unfold node2. rewrite getProp_setProp_same. intros [= <-].
      rewrite getProp_setProp. destruct (key =? k); [now intros [= <-] | apply Hch].
    - intros it. unfold node2. rewrite getProp_setProp_other by discriminate.
      apply Hit. }
  split; [|exact H2].
  inversion H2 as [o Hr2 Hprops2 Hitems2]; subst. constructor.
  - now apply requiredDeclared_pushRequired.
  - intros po' k c. rewrite getProp_pushRequired_other by discriminate. apply Hprops2.
  - intros it. rewrite getProp_pushRequired_other by discriminate. apply Hitems2.
Qed.

Lemma merged_RequiredNode co leaf required :
  NoDup (keys co) -> RequiredNode (VObj co) -> LeafOK leaf required ->
  (forall v, In ("items", v) leaf -> RequiredNode v) ->
  RequiredNode (VObj (fromEntries (co ++ leaf)%list)).
Proof.
  intros Hnd Hs [Hnp [Hnr _]] Hit. inversion Hs as [o Hreq Hprops Hitems]; subst.
  assert (Hprop : getProp (fromEntries (co ++ leaf)%list) "properties"
                  = getProp co "properties").
  { rewrite getProp_spread by exact Hnd. now rewrite getProp_rev_absent. }
  assert (Hr : getProp (fromEntries (co ++ leaf)%list) "required"
               = getProp co "required").
  { rewrite getProp_spread by exact Hnd. now rewrite getProp_rev_absent. }
  constructor.
  - now apply (requiredDeclared_ext co).
  - intros po k c. rewrite Hprop. apply Hprops.
  - intros it. rewrite getProp_spread by exact Hnd.
    destruct (getProp (rev leaf) "items") as [v|] eqn:E.
    + intros [= <-]. apply getProp_rev_In in E. now apply Hit.
    + apply Hitems.
Qed.

Lemma setItems_RequiredNode a it :
  RequiredNode (VObj a) -> RequiredNode it ->
  RequiredNode (VObj (setProp a "items" it)).
Proof.
  intros Hs Hit. inversion Hs as [o Hreq Hprops Hitems]; subst. constructor.
  - apply (requiredDeclared_ext a); [| |exact Hreq];
      now rewrite getProp_setProp_other by discriminate.
  - intros po k c. rewrite getProp_setProp_other by discriminate. apply Hprops.
  - intros it'. rewrite getProp_setProp_same. now intros [= <-].
Qed.

Lemma RequiredNode_emptyObjectSchema : RequiredNode emptyObjectSchema.
Proof.
  constructor.
  - intros l [= <-]. split; [constructor | intros x []].
  - intros po k c [= <-]. discriminate.
  - discriminate.
Qed.

Lemma RequiredNode_emptyArraySchema : RequiredNode emptyArraySchema.
Proof.
  constructor.
  - discriminate.
  - discriminate.
  - intros it [= <-]. apply RequiredNode_emptyObjectSchema.
Qed.

Lemma RequiredNode_VObj_nil : RequiredNode (VObj []).
Proof. constructor; discriminate. Qed.

Lemma RequiredNode_initialSchema : RequiredNode initialSchema.
Proof.
  constructor.
  - intros l [= <-]. split; [constructor | intros x []].
  - intros po k c [= <-]. discriminate.
  - discriminate.
Qed.

(** [ensurePathNode] keeps the required lists well formed. *)
Lemma ensurePathNode_RequiredNode path : forall current leaf required s',
  SchemaNode current -> RequiredNode current -> LeafOK leaf required ->
  (forall v, In ("items", v) leaf -> RequiredNode v) ->
  ensurePathNode current path leaf required = Ok s' ->
  RequiredNode s'.
Proof.
  induction path as [|part rest IH]; intros current leaf required s' Hs Hr Hleaf Hli E.
  - cbn [ensurePathNode] in E. now injection E as <-.
  - destruct (SchemaNode_is_object _ Hs) as [node ->].
    destruct (ensureObjectProperties_SchemaNode node Hs)
      as [Hnd1 [Hsame [po [Hp [Hndp Hch]]]]].
    inversion Hr as [o Hreq Hprops Hitems]; subst.
    cbn [ensurePathNode] in E. rewrite Hp in E.
    set (node1 := ensureObjectProperties node) in *.
    set (key := partKey part) in *.
    assert (Hreq1 : requiredDeclared node1).
    { unfold node1, ensureObjectProperties in *.
      destruct (getProp node "properties") as [[ | | | | | |]|] eqn:Ep;
        try exact Hreq;
        intros l; rewrite getProp_setProp_other by discriminate; intros Hl;
        destruct (Hreq l Hl) as [Hnd Hin]; (split; [exact Hnd|]);
        intros x Hx; destruct (Hin x Hx) as [k [_ [po0 [c [Hp0 _]]]]]; congruence. }
    assert (Hch1 : forall k c, getProp po k = Some c -> RequiredNode c).
    { intros k c Hk. unfold node1, ensureObjectProperties in Hp.
      destruct (getProp node "properties") as [[ | | | | | |]|] eqn:Ep;
        try (rewrite getProp_setProp_same in Hp; injection Hp as <-; discriminate);
        try (rewrite Ep in Hp; discriminate).
      rewrite Ep in Hp. injection Hp as ->. now apply (Hprops po k c). }
    assert (Hit1 : forall it, getProp node1 "items" = Some it -> RequiredNode it).
    { intros it. rewrite Hsame by discriminate. apply Hitems. }
    assert (Hit1s : forall it, getProp node1 "items" = Some it -> SchemaNode it).
    { intros it. rewrite Hsame by discriminate. inversion Hs; auto. }
    assert (Hlook : forall dflt, SchemaNode dflt -> RequiredNode dflt ->
              let c0 := nullish (getMember (VObj po) key) dflt in
              SchemaNode c0 /\ RequiredNode c0).
    { intros dflt Hd Hdr. simpl. destruct (getProp po key) as [c|] eqn:Ec.
      - destruct (Hch key c Ec) as [H1 _].
        destruct (SchemaNode_is_object _ H1) as [co ->]. simpl.
        split; [exact H1 | now apply (Hch1 key)].
      - simpl. now split. }
    destruct rest as [|part' rest'].
    + destruct (Hlook (VObj []) SchemaNode_VObj_nil RequiredNode_VObj_nil) as [Hc0 Hc0r].
      set (existing := nullish (getMember (VObj po) key) (VObj [])) in *.
      destruct (SchemaNode_is_object _ Hc0) as [co Eco]. rewrite Eco in *.
      cbn [ownEntries] in E.
      assert (Hndco : NoDup (keys co)) by now inversion Hc0.
      pose proof (merged_RequiredNode co leaf required Hndco Hc0r Hleaf Hli) as Hm.
      destruct (store_RequiredNode node1 po key _ Hreq1 Hp Hch1 Hit1 Hm)
        as [Hpush Hplain].
      injection E as <-. destruct required; [exact Hpush | exact Hplain].
    + destruct (partIsArray part).
      * destruct (Hlook emptyArraySchema SchemaNode_emptyArraySchema
                    RequiredNode_emptyArraySchema) as [Hc0 Hc0r].
        destruct (SchemaNode_is_object _ Hc0) as [arrNode Earr].
        rewrite Earr in *.
        set (arrNode1 := if truthy (getMember (VObj arrNode) "items") then arrNode
                         else setProp arrNode "items" emptyObjectSchema) in *.
        assert (Harr1 : RequiredNode (VObj arrNode1)
                        /\ SchemaNode (getMember (VObj arrNode1) "items")
                        /\ RequiredNode (getMember (VObj arrNode1) "items")).
        { unfold arrNode1. simpl. inversion Hc0 as [o Hnd' Hprops' Hitems']; subst.
          inversion Hc0r as [o' Hreq' Hprops'' Hitems'']; subst.
          destruct (getProp arrNode "items") as [it|] eqn:Eit.
          - specialize (Hitems' it eq_refl). specialize (Hitems'' it eq_refl).
            destruct (SchemaNode_is_object _ Hitems') as [io ->]. simpl.
            rewrite Eit. split; [|split]; assumption.
          - simpl. rewrite getProp_setProp_same.
            split; [apply setItems_RequiredNode; [exact Hc0r|] | split];
              first [apply RequiredNode_emptyObjectSchema
                    | apply SchemaNode_emptyObjectSchema]. }
        destruct Harr1 as [Harr1 [Hitems0 Hitems0r]].
        destruct (ensurePathNode (getMember (VObj arrNode1) "items") (part' :: rest')
                    leaf required) as [items'|e] eqn:Eitems; [|discriminate].
        cbn [bind] in E. injection E as <-.
        apply store_RequiredNode; try assumption.
        apply setItems_RequiredNode; [exact Harr1|].
        exact (IH _ leaf required _ Hitems0 Hitems0r Hleaf Hli Eitems).
      * destruct (Hlook emptyObjectSchema SchemaNode_emptyObjectSchema
                    RequiredNode_emptyObjectSchema) as [Hc0 Hc0r].
        destruct (ensurePathNode
                    (nullish (getMember (VObj po) key) emptyObjectSchema)
                    (part' :: rest') leaf required) as [objNode|e] eqn:Eobj;
          [|discriminate].
        cbn [bind] in E. injection E as <-.
        apply store_RequiredNode; try assumption.
        exact (IH _ leaf required _ Hc0 Hc0r Hleaf Hli Eobj).
Qed.

Lemma assign_RequiredNode t k v t' :
  RequiredNode t -> leafKey k -> assign t k v = Ok t' -> RequiredNode t'.
Proof.
  intros Hr [H1 [H2 H3]] E. inversion Hr as [o Hreq Hprops Hitems]; subst.
  cbn [assign] in E. injection E as <-.
  apply (RequiredNode_ext o); [| | |exact Hr];
    now rewrite getProp_setProp_other by congruence.
Qed.

Lemma applySemantic_RequiredNode t sem t' :
  RequiredNode t -> applySemantic t sem = Ok t' -> RequiredNode t'.
Proof.
  intros Hr. unfold applySemantic. destruct sem as [sem|]; [|now intros [= <-]].
  assert (H1 : forall t1,
             match description sem with
             | Some d => if nonEmpty d then assign t "description" (VStr d) else Ok t
             | None => Ok t
             end = Ok t1 -> RequiredNode t1).
  { intros t1. destruct (description sem) as [d|]; [destruct (nonEmpty d)|];
      try (now intros [= <-]).
    apply assign_RequiredNode; [exact Hr | repeat split; discriminate]. }
  destruct (match description sem with
            | Some d => if nonEmpty d then assign t "description" (VStr d) else Ok t
            | None => Ok t
            end) as [t1|e1]; [|discriminate].
  specialize (H1 t1 eq_refl). cbn [bind].
  assert (H2 : forall t2,
             match instruction sem with
             | Some i => if nonEmpty i then assign t1 "x-instruction" (VStr i) else Ok t1
             | None => Ok t1
             end = Ok t2 -> RequiredNode t2).
  { intros t2. destruct (instruction sem) as [i|]; [destruct (nonEmpty i)|];
      try (now intros [= <-]).
    apply assign_RequiredNode; [exact H1 | repeat split; discriminate]. }
  destruct (match instruction sem with
            | Some i => if nonEmpty i then assign t1 "x-instruction" (VStr i) else Ok t1
            | None => Ok t1
            end) as [t2|e2]; [|discriminate].
  specialize (H2 t2 eq_refl). cbn [bind].
  destruct (examples sem) as [[|e es]|]; try (now intros [= <-]).
  apply assign_RequiredNode; [exact H2 | repeat split; discriminate].
Qed.

Lemma putFieldSchema_RequiredNode parts : forall s f,
  SchemaNode s -> RequiredNode s -> getFieldSchemaParts s parts = Some f ->
  RequiredNode f
  /\ forall f', RequiredNode f' -> RequiredNode (putFieldSchema s parts f').
Proof.
  induction parts as [|part rest IH]; intros s f Hs Hr Hget; [discriminate|].
  inversion Hs as [node Hnd Hprops Hitems]; subst.
  inversion Hr as [node' Hreq Hpropsr Hitemsr]; subst.
  cbn [getFieldSchemaParts getMember] in Hget. cbn [putFieldSchema].
  destruct (getProp node "properties") as [p|] eqn:Ep; [|discriminate].
  destruct (Hprops p eq_refl) as [po [-> [Hndp Hch]]].
  cbn [getMember truthy negb orb] in Hget.
  destruct (getProp po (partKey part)) as [next|] eqn:En; [|discriminate].
  destruct (Hch _ _ En) as [Hnext _].
  pose proof (Hpropsr po _ _ eq_refl En) as Hnextr.
  destruct (SchemaNode_is_object _ Hnext) as [no ->].
  cbn [truthy negb] in Hget.
  assert (Hchr : forall k c, getProp po k = Some c -> RequiredNode c)
    by (intros k c; now apply Hpropsr).
  destruct rest as [|part' rest'].
  - inversion Hget; subst. split; [exact Hnextr|]. intros f' Hf'.
    apply (store_RequiredNode node po (partKey part) f' Hreq Ep Hchr Hitemsr Hf').
  - destruct (partIsArray part).
    + inversion Hnext as [o Hnd' Hprops' Hitems']; subst.
      inversion Hnextr as [o' Hreq' Hpropsr' Hitemsr']; subst.
      cbn [getMember] in Hget.
      destruct (getProp no "items") as [items|] eqn:Ei.
      * specialize (Hitems' items eq_refl). specialize (Hitemsr' items eq_refl).
        destruct (SchemaNode_is_object _ Hitems') as [io ->].
        cbn [nullish isNullish] in Hget.
        destruct (IH _ _ Hitems' Hitemsr' Hget) as [Hf Hput].
        split; [exact Hf|]. intros f' Hf'.
        apply (store_RequiredNode node po (partKey part) _ Hreq Ep Hchr Hitemsr).
        apply setItems_RequiredNode; [exact Hnextr | now apply Hput].
      * cbn [nullish isNullish] in Hget. discriminate.
    + destruct (IH _ _ Hnext Hnextr Hget) as [Hf Hput].
      split; [exact Hf|]. intros f' Hf'.
      apply (store_RequiredNode node po (partKey part) _ Hreq Ep Hchr Hitemsr).
      now apply Hput.
Qed.

Lemma applyInterpolationSchema_RequiredNode s p seg s' :
  SchemaNode s -> RequiredNode s ->
  applyInterpolationSchema s p seg = Ok s' -> RequiredNode s'.
Proof.
  intros Hs Hr. apply ensurePathNode_RequiredNode; try assumption.
  - apply LeafOK_buildFieldSchema.
  - intros v H. apply buildFieldSchema_keys in H. destruct H as [_ [_ H]]. congruence.
Qed.

Lemma ensureArrayPath_RequiredNode s p s' :
  SchemaNode s -> RequiredNode s ->
  ensureArrayPath s p true = Ok s' -> RequiredNode s'.
Proof.
  intros Hs Hr. apply ensurePathNode_RequiredNode; try assumption.
  - apply LeafOK_array.
  - intros v [H|[H|[]]]; inversion H. apply RequiredNode_emptyObjectSchema.
Qed.

Lemma walkSegment_KeepsRequired s context metaSemantics segment :
  SchemaNode s -> RequiredNode s ->
  KeepsRequired (walkSegment s context metaSemantics segment).
Proof.
  intros Hs Hr. destruct segment as [text|seg]; [now split|].
  cbn [walkSegment].
  set (resolvedPath := resolvePathWithAliases _ _).
  destruct (applyInterpolationSchema_SchemaNode s resolvedPath seg Hs) as [s1 [E1 Hs1]].
  pose proof (applyInterpolationSchema_RequiredNode _ _ _ _ Hs Hr E1) as Hr1.
  rewrite E1. cbn [bind]. unfold getFieldSchema.
  destruct (getFieldSchemaParts s1 (normalizePath resolvedPath)) as [f|] eqn:Ef;
    [|now split].
  destruct (putFieldSchema_SchemaNode _ _ _ Hs1 Ef) as [Hf Hput].
  destruct (putFieldSchema_RequiredNode _ _ _ Hs1 Hr1 Ef) as [Hfr Hputr].
  destruct (applySemantic_SchemaNode f (getProp metaSemantics resolvedPath) Hf)
    as [f1 [E2 [Hf1 Hi1]]].
  pose proof (applySemantic_RequiredNode _ _ _ Hfr E2) as Hf1r.
  rewrite E2. cbn [bind].
  destruct (applySemantic_SchemaNode f1 (inlineSemantic context) Hf1)
    as [f2 [E3 [Hf2 Hi2]]].
  pose proof (applySemantic_RequiredNode _ _ _ Hf1r E3) as Hf2r.
  rewrite E3. cbn [bind KeepsRequired].
  split; [apply Hput; [exact Hf2 | congruence] | now apply Hputr].
Qed.

Lemma walkSegments_KeepsRequired segments : forall acc context metaSemantics,
  KeepsRequired acc ->
  KeepsRequired (fold_left
                   (fun acc segment =>
                      let* s := acc in walkSegment s context metaSemantics segment)
                   segments acc).
Proof.
  induction segments as [|seg segments IH]; intros acc context metaSemantics Hacc;
    [exact Hacc|].
  cbn [fold_left]. apply IH. destruct acc as [s|e]; [|exact I].
  cbn [bind]. destruct Hacc. now apply walkSegment_KeepsRequired.
Qed.

Lemma walkIteration_KeepsRequired expr st :
  SchemaNode (fst st) -> RequiredNode (fst st) ->
  match walkIteration expr st with
  | Ok st' => SchemaNode (fst st') /\ RequiredNode (fst st')
  | Throw _ => True
  end.
Proof.
  intros Hs Hr. unfold walkIteration. destruct expr as [e|]; [|now split].
  destruct (parseIterationExpression e) as [parsed|]; cbn [bind]; [|exact I].
  destruct (ensureArrayPath_SchemaNode (fst st)
              (resolvePathWithAliases (fst parsed) (snd st)) Hs) as [s1 [E1 Hs1]].
  pose proof (ensureArrayPath_RequiredNode _ _ _ Hs Hr E1) as Hr1.
  rewrite E1. cbn [bind fst]. now split.
Qed.

Lemma walkNode_KeepsRequired node : forall schema context metaSemantics delimiter,
  SchemaNode schema -> RequiredNode schema ->
  KeepsRequired (walkNode node schema context metaSemantics delimiter).
Proof.
  induction node as [segments | tag attrs children IH] using DslNode_ind';
    intros schema context metaSemantics delimiter Hs Hr.
  - cbn [walkNode]. apply walkSegments_KeepsRequired. now split.
  - cbn [walkNode]. destruct (tag =? "meta"); [now split|].
    pose proof (walkIteration_KeepsRequired (attr attrs "data-page")
                  (schema, clonePathAliasMap (SchemaExtractor.aliases context))
                  Hs Hr) as H1.
    destruct (walkIteration (attr attrs "data-page")
                (schema, clonePathAliasMap (SchemaExtractor.aliases context)))
      as [st1|e1]; [|exact I].
    cbn [bind]. destruct H1 as [Hs1 Hr1].
    pose proof (walkIteration_KeepsRequired (attr attrs "data-repeat") st1 Hs1 Hr1)
      as H2.
    destruct (walkIteration (attr attrs "data-repeat") st1) as [st2|e2]; [|exact I].
    cbn [bind]. destruct H2 as [Hs2 Hr2].
    assert (H3 : exists s3,
               match attr attrs "data-if" with
               | Some condition =>
                   applyInterpolationSchema (fst st2)
                     (resolvePathWithAliases condition (snd st2))
                     (mkInterpolation (resolvePathWithAliases condition (snd st2))
                                      TBoolean false [] [])
               | None => Ok (fst st2)
               end = Ok s3 /\ SchemaNode s3 /\ RequiredNode s3).
    { destruct (attr attrs "data-if") as [condition|]; [|now exists (fst st2)].
      destruct (applyInterpolationSchema_SchemaNode (fst st2)
                  (resolvePathWithAliases condition (snd st2))
                  (mkInterpolation (resolvePathWithAliases condition (snd st2))
                                   TBoolean false [] []) Hs2) as [s3 [E3 Hs3]].
      exists s3. split; [exact E3|]. split; [exact Hs3|].
      exact (applyInterpolationSchema_RequiredNode _ _ _ _ Hs2 Hr2 E3). }
    destruct H3 as [s3 [-> [Hs3 Hr3]]]. cbn [bind].
    revert s3 Hs3 Hr3.
    induction IH as [|child cs Hchild _ IHcs]; intros s3 Hs3 Hr3; [now split|].
    pose proof (Hchild s3 (mkContext (snd st2)
                  (buildInlineSemantic attrs (inlineSemantic context) delimiter))
                  metaSemantics delimiter Hs3 Hr3) as Hc.
    destruct (walkNode child s3 _ metaSemantics delimiter) as [s'|e]; [|exact I].
    cbn [bind]. destruct Hc. now apply IHcs.
Qed.

Lemma rawSchema_KeepsRequired root delimiterOption :
  KeepsRequired (rawSchema root delimiterOption).
Proof.
  apply walkNode_KeepsRequired;
    [apply SchemaNode_initialSchema | apply RequiredNode_initialSchema].
Qed.

Section RequiredLists.
Context {rt : JsRuntime}.

Lemma declares_sorted o k :
  SchemaNode (VObj o) -> declares o k ->
  propertyOf (stableSortObject (VObj o)) k <> VUndefined.
Proof.
  intros Hs [po [c [Hp Hc]]]. inversion Hs as [o' Hnd Hprops _]; subst.
  destruct (Hprops _ Hp) as [po' [E [Hndp Hch]]]. injection E as <-.
  destruct (Hch k c Hc) as [Hcs _]. destruct (SchemaNode_is_object _ Hcs) as [co ->].
  unfold propertyOf, propertiesOf. rewrite stableSortObject_VObj. cbn [getMember].
  rewrite (getProp_sorted o _ Hnd), Hp. cbn [option_map].
  rewrite sortValue_object, stableSortObject_VObj. cbn [getMember].
  rewrite (getProp_sorted po _ Hndp), Hc. cbn [option_map].
  rewrite sortValue_object, stableSortObject_VObj. discriminate.
Qed.

Lemma required_sorted o l :
  SchemaNode (VObj o) -> requiredDeclared o ->
  getMember (stableSortObject (VObj o)) "required" = VArr l ->
  NoDup l
  /\ forall x, In x l ->
       exists k, x = VStr k /\ propertyOf (stableSortObject (VObj o)) k <> VUndefined.
Proof.
  intros Hs Hreq. inversion Hs as [o' Hnd _ _]; subst.
  rewrite stableSortObject_VObj. cbn [getMember].
  rewrite (getProp_sorted o _ Hnd).
  destruct (getProp o "required") as [r|] eqn:Er; [|discriminate].
  cbn [option_map].
  destruct r as [ | | b | n | s | nested | o']; try discriminate.
  cbn [sortValue String.eqb Ascii.eqb Bool.eqb]. intros [= <-].
  destruct (Hreq nested Er) as [Hndl Hin]. split.
  - eapply Permutation_NoDup; [apply stableSort_perm | exact Hndl].
  - intros x Hx.
    eapply Permutation_in in Hx; [|symmetry; apply stableSort_perm].
    destruct (Hin x Hx) as [k [-> Hk]]. exists k. split; [reflexivity|].
    rewrite <- stableSortObject_VObj. now apply declares_sorted.
Qed.

Lemma SchemaAt_RequiredNode s n :
  SchemaNode s -> RequiredNode s -> SchemaAt s n -> SchemaNode n /\ RequiredNode n.
Proof.
  intros Hs Hr Hat. induction Hat as [|n k c Hat IH Hc Hne|n it Hat IH Hit Hne].
  - now split.
  - destruct IH as [Hn Hnr]. split; [subst c; now apply propertyOf_SchemaNode|].
    inversion Hn as [o Hnd Hprops _]; subst.
    inversion Hnr as [o' _ Hpropsr _]; subst.
    unfold propertyOf, propertiesOf in *. cbn [getMember] in *.
    destruct (getProp o "properties") as [p|] eqn:Ep; [|now contradiction Hne].
    destruct (Hprops p eq_refl) as [po [-> _]]. cbn [getMember] in *.
    destruct (getProp po k) as [c|] eqn:Ec; [|now contradiction Hne].
    exact (Hpropsr po k c eq_refl Ec).
  - destruct IH as [Hn Hnr]. split; [subst it; now apply itemsOf_SchemaNode|].
    inversion Hnr as [o' _ _ Hitemsr]; subst.
    unfold itemsOf in *. cbn [getMember] in *.
    destruct (getProp o' "items") as [it|] eqn:Ei; [|now contradiction Hne].
    exact (Hitemsr it eq_refl).
Qed.

Lemma SchemaAt_sorted raw n :
  SchemaNode raw -> SchemaAt (stableSortObject raw) n ->
  exists n', SchemaAt raw n' /\ n = stableSortObject n'.
Proof.
  intros Hs Hat. induction Hat as [|n k c Hat IH Hc Hne|n it Hat IH Hit Hne].
  - exists raw. split; [constructor | reflexivity].
  - destruct IH as [n' [Hat' ->]].
    pose proof (SchemaAt_SchemaNode _ _ Hs Hat') as Hn'.
    rewrite (propertyOf_sorted n' k Hn') in Hc. subst c.
    exists (propertyOf n' k). split; [|reflexivity].
    apply (SchemaAt_property raw n' k); [exact Hat' | reflexivity|].
    intros E. rewrite E in Hne. now apply Hne.
  - destruct IH as [n' [Hat' ->]].
    pose proof (SchemaAt_SchemaNode _ _ Hs Hat') as Hn'.
    rewrite (itemsOf_sorted n' Hn') in Hit. subst it.
    exists (itemsOf n'). split; [|reflexivity].
    apply (SchemaAt_items raw n'); [exact Hat' | reflexivity|].
    intros E. rewrite E in Hne. now apply Hne.
Qed.

(** X24. In every schema [extractSchemaFromAst] returns for a tree that
    names no member of [Object.prototype], the [required] list of every
    node, through [properties] and [items], is well formed: no name is
    listed twice, and every entry is the name of a property the node
    declares.  The code checks for the name before it appends it, and
    stores the property before it lists it. *)
Theorem required_lists_wellformed
  (root : DslNode) (delimiterOption : option string) (s n : value)
  (l : list value) :
  plainTree root = true ->
  extractSchemaFromAst root delimiterOption = Ok s ->
  SchemaAt s n ->
  getMember n "required" = VArr l ->
  NoDup l
  /\ forall x, In x l -> exists k, x = VStr k /\ propertyOf n k <> VUndefined.
Proof.
  intros _ H Hat Hl.
  destruct (extractSchemaFromAst_inv _ _ _ H) as [raw [Eraw [Hraw ->]]].
  pose proof (rawSchema_KeepsRequired root delimiterOption) as Hk.
  rewrite Eraw in Hk. destruct Hk as [_ Hrr].
  destruct (SchemaAt_sorted raw n Hraw Hat) as [n' [Hat' ->]].
  destruct (SchemaAt_RequiredNode raw n' Hraw Hrr Hat') as [Hn' Hnr'].
  inversion Hnr' as [o Hreq _ _]; subst.
  now apply required_sorted.
Qed.

End RequiredLists.

Lemma required_lists_wellformed_witness :
  NoDup [VStr "contracts"]
  /\ forall x, In x [VStr "contracts"] ->
       exists k, x = VStr k /\ propertyOf nestedSchema k <> VUndefined.
Proof.
  apply (@required_lists_wellformed ExampleRuntime.exampleRuntime nestedTemplate None
           nestedSchema nestedSchema [VStr "contracts"]).
  - reflexivity.
  - reflexivity.
  - apply SchemaAt_root.
  - reflexivity.
Defined.
